(** * Verification of the mail sync engine (sync.py) and of the Gmail
      token manager (gmail.py)

    The development is a shallow embedding: Python functions become Rocq
    functions, objects become records, dicts become [gmap]s, exceptions
    become the left summand of a result. *)

From Stdlib Require Import ZArith String Ascii.
From Stdlib Require Import DecimalString.
From stdpp Require Import base option list gmap strings sorting.

Local Open Scope Z_scope.
Local Open Scope string_scope.
Local Open Scope list_scope.

(** ** Python helpers shared by both files *)

(** [s.split(sep)] for a one-character separator: every occurrence of the
    separator ends a field, so the result is never empty and consecutive
    separators give empty fields. *)
Fixpoint split_on (sep : ascii) (s : string) : list string :=
  match s with
  | EmptyString => [EmptyString]
  | String c s' =>
      if Ascii.eqb c sep then EmptyString :: split_on sep s'
      else match split_on sep s' with
           | [] => [String c EmptyString]
           | w :: ws => String c w :: ws
           end
  end.

(** * inbox/models/backends/gmail.py *)

Module Gmail.

(** Exceptions that reach the callers of [new_token]: [OAuthError] and any
    other exception, raised by the auth handler or by the computation of the
    expiration, kept by name. *)
Inductive exn : Type :=
  | OAuthError (msg : string)
  | Exception (name : string).

#[global] Instance exn_eq_dec : EqDecision exn.
Proof. solve_decision. Defined.

(** [GToken = namedtuple('GToken', 'value expiration scopes auth_creds_id')];
    times are seconds on the integer line. *)
Record GToken : Type := mkGToken {
  value : string;
  expiration : Z;
  gscopes : list string;
  auth_creds_id : Z
}.

#[global] Instance GToken_eq_dec : EqDecision GToken.
Proof. solve_decision. Defined.

(** [timedelta(seconds=n)] for an integer [n], as the seconds it stands for:
    the value is normalised to days and seconds of the day, and
    [OverflowError] is raised when the days exceed 999999999 in magnitude. *)
Definition timedelta_seconds (n : Z) : option Z :=
  if bool_decide (Z.abs (n `div` 86400) <= 999999999)%Z then Some n else None.

(** [datetime.min] and [datetime.max], the first second of the year 1 and the
    last second of the year 9999, in seconds since 1970. *)
Definition datetime_min : Z := -62135596800.
Definition datetime_max : Z := 253402300799.

(** [d + delta] on a [datetime]: [OverflowError] ("date value out of range")
    when the sum leaves the years 1 to 9999. *)
Definition datetime_add (d delta : Z) : option Z :=
  if bool_decide (datetime_min <= d + delta <= datetime_max)%Z
  then Some (d + delta) else None.

(** A row of [GmailAuthCredentials]. *)
Record GmailAuthCredentials : Type := mkCreds {
  id : Z;
  _scopes : string;
  client_id : string;
  client_secret : string;
  is_valid : bool;
  refresh_token : option string
}.

#[global] Instance GmailAuthCredentials_eq_dec : EqDecision GmailAuthCredentials.
Proof. solve_decision. Defined.

(** [scopes] property: [self._scopes.split(' ')]. *)
Definition scopes (c : GmailAuthCredentials) : list string :=
  split_on " "%char (_scopes c).

(** [auth_creds.is_valid = False]. *)
Definition set_invalid (c : GmailAuthCredentials) : GmailAuthCredentials :=
  {| id := id c; _scopes := _scopes c; client_id := client_id c;
     client_secret := client_secret c; is_valid := false;
     refresh_token := refresh_token c |}.

(** A [GmailAccount]: its id and the credential objects it owns.  The list
    is the store of the credential objects; a credential is referred to by
    its position, so that a change of [is_valid] is seen through every
    reference. *)
Record GmailAccount : Type := mkAccount {
  account_id : Z;
  auth_credentials : list GmailAuthCredentials
}.

(** What [auth_handler.new_token(refresh_token, client_id, client_secret)]
    does: a pair [(token, expires_in)], an [OAuthError], or another
    exception. *)
Inductive refresh_result : Type :=
  | Refreshed (token : string) (expires_in : Z)
  | RefreshOAuthError (msg : string)
  | RefreshException (name : string).

Section WithAuthHandler.

(** The OAuth endpoint is external. *)
Variable auth_handler_new_token :
  option string -> string -> string -> refresh_result.

Definition refresh (c : GmailAuthCredentials) : refresh_result :=
  auth_handler_new_token (refresh_token c) (client_id c) (client_secret c).

(** [valid_auth_credentials]: references to the credentials whose
    [is_valid] is set, in the order of [auth_credentials]. *)
Definition valid_auth_credentials (store : list GmailAuthCredentials) : list nat :=
  filter (fun i => from_option is_valid false (store !! i) = true)
         (seq 0 (length store)).

(** [datetime.utcnow() + timedelta(seconds=expires_in)], which raises
    [OverflowError] when the duration or the sum cannot be represented. *)
Definition expiration_of (now expires_in : Z) : exn + Z :=
  match timedelta_seconds expires_in ≫= datetime_add now with
  | Some expiration => inr expiration
  | None => inl (Exception "OverflowError")
  end.

(** The body of the [for auth_creds in self.valid_auth_credentials] loop of
    [new_token], over the references that remain.  [now] is the value of
    [datetime.utcnow()] when a refresh succeeds.  The expiration is computed
    inside the [try]: an [OverflowError] there is caught by
    [except Exception] like an exception of the auth handler. *)
Fixpoint new_token_loop (scope : string) (now : Z) (refs : list nat)
    (non_oauth_error : option exn) (store : list GmailAuthCredentials)
    : (exn + GToken) * list GmailAuthCredentials :=
  match refs with
  | [] =>
      match non_oauth_error with
      | Some e => (inl e, store)
      | None => (inl (OAuthError "No valid tokens"), store)
      end
  | i :: refs' =>
      match store !! i with
      | None => new_token_loop scope now refs' non_oauth_error store
      | Some auth_creds =>
          if bool_decide (scope ∈ scopes auth_creds) then
            match refresh auth_creds with
            | Refreshed token expires_in =>
                let expires_in := expires_in - 10 in
                match expiration_of now expires_in with
                | inr expiration =>
                    (inr (mkGToken token expiration (scopes auth_creds)
                            (id auth_creds)),
                     store)
                | inl e =>
                    new_token_loop scope now refs' (Some e) store
                end
            | RefreshOAuthError _ =>
                new_token_loop scope now refs' non_oauth_error
                  (<[i := set_invalid auth_creds]> store)
            | RefreshException name =>
                new_token_loop scope now refs' (Some (Exception name)) store
            end
          else new_token_loop scope now refs' non_oauth_error store
      end
  end.

(** [GmailAccount.new_token(scope)]: the result and the account afterwards. *)
Definition new_token (acct : GmailAccount) (scope : string) (now : Z)
    : (exn + GToken) * GmailAccount :=
  let '(r, store) :=
    new_token_loop scope now (valid_auth_credentials (auth_credentials acct))
      None (auth_credentials acct) in
  (r, mkAccount (account_id acct) store).

(** *** GTokenManager *)

(** What the manager does that a caller can observe besides its result. *)
Inductive event : Type :=
  | CallNewToken (account : Z) (scope : string).

(** [self._tokens = defaultdict(dict)]. *)
Record GTokenManager : Type := mkManager {
  _tokens : gmap Z (gmap string GToken);
  calls : list event
}.

(** [self._tokens[account.id]] on a [defaultdict(dict)]: a missing key is
    inserted with an empty dict. *)
Definition tokens_of_account (m : gmap Z (gmap string GToken)) (a : Z)
    : gmap string GToken * gmap Z (gmap string GToken) :=
  match m !! a with
  | Some d => (d, m)
  | None => (∅, <[a := ∅]> m)
  end.

(** [cache_token]: [for scope in gtoken.scopes:
    self._tokens[account.id][scope] = gtoken]. *)
Definition cache_token (m : gmap Z (gmap string GToken)) (a : Z) (gtoken : GToken)
    : gmap Z (gmap string GToken) :=
  foldl (fun m scope =>
           let '(d, m') := tokens_of_account m a in
           <[a := <[scope := gtoken]> d]> m')
        m (gscopes gtoken).

(** [_get_token].  [now] is the clock read by the expiry test, [now']
    the clock read by [new_token]. *)
Definition _get_token (mgr : GTokenManager) (acct : GmailAccount)
    (scope : string) (force_refresh : bool) (now now' : Z)
    : (exn + GToken) * GTokenManager * GmailAccount :=
  let refresh_path (toks : gmap Z (gmap string GToken)) :=
    let '(r, acct') := new_token acct scope now' in
    let calls' := calls mgr ++ [CallNewToken (account_id acct) scope] in
    match r with
    | inr gtoken =>
        (inr gtoken, mkManager (cache_token toks (account_id acct) gtoken) calls', acct')
    | inl e => (inl e, mkManager toks calls', acct')
    end in
  if force_refresh then refresh_path (_tokens mgr)
  else
    let '(d, toks) := tokens_of_account (_tokens mgr) (account_id acct) in
    match d !! scope with
    | Some gtoken =>
        if bool_decide (now < expiration gtoken)
        then (inr gtoken, mkManager toks (calls mgr), acct)
        else refresh_path toks
    | None => refresh_path toks
    end.

(** [get_token]: [gtoken.value]. *)
Definition get_token (mgr : GTokenManager) (acct : GmailAccount)
    (scope : string) (force_refresh : bool) (now now' : Z)
    : (exn + string) * GTokenManager * GmailAccount :=
  let '(r, mgr', acct') := _get_token mgr acct scope force_refresh now now' in
  (match r with inr g => inr (value g) | inl e => inl e end, mgr', acct').

(** *** Notions used to state what [new_token] and [get_token] do *)

(** The credential at position [j] is valid and covers [scope]. *)
Definition covering (scope : string) (store : list GmailAuthCredentials)
    (j : nat) (c : GmailAuthCredentials) : Prop :=
  store !! j = Some c ∧ is_valid c = true ∧ scope ∈ scopes c.

Definition is_oauth_failure (r : refresh_result) : bool :=
  match r with RefreshOAuthError _ => true | _ => false end.

(** What the loop does to a credential it tries: a valid credential that
    covers [scope] and fails its refresh with an [OAuthError] loses
    [is_valid]. *)
Definition mark_failed (scope : string) (c : GmailAuthCredentials)
    : GmailAuthCredentials :=
  if is_valid c && bool_decide (scope ∈ scopes c) && is_oauth_failure (refresh c)
  then set_invalid c else c.

Definition refresh_succeeds (c : GmailAuthCredentials) : Prop :=
  ∃ token expires_in, refresh c = Refreshed token expires_in.

(** A token that lives [expires_in] seconds from [now] has an expiration
    that [datetime] can hold: the duration is of at most 999999999 days in
    magnitude, and its end lies in the years 1 to 9999. *)
Definition expiry_representable (now expires_in : Z) : Prop :=
  (-999999999 <= expires_in `div` 86400 <= 999999999)%Z
  ∧ (-62135596800 <= now + expires_in <= 253402300799)%Z.

#[global] Instance expiry_representable_dec now expires_in :
  Decision (expiry_representable now expires_in).
Proof. unfold expiry_representable. apply _. Defined.

(** The credential yields the token [g] at [now]: its refresh succeeds and
    the expiration, ten seconds before the announced one, is representable. *)
Definition yields (now : Z) (c : GmailAuthCredentials) (g : GToken) : Prop :=
  ∃ token expires_in,
    refresh c = Refreshed token expires_in
    ∧ expiry_representable now (expires_in - 10)
    ∧ g = mkGToken token (now + (expires_in - 10)) (scopes c) (id c).

(** The exception other than [OAuthError] that an attempt with the
    credential ends in, if any: an exception of the auth handler, or the
    [OverflowError] of an expiration that is not representable. *)
Definition other_exception (now : Z) (c : GmailAuthCredentials) : option exn :=
  match refresh c with
  | Refreshed _ expires_in =>
      if decide (expiry_representable now (expires_in - 10)) then None
      else Some (Exception "OverflowError")
  | RefreshOAuthError _ => None
  | RefreshException name => Some (Exception name)
  end.

(** [c'] is the credential [c], but for its [is_valid]. *)
Definition same_credential (c c' : GmailAuthCredentials) : Prop :=
  id c' = id c ∧ _scopes c' = _scopes c ∧ client_id c' = client_id c
  ∧ client_secret c' = client_secret c ∧ refresh_token c' = refresh_token c.

(** No valid credential of [cs] that covers [scope] yields a token. *)
Definition none_yields (scope : string) (now : Z)
    (cs : list GmailAuthCredentials) : Prop :=
  Forall (fun c => is_valid c = true → scope ∈ scopes c → ∀ g, ¬ yields now c g) cs.

(** The loop of [new_token] read as a recursion over the credential store
    itself; [new_token_loop_scan] shows that both compute the same. *)
Fixpoint new_token_scan (scope : string) (now : Z)
    (cs : list GmailAuthCredentials) (non_oauth_error : option exn)
    : (exn + GToken) * list GmailAuthCredentials :=
  match cs with
  | [] =>
      (inl (default (OAuthError "No valid tokens") non_oauth_error), [])
  | c :: cs' =>
      if is_valid c && bool_decide (scope ∈ scopes c) then
        match refresh c with
        | Refreshed token expires_in =>
            match expiration_of now (expires_in - 10) with
            | inr expiration =>
                (inr (mkGToken token expiration (scopes c) (id c)), c :: cs')
            | inl e =>
                let '(r, cs'') := new_token_scan scope now cs' (Some e) in
                (r, c :: cs'')
            end
        | RefreshOAuthError _ =>
            let '(r, cs'') := new_token_scan scope now cs' non_oauth_error in
            (r, set_invalid c :: cs'')
        | RefreshException name =>
            let '(r, cs'') := new_token_scan scope now cs' (Some (Exception name)) in
            (r, c :: cs'')
        end
      else
        let '(r, cs'') := new_token_scan scope now cs' non_oauth_error in
        (r, c :: cs'')
  end.

(** The non-OAuth exceptions met at the valid credentials that cover
    [scope], in the order of the store. *)
Definition non_oauth_errors (scope : string) (now : Z)
    (store : list GmailAuthCredentials) : list exn :=
  omap (fun c =>
          if is_valid c && bool_decide (scope ∈ scopes c)
          then other_exception now c else None) store.

(** The token of the manager's cache for [(account, scope)]. *)
Definition cached (toks : gmap Z (gmap string GToken)) (a : Z) (scope : string)
    : option GToken :=
  toks !! a ≫= fun d => d !! scope.

(** *** The other methods of the manager, of the account and of the
    credentials *)

Definition GOOGLE_CALENDAR_SCOPE : string :=
  "https://www.googleapis.com/auth/calendar".
Definition GOOGLE_EMAIL_SCOPE : string := "https://mail.google.com/".
Definition GOOGLE_CONTACTS_SCOPE : string := "https://www.google.com/m8/feeds".

(** [get_token_for_email], [get_token_for_calendars] and
    [get_token_for_contacts]. *)
Definition get_token_for_email (mgr : GTokenManager) (acct : GmailAccount)
    (force_refresh : bool) (now now' : Z) :=
  get_token mgr acct GOOGLE_EMAIL_SCOPE force_refresh now now'.

Definition get_token_for_calendars (mgr : GTokenManager) (acct : GmailAccount)
    (force_refresh : bool) (now now' : Z) :=
  get_token mgr acct GOOGLE_CALENDAR_SCOPE force_refresh now now'.

Definition get_token_for_contacts (mgr : GTokenManager) (acct : GmailAccount)
    (force_refresh : bool) (now now' : Z) :=
  get_token mgr acct GOOGLE_CONTACTS_SCOPE force_refresh now now'.

(** [get_token_and_auth_creds_id]: [gtoken.value, gtoken.auth_creds_id]. *)
Definition get_token_and_auth_creds_id (mgr : GTokenManager)
    (acct : GmailAccount) (scope : string) (force_refresh : bool) (now now' : Z)
    : (exn + string * Z) * GTokenManager * GmailAccount :=
  let '(r, mgr', acct') := _get_token mgr acct scope force_refresh now now' in
  (match r with
   | inr g => inr (value g, auth_creds_id g)
   | inl e => inl e
   end, mgr', acct').

(** [clear_cache]: [self._tokens[account.id] = {}]. *)
Definition clear_cache (m : gmap Z (gmap string GToken)) (a : Z)
    : gmap Z (gmap string GToken) :=
  <[a := ∅]> m.

(** The setter of [scopes]: a string is stored as it is, a list of urls is
    joined with single spaces. *)
Definition scopes_setter (val : string + list string)
    (c : GmailAuthCredentials) : GmailAuthCredentials :=
  {| id := id c;
     _scopes := match val with
                | inl s => s
                | inr urls => String.concat " " urls
                end;
     client_id := client_id c; client_secret := client_secret c;
     is_valid := is_valid c; refresh_token := refresh_token c |}.

(** [verify_credentials(auth_creds)], with the cache of the module's
    [g_token_manager], which it clears when the refresh succeeds.  Only
    [OAuthError] is caught. *)
Definition verify_credentials (toks : gmap Z (gmap string GToken))
    (acct_id : Z) (auth_creds : GmailAuthCredentials)
    : (exn + bool) * gmap Z (gmap string GToken) :=
  match refresh auth_creds with
  | Refreshed _ _ => (inr true, clear_cache toks acct_id)
  | RefreshOAuthError _ => (inr false, toks)
  | RefreshException name => (inl (Exception name), toks)
  end.

(** The attributes of the account that [verify_all_credentials] assigns,
    and the number of calls of [self.mark_invalid()], a method of the base
    class. *)
Record SyncSettings : Type := mkSyncSettings {
  sync_events : bool;
  sync_contacts : bool;
  mark_invalid_calls : nat
}.

(** The first loop of [verify_all_credentials], over the references that
    remain; the first component is the exception that ends it, if any. *)
Fixpoint verify_loop (acct_id : Z) (refs : list nat)
    (toks : gmap Z (gmap string GToken)) (store : list GmailAuthCredentials)
    : option exn * gmap Z (gmap string GToken) * list GmailAuthCredentials :=
  match refs with
  | [] => (None, toks, store)
  | i :: refs' =>
      match store !! i with
      | None => verify_loop acct_id refs' toks store
      | Some auth_creds =>
          match verify_credentials toks acct_id auth_creds with
          | (inl e, toks') => (Some e, toks', store)
          | (inr true, toks') => verify_loop acct_id refs' toks' store
          | (inr false, toks') =>
              verify_loop acct_id refs' toks'
                (<[i := set_invalid auth_creds]> store)
          end
      end
  end.

(** The second loop: the union of the scopes of the credentials that are
    valid now. *)
Definition valid_scopes (store : list GmailAuthCredentials) : gset string :=
  foldl (fun vs i =>
           match store !! i with
           | Some auth_creds => vs ∪ list_to_set (scopes auth_creds)
           | None => vs
           end)
        ∅ (valid_auth_credentials store).

(** [verify_all_credentials]. *)
Definition verify_all_credentials (toks : gmap Z (gmap string GToken))
    (acct : GmailAccount) (settings : SyncSettings)
    : option exn * gmap Z (gmap string GToken) * GmailAccount * SyncSettings :=
  let '(raised, toks', store) :=
    verify_loop (account_id acct) (valid_auth_credentials (auth_credentials acct))
      toks (auth_credentials acct) in
  let acct' := mkAccount (account_id acct) store in
  match raised with
  | Some e => (Some e, toks', acct', settings)
  | None =>
      let vs := valid_scopes store in
      let settings :=
        if bool_decide (GOOGLE_CALENDAR_SCOPE ∉ vs)
        then mkSyncSettings false (sync_contacts settings)
               (mark_invalid_calls settings)
        else settings in
      let settings :=
        if bool_decide (GOOGLE_CONTACTS_SCOPE ∉ vs)
        then mkSyncSettings (sync_events settings) false
               (mark_invalid_calls settings)
        else settings in
      let settings :=
        if bool_decide (GOOGLE_EMAIL_SCOPE ∉ vs)
        then mkSyncSettings (sync_events settings) (sync_contacts settings)
               (S (mark_invalid_calls settings))
        else settings in
      (None, toks', acct', settings)
  end.

(** *** Notions used to state what these methods do *)

(** A credential after [verify_all_credentials] has tried it: a valid
    credential whose refresh fails with an [OAuthError] loses [is_valid]. *)
Definition mark_unverified (c : GmailAuthCredentials) : GmailAuthCredentials :=
  if is_valid c && is_oauth_failure (refresh c) then set_invalid c else c.

(** The credential is valid and its refresh succeeds. *)
Definition verifies (c : GmailAuthCredentials) : Prop :=
  is_valid c = true ∧ refresh_succeeds c.

(** The refresh of the credential raises something else than [OAuthError]. *)
Definition refresh_raises (c : GmailAuthCredentials) (name : string) : Prop :=
  is_valid c = true ∧ refresh c = RefreshException name.

(** Every token of the cache carries the scope it is stored under. *)
Definition cache_consistent (toks : gmap Z (gmap string GToken)) : Prop :=
  ∀ a scope g, cached toks a scope = Some g → scope ∈ gscopes g.

(** The string holds no space. *)
Definition no_space (s : string) : Prop :=
  " "%char ∉ list_ascii_of_string s.

End WithAuthHandler.

End Gmail.

(** * inbox-server/inbox/server/sync.py *)

Module Sync.

(** ** Python values *)

(** [sorted(l)] and [sorted(l, key=int)] on integers. *)
Definition sorted (l : list Z) : list Z := merge_sort Z.le l.

(** [sorted(l, reverse=True)] on integers. *)
Definition sorted_reverse (l : list Z) : list Z := merge_sort Z.ge l.

(** [str(n)] for an integer. *)
Definition str (n : Z) : string := NilZero.string_of_int (Z.to_int n).

Definition startswith (p s : string) : bool := String.prefix p s.

(** [s.endswith('/')]. *)
Fixpoint endswith_slash (s : string) : bool :=
  match s with
  | EmptyString => false
  | String c EmptyString => Ascii.eqb c "/"%char
  | String _ s' => endswith_slash s'
  end.

(** One round of the loop of [posixpath.join]. *)
Definition path_join2 (path b : string) : string :=
  if startswith "/" b then b
  else if bool_decide (path = "") || endswith_slash path then path +:+ b
  else path +:+ "/" +:+ b.

(** [os.path.join(a, *p)]. *)
Definition os_path_join (a : string) (p : list string) : string :=
  foldl path_join2 a p.

(** [sep.join(l)]. *)
Fixpoint str_join (sep : string) (l : list string) : string :=
  match l with
  | [] => ""
  | [x] => x
  | x :: l' => x +:+ sep +:+ str_join sep l'
  end.

(** Modelled from the spec: [partition] of [util.itert], which is not
    part of the sources.  "Partition [unknown_uids] into [full_download]
    (msgid not locally known) and [folderitem_only] (msgid locally known)":
    the entries that fail the predicate come first. *)
Definition partition {A} (pred : A -> bool) (l : list A) : list A * list A :=
  (List.filter (fun x => negb (pred x)) l, List.filter pred l).

Fixpoint chunk_fuel {A} (fuel size : nat) (l : list A) : list (list A) :=
  match fuel with
  | O => []
  | S fuel' =>
      match take size l with
      | [] => []
      | group => group :: chunk_fuel fuel' size (drop size l)
      end
  end.

(** Modelled from the spec: [chunk] of [util.itert], which is not part of
    the sources: consecutive groups of at most [size] entries, the last one
    possibly shorter, and no group at all for an empty input. *)
Definition chunk {A} (l : list A) (size : nat) : list (list A) :=
  chunk_fuel (length l) size l.

(** ** Exceptions *)

Inductive exn : Type :=
  | UIDInvalid (folder : string) (remote_uidvalidity cached_uidvalidity : Z)
  | SyncException (msg : string)
  | NotImplementedError
  | KeyError (key : string)
  | AssertionError (msg : string)
  | TypeError (msg : string)
  | AttributeError (msg : string)
  | IMAPError (msg : string)
  | Blocked.

#[global] Instance exn_eq_dec : EqDecision exn.
Proof. solve_decision. Defined.

(** ** Rows, remote mailbox, world *)

(** [{'msgid': ..., 'thrid': ...}]: X-GM-MSGID and X-GM-THRID of a UID. *)
Record GMetadata : Type := mkGMetadata { msgid : Z; thrid : Z }.

(** [{'flags': ..., 'labels': ...}] of a UID. *)
Record Flags : Type := mkFlags { flags : list string; labels : list string }.

(** A message part; [_data] is there when the part has a payload to save,
    [part_key] is the key of its blob. *)
Record Part : Type := mkPart { part_key : Z; _data : option string }.

Record Message : Type := mkMessage {
  message_id : Z;
  message_account : Z;
  g_msgid : Z;
  g_thrid : Z;
  parts : list Part
}.

Record FolderItem : Type := mkFolderItem {
  imapaccount : Z;
  folder_name : string;
  msg_uid : Z;
  message : Message;
  item_flags : Flags
}.

Record Thread : Type := mkThread {
  thread_account : Z;
  thread_g_thrid : Z;
  thread_messages : list Z
}.

Record UIDValidity : Type := mkUIDValidity {
  uid_validity : Z;
  highestmodseq : Z
}.

(** A message as the server holds it under a UID of a folder. *)
Record RawMessage : Type := mkRawMessage {
  raw_metadata : GMetadata;
  raw_flags : Flags;
  raw_modseq : Z;
  raw_parts : list Part
}.

Record RemoteFolder : Type := mkRemoteFolder {
  UIDVALIDITY : Z;
  HIGHESTMODSEQ : Z;
  remote_messages : gmap Z RawMessage
}.

(** What the IMAP server holds and how the provider classifies folders. *)
Record Remote : Type := mkRemote {
  folders : gmap string RemoteFolder;
  folder_names : gmap string string;
  poll_folders : list string;
  sync_folders : list string
}.

Record IMAPAccount : Type := mkIMAPAccount {
  account_id : Z;
  email_address : string;
  provider : string;
  sync_host : option string;
  sync_active : bool
}.

#[global] Instance GMetadata_eq_dec : EqDecision GMetadata.
Proof. solve_decision. Defined.
#[global] Instance Flags_eq_dec : EqDecision Flags.
Proof. solve_decision. Defined.
#[global] Instance Part_eq_dec : EqDecision Part.
Proof. solve_decision. Defined.
#[global] Instance Message_eq_dec : EqDecision Message.
Proof. solve_decision. Defined.
#[global] Instance FolderItem_eq_dec : EqDecision FolderItem.
Proof. solve_decision. Defined.
#[global] Instance Thread_eq_dec : EqDecision Thread.
Proof. solve_decision. Defined.
#[global] Instance UIDValidity_eq_dec : EqDecision UIDValidity.
Proof. solve_decision. Defined.
#[global] Instance IMAPAccount_eq_dec : EqDecision IMAPAccount.
Proof. solve_decision. Defined.

(** The tables seen through [db_session]. *)
Record DB : Type := mkDB {
  folderitems : list FolderItem;
  messages : list Message;
  threads : list Thread;
  uidvalidities : gmap (Z * string) UIDValidity;
  foldersyncs : gmap (Z * string) string
}.

#[global] Instance DB_eq_dec : EqDecision DB.
Proof. solve_decision. Defined.

(** The progress value of a status: the quotient [num / den] times 100,
    which the code computes as a float and which is kept here as the two
    integers, or the time stamp of a poll. *)
Inductive progress : Type :=
  | Percent (num den : Z)
  | Timestamp (now : Z).

(** What a run does that is observable from outside, in order. *)
Inductive Event : Type :=
  | EvLease
  | EvRelease
  | EvSleep (seconds : Z)
  | EvSelect (folder : string)
  | EvFetch (folder : string) (uids : list Z)
  | EvBlobPut (key : Z) (ok : bool)
  | EvEnqueue (event : nat)
  | EvThreadsDetected (event : nat)
  | EvEventSet (event : nat)
  | EvCommit
  | EvRemove (folder : string) (uids : list Z)
  | EvSetCache (key : string)
  | EvRmCache (key : string)
  | EvStatus (account : Z) (state : string) (folder : string) (p : progress).

#[global] Instance progress_eq_dec : EqDecision progress.
Proof. solve_decision. Defined.
#[global] Instance Event_eq_dec : EqDecision Event.
Proof. solve_decision. Defined.

(** Everything a folder worker and the thread detector of its account
    read and write. *)
Record World : Type := mkWorld {
  db : DB;                                   (* the session's view *)
  committed : DB;                            (* as of the last commit *)
  cache : gmap string (gmap Z GMetadata);    (* util.cache *)
  blobs : list Z;                            (* keys saved to the blob store *)
  selected : option (string * UIDValidity);  (* crispin: selected folder *)
  inbox : list (list Message * nat);         (* ThreadDetector.inbox *)
  detector_cache : gmap Z nat;               (* ThreadDetector.cache *)
  events_set : list nat;                     (* Event objects that are set *)
  next_event : nat;
  next_message_id : Z;
  statuses : gmap Z (gmap string (string * progress));
  self_state : option string                 (* FolderSyncMonitor.state *)
}.

(** What stays fixed while a handler of a folder worker runs. *)
Record Env : Type := mkEnv {
  account : IMAPAccount;
  self_folder_name : string;
  remote : Remote;
  CHUNK_SIZE : nat;
  poll_frequency : Z;
  utcnow : Z;
  failing_blobs : list Z      (* keys whose save raises *)
}.

(** ** The monad of handlers: a world in, a result or an exception, a world
    and the events out *)

Record Res (A : Type) : Type := mkRes {
  result : exn + A;
  world : World;
  events : list Event
}.
Arguments mkRes {A}.
Arguments result {A}.
Arguments world {A}.
Arguments events {A}.

Definition M (A : Type) : Type := World -> Res A.

#[global] Instance M_ret : MRet M := fun A x w => mkRes (inr x) w [].

#[global] Instance M_bind : MBind M := fun A B f c w =>
  let r := c w in
  match result r with
  | inl e => mkRes (inl e) (world r) (events r)
  | inr x =>
      let r' := f x (world r) in
      mkRes (result r') (world r') (events r ++ events r')
  end.

Definition raise {A} (e : exn) : M A := fun w => mkRes (inl e) w [].
Definition emit (e : Event) : M unit := fun w => mkRes (inr tt) w [e].
Definition gets {A} (f : World -> A) : M A := fun w => mkRes (inr (f w)) w [].
Definition modify (f : World -> World) : M unit := fun w => mkRes (inr tt) (f w) [].

(** [assert cond, msg]. *)
Definition assert (cond : bool) (msg : string) : M unit :=
  if cond then mret tt else raise (AssertionError msg).

(** [d[key]] on a dict. *)
Definition getitem {A} (d : option A) (key : string) : M A :=
  match d with
  | Some x => mret x
  | None => raise (KeyError key)
  end.

(** [for x in l: body x]. *)
Fixpoint for_each {A} (l : list A) (body : A -> M unit) : M unit :=
  match l with
  | [] => mret tt
  | x :: l' => body x;; for_each l' body
  end.

(** A loop that carries a value from one round to the next. *)
Fixpoint for_fold {A B} (l : list A) (acc : B) (body : B -> A -> M B) : M B :=
  match l with
  | [] => mret acc
  | x :: l' => acc' ← body acc x; for_fold l' acc' body
  end.

(** [[f x for x in l]] where [f] may raise. *)
Fixpoint for_list {A B} (l : list A) (f : A -> M B) : M (list B) :=
  match l with
  | [] => mret []
  | x :: l' => y ← f x; ys ← for_list l' f; mret (y :: ys)
  end.

(** World updates, one per field that handlers assign. *)
Definition set_db (f : DB -> DB) (w : World) : World :=
  mkWorld (f (db w)) (committed w) (cache w) (blobs w) (selected w) (inbox w)
    (detector_cache w) (events_set w) (next_event w) (next_message_id w)
    (statuses w) (self_state w).
Definition set_committed (d : DB) (w : World) : World :=
  mkWorld (db w) d (cache w) (blobs w) (selected w) (inbox w)
    (detector_cache w) (events_set w) (next_event w) (next_message_id w)
    (statuses w) (self_state w).
Definition set_cache_map (f : gmap string (gmap Z GMetadata) -> gmap string (gmap Z GMetadata))
    (w : World) : World :=
  mkWorld (db w) (committed w) (f (cache w)) (blobs w) (selected w) (inbox w)
    (detector_cache w) (events_set w) (next_event w) (next_message_id w)
    (statuses w) (self_state w).
Definition set_blobs (f : list Z -> list Z) (w : World) : World :=
  mkWorld (db w) (committed w) (cache w) (f (blobs w)) (selected w) (inbox w)
    (detector_cache w) (events_set w) (next_event w) (next_message_id w)
    (statuses w) (self_state w).
Definition set_selected (s : option (string * UIDValidity)) (w : World) : World :=
  mkWorld (db w) (committed w) (cache w) (blobs w) s (inbox w)
    (detector_cache w) (events_set w) (next_event w) (next_message_id w)
    (statuses w) (self_state w).
Definition set_inbox (f : list (list Message * nat) -> list (list Message * nat))
    (w : World) : World :=
  mkWorld (db w) (committed w) (cache w) (blobs w) (selected w) (f (inbox w))
    (detector_cache w) (events_set w) (next_event w) (next_message_id w)
    (statuses w) (self_state w).
Definition set_detector_cache (c : gmap Z nat) (w : World) : World :=
  mkWorld (db w) (committed w) (cache w) (blobs w) (selected w) (inbox w)
    c (events_set w) (next_event w) (next_message_id w)
    (statuses w) (self_state w).
Definition set_events_set (f : list nat -> list nat) (w : World) : World :=
  mkWorld (db w) (committed w) (cache w) (blobs w) (selected w) (inbox w)
    (detector_cache w) (f (events_set w)) (next_event w) (next_message_id w)
    (statuses w) (self_state w).
Definition set_next_event (n : nat) (w : World) : World :=
  mkWorld (db w) (committed w) (cache w) (blobs w) (selected w) (inbox w)
    (detector_cache w) (events_set w) n (next_message_id w)
    (statuses w) (self_state w).
Definition set_next_message_id (n : Z) (w : World) : World :=
  mkWorld (db w) (committed w) (cache w) (blobs w) (selected w) (inbox w)
    (detector_cache w) (events_set w) (next_event w) n
    (statuses w) (self_state w).
Definition set_statuses (f : gmap Z (gmap string (string * progress)) ->
                             gmap Z (gmap string (string * progress)))
    (w : World) : World :=
  mkWorld (db w) (committed w) (cache w) (blobs w) (selected w) (inbox w)
    (detector_cache w) (events_set w) (next_event w) (next_message_id w)
    (f (statuses w)) (self_state w).
Definition set_self_state (s : option string) (w : World) : World :=
  mkWorld (db w) (committed w) (cache w) (blobs w) (selected w) (inbox w)
    (detector_cache w) (events_set w) (next_event w) (next_message_id w)
    (statuses w) s.

Definition set_folderitems (f : list FolderItem -> list FolderItem) (d : DB) : DB :=
  mkDB (f (folderitems d)) (messages d) (threads d) (uidvalidities d) (foldersyncs d).
Definition set_messages (f : list Message -> list Message) (d : DB) : DB :=
  mkDB (folderitems d) (f (messages d)) (threads d) (uidvalidities d) (foldersyncs d).
Definition set_threads (f : list Thread -> list Thread) (d : DB) : DB :=
  mkDB (folderitems d) (messages d) (f (threads d)) (uidvalidities d) (foldersyncs d).
Definition set_uidvalidities (f : gmap (Z * string) UIDValidity -> gmap (Z * string) UIDValidity)
    (d : DB) : DB :=
  mkDB (folderitems d) (messages d) (threads d) (f (uidvalidities d)) (foldersyncs d).
Definition set_foldersyncs (f : gmap (Z * string) string -> gmap (Z * string) string)
    (d : DB) : DB :=
  mkDB (folderitems d) (messages d) (threads d) (uidvalidities d) (f (foldersyncs d)).

(** ** The collaborators of a folder worker *)

Section Handlers.

Variable env : Env.

Definition self_account_id : Z := account_id (account env).

(** [db_session.commit()]. *)
Definition commit : M unit :=
  modify (fun w => set_committed (db w) w);; emit EvCommit.

(** [db_session.add_all(items)]: the items and, through the [message]
    relationship, the messages that are not in the session yet. *)
Definition add_message (ms : list Message) (m : Message) : list Message :=
  if bool_decide (message_id m ∈ message_id <$> ms) then ms else ms ++ [m].

Definition add_all (items : list FolderItem) : M unit :=
  modify (set_db (fun d =>
    set_messages (fun ms => foldl add_message ms (message <$> items))
      (set_folderitems (fun fis => fis ++ items) d))).

(** *** MetaCache.  Modelled from the spec: [util.cache] is not part of the
    sources; "Key-value cache ... API: get, set, remove". *)
Definition set_cache (key : string) (val : gmap Z GMetadata) : M unit :=
  modify (set_cache_map <[key := val]>);; emit (EvSetCache key).

Definition get_cache (key : string) : M (option (gmap Z GMetadata)) :=
  gets (fun w => cache w !! key).

Definition rm_cache (key : string) : M unit :=
  modify (set_cache_map (delete key));; emit (EvRmCache key).

(** *** MetadataStore.  Modelled from the spec: the methods of the account
    ([models.tables]) are not part of the sources; each is the query its
    name and its use say. *)

Definition in_folder (folder : string) (fi : FolderItem) : Prop :=
  imapaccount fi = self_account_id ∧ folder_name fi = folder.

#[global] Instance in_folder_dec folder fi : Decision (in_folder folder fi).
Proof. unfold in_folder. apply _. Defined.

(** [account.all_uids(db_session, folder_name)]. *)
Definition account_all_uids (folder : string) : M (list Z) :=
  gets (fun w => msg_uid <$> filter (in_folder folder) (folderitems (db w))).

(** [account.get_uidvalidity(db_session, folder_name)]. *)
Definition get_uidvalidity (folder : string) : M (option UIDValidity) :=
  gets (fun w => uidvalidities (db w) !! (self_account_id, folder)).

(** Modelled from the spec: [account.uidvalidity_valid] is not part of the
    sources; the callback "compares the just-negotiated UIDVALIDITY against
    any cached checkpoint and raises UID-invalid if they disagree". *)
Definition uidvalidity_valid (selected_uidvalidity : Z)
    (selected_folder_name : string) (cached_uidvalidity : Z) : bool :=
  bool_decide (selected_uidvalidity = cached_uidvalidity).

(** [account.g_msgids(db_session, in_=...)]. *)
Definition account_g_msgids (in_ : list Z) : M (list Z) :=
  gets (fun w =>
    g_msgid <$> filter (fun m => message_account m = self_account_id
                                 ∧ g_msgid m ∈ in_) (messages (db w))).

(** [account.g_metadata(db_session, folder_name)]. *)
Definition account_g_metadata (folder : string) : M (gmap Z GMetadata) :=
  gets (fun w =>
    list_to_map ((fun fi => (msg_uid fi,
                             mkGMetadata (g_msgid (message fi)) (g_thrid (message fi))))
                 <$> filter (in_folder folder) (folderitems (db w)))).

(** [account.remove_messages(db_session, uids, folder_name)]: "purge those
    FolderItems". *)
Definition account_remove_messages (uids : gset Z) (folder : string) : M unit :=
  modify (set_db (set_folderitems
    (filter (fun fi => ¬ (in_folder folder fi ∧ msg_uid fi ∈ uids)))));;
  emit (EvRemove folder (sorted (elements uids))).

(** [account.update_metadata(db_session, folder_name, uids, new_flags)]. *)
Definition account_update_metadata (folder : string) (uids : list Z)
    (new_flags : gmap Z Flags) : M unit :=
  modify (set_db (set_folderitems (fmap (fun fi =>
    if bool_decide (in_folder folder fi ∧ msg_uid fi ∈ uids) then
      match new_flags !! msg_uid fi with
      | Some f => mkFolderItem (imapaccount fi) (folder_name fi) (msg_uid fi)
                    (message fi) f
      | None => fi
      end
    else fi)))).

(** [account.create_message(folder_name, *msg)]: a new [FolderItem] with a
    new [Message], neither in the session yet. *)
Definition account_create_message (folder : string) (msg : Z * RawMessage)
    : M FolderItem :=
  mid ← gets next_message_id;
  modify (set_next_message_id (mid + 1));;
  mret (mkFolderItem self_account_id folder msg.1
          (mkMessage mid self_account_id (msgid (raw_metadata msg.2))
             (thrid (raw_metadata msg.2)) (raw_parts msg.2))
          (raw_flags msg.2)).

(** *** RemoteMailbox.  Modelled from the spec: the crispin client is not
    part of the sources; each operation is the one of the "RemoteMailbox
    contract", on the folder that is selected. *)

(** [selected_folder_name], [selected_uidvalidity],
    [selected_highestmodseq]. *)
Definition selected_info : M (string * UIDValidity) :=
  s ← gets selected;
  match s with
  | Some i => mret i
  | None => raise (TypeError "'NoneType' object has no attribute '__getitem__'")
  end.

Definition selected_remote_folder : M RemoteFolder :=
  s ← gets selected;
  match s with
  | Some (name, _) =>
      match folders (remote env) !! name with
      | Some f => mret f
      | None => raise (IMAPError "no such folder")
      end
  | None => raise (IMAPError "no folder selected")
  end.

Definition keys {A} (m : gmap Z A) : list Z := (map_to_list m).*1.

(** [all_uids(c)]. *)
Definition crispin_all_uids : M (list Z) :=
  f ← selected_remote_folder;
  mret (sorted (keys (remote_messages f))).

(** [g_metadata(uids, c)]. *)
Definition crispin_g_metadata (uids : list Z) : M (gmap Z GMetadata) :=
  f ← selected_remote_folder;
  mret (raw_metadata <$> filter (fun p => p.1 ∈ uids) (remote_messages f)).

(** [flags(uids, c)]. *)
Definition crispin_flags (uids : list Z) : M (gmap Z Flags) :=
  f ← selected_remote_folder;
  mret (raw_flags <$> filter (fun p => p.1 ∈ uids) (remote_messages f)).

(** [uids(uids, c)]: the raw messages, which is the download of bodies. *)
Definition crispin_uids (uids : list Z) : M (list (Z * RawMessage)) :=
  s ← selected_info;
  f ← selected_remote_folder;
  emit (EvFetch s.1 uids);;
  mret (omap (fun uid => (fun raw => (uid, raw)) <$> remote_messages f !! uid) uids).

(** [expand_threads(thrids, c)]. *)
Definition crispin_expand_threads (g_thrids : list Z) : M (list Z) :=
  f ← selected_remote_folder;
  mret (sorted (keys (filter (fun p => thrid (raw_metadata p.2) ∈ g_thrids)
                         (remote_messages f)))).

(** Modelled from the spec: [new_and_updated_uids(modseq, c)],
    "new-or-updated-UIDs since a given MODSEQ": the UIDs whose mod-sequence
    is [modseq] or later, as IMAP's SEARCH MODSEQ answers. *)
Definition crispin_new_and_updated_uids (modseq : Z) : M (list Z) :=
  f ← selected_remote_folder;
  mret (sorted (keys (filter (fun p => (modseq <= raw_modseq p.2)%Z)
                         (remote_messages f)))).

(** [folder_status(folder_name, c)]. *)
Definition crispin_folder_status (folder : string) : M UIDValidity :=
  match folders (remote env) !! folder with
  | Some f => mret (mkUIDValidity (UIDVALIDITY f) (HIGHESTMODSEQ f))
  | None => raise (IMAPError "no such folder")
  end.

(** [with self.crispin_client.pool.get() as c: body]: the lease is
    returned on every way out of the body. *)
Definition with_lease {A} (body : M A) : M A := fun w =>
  let r := body w in
  mkRes (result r) (world r) (EvLease :: events r ++ [EvRelease]).

(** [shared_state['status_callback'](account, state, (folder, progress))],
    which is [update_status] of [SyncService.start_sync]. *)
Definition status_callback (state : string) (folder : string) (p : progress)
    : M unit :=
  modify (set_statuses (fun st =>
    <[self_account_id := <[folder := (state, p)]> (default ∅ (st !! self_account_id))]> st));;
  emit (EvStatus self_account_id state folder p).

(** ** The functions of sync.py *)

Definition uidvalidity_callback (folder : string) : M unit :=
  sel ← gets selected;
  assert (bool_decide (is_Some sel))
    "must start IMAP session before verifying UID validity";;
  cached_validity ← get_uidvalidity folder;
  match sel, cached_validity with
  | Some (selected_folder_name, sv), Some cv =>
      if negb (uidvalidity_valid (uid_validity sv) selected_folder_name
                 (uid_validity cv))
      then raise (UIDInvalid folder (uid_validity sv) (uid_validity cv))
      else mret tt
  | _, _ => mret tt
  end.

(** [select_folder(name, uidvalidity_callback, c)]: the folder is selected,
    then the callback sees the select info. *)
Definition select_folder (folder : string) : M unit :=
  match folders (remote env) !! folder with
  | Some f =>
      modify (set_selected
                (Some (folder, mkUIDValidity (UIDVALIDITY f) (HIGHESTMODSEQ f))));;
      emit (EvSelect folder);;
      uidvalidity_callback folder
  | None => raise (IMAPError "no such folder")
  end.

Definition safe_download (uids : list Z) : M (list FolderItem) :=
  raw_messages ← crispin_uids uids;
  s ← selected_info;
  for_list raw_messages (account_create_message s.1).

(** *** ThreadDetector *)

(** Modelled from the spec: [Thread.from_message] ([models.tables]) is not
    part of the sources; "create/load a Thread keyed by (account,
    provider_thrid) via MetadataStore".  The thread is referred to by its
    position in the table. *)
Definition same_thread (a t : Z) (th : Thread) : Prop :=
  thread_account th = a ∧ thread_g_thrid th = t.

#[global] Instance same_thread_dec a t th : Decision (same_thread a t th).
Proof. unfold same_thread. apply _. Defined.

Definition attach (msg : Message) (th : Thread) : Thread :=
  mkThread (thread_account th) (thread_g_thrid th)
    (thread_messages th ++ [message_id msg]).

Definition Thread_from_message (msg : Message) (g_thrid : Z) : M nat :=
  ths ← gets (fun w => threads (db w));
  match list_find (same_thread (message_account msg) g_thrid) ths with
  | Some (i, _) =>
      modify (set_db (set_threads (alter (attach msg) i)));;
      mret i
  | None =>
      modify (set_db (set_threads (fun ths =>
        ths ++ [mkThread (message_account msg) g_thrid [message_id msg]])));;
      mret (length ths)
  end.

(** Modelled from the spec: [thread.update_from_message(msg)] is not part
    of the sources; it updates the cached thread and creates no row. *)
Definition update_from_message (thread : nat) (msg : Message) : M unit :=
  modify (set_db (set_threads (alter (attach msg) thread))).

(** The body of [for msg in messages] in [ThreadDetector._run]. *)
Definition detect_thread (msg : Message) : M unit :=
  c ← gets detector_cache;
  match c !! g_thrid msg with
  | Some thread => update_from_message thread msg
  | None =>
      thread ← Thread_from_message msg (g_thrid msg);
      modify (fun w => set_detector_cache (<[g_thrid msg := thread]> (detector_cache w)) w)
  end.

(** [clear_cache]. *)
Definition clear_cache : M unit := modify (set_detector_cache ∅).

(** [event.set()]. *)
Definition event_set (event : nat) : M unit :=
  modify (set_events_set (fun s => event :: s));; emit (EvEventSet event).

(** One round of [while True] in [ThreadDetector._run]; with an empty inbox
    the round only sleeps for the heartbeat. *)
Definition detector_step : M unit :=
  q ← gets inbox;
  match q with
  | [] => mret tt
  | (messages, event) :: rest =>
      modify (set_inbox (fun _ => rest));;
      for_each messages detect_thread;;
      clear_cache;;
      emit (EvThreadsDetected event);;
      event_set event
  end.

Fixpoint detector_run (rounds : nat) : M unit :=
  match rounds with
  | O => mret tt
  | S n => detector_step;; detector_run n
  end.

(** [event = Event()]. *)
Definition new_Event : M nat :=
  event ← gets next_event;
  modify (set_next_event (S event));;
  mret event.

(** [shared_state['thread_callback'](data)]:
    [self.thread_detector.inbox.put_nowait(data)]. *)
Definition thread_callback (data : list Message * nat) : M unit :=
  modify (set_inbox (fun q => q ++ [data]));; emit (EvEnqueue data.2).

(** [event.wait()]: the worker is suspended while the detector of the
    account takes the batches of its inbox, in order, up to the last one;
    it resumes only if the event is set by then. *)
Definition event_wait (event : nat) : M unit :=
  n ← gets (fun w => length (inbox w));
  detector_run n;;
  s ← gets events_set;
  if bool_decide (event ∈ s) then mret tt else raise Blocked.

(** *** FolderSyncMonitor *)

Definition has_data (part : Part) : Prop := is_Some (_data part).

#[global] Instance has_data_dec part : Decision (has_data part).
Proof. unfold has_data. apply _. Defined.

(** [Greenlet.spawn(part.save, part._data)], run to its end: whether the
    greenlet was successful. *)
Definition save_part (part : Part) : M bool :=
  if bool_decide (part_key part ∈ failing_blobs env) then
    emit (EvBlobPut (part_key part) false);; mret false
  else
    modify (set_blobs (fun b => part_key part :: b));;
    emit (EvBlobPut (part_key part) true);; mret true.

(** [_gevent_check_join(threads, errmsg)], on the outcomes of the joined
    greenlets. *)
Definition _gevent_check_join (successful : list bool) (errmsg : string) : M unit :=
  let errors := filter (fun ok => ok = false) successful in
  if bool_decide (errors ≠ []) then raise (SyncException "Fatal error encountered")
  else mret tt.

Definition save_parts (msg : Message) : M unit :=
  threads ← for_list (filter has_data (parts msg)) save_part;
  _gevent_check_join threads "Could not save message parts to blob store!".

Definition _download_new_messages (uids : list Z) : M (list FolderItem) :=
  new_folderitems ← safe_download uids;
  let new_messages := message <$> new_folderitems in
  for_each new_messages save_parts;;
  event ← new_Event;
  thread_callback (new_messages, event);;
  event_wait event;;
  add_all new_folderitems;;
  commit;;
  mret new_folderitems.

(** [remote_g_metadata[uid]]. *)
Definition metadata_of (remote_g_metadata : gmap Z GMetadata) (uid : Z) : M GMetadata :=
  getitem (remote_g_metadata !! uid) (str uid).

Definition _add_new_folderitem (remote_g_metadata : gmap Z GMetadata)
    (uids : list Z) : M unit :=
  flags ← crispin_flags uids;
  s ← selected_info;
  local_folder_uids ← gets (fun w =>
    msg_uid <$> filter (fun fi => folder_name fi = s.1 ∧ msg_uid fi ∈ uids)
                  (folderitems (db w)));
  let uids := filter (fun uid => uid ∉ local_folder_uids) uids in
  if bool_decide (uids ≠ []) then
    let folderitem_uid_for : gmap Z Z :=
      list_to_map (reverse ((fun p => (msgid p.2, p.1)) <$>
                            filter (fun p => p.1 ∈ uids) (map_to_list remote_g_metadata))) in
    folderitem_g_msgids ← for_list uids (fun uid =>
      md ← metadata_of remote_g_metadata uid; mret (msgid md));
    found ← gets (fun w =>
      filter (fun mm => g_msgid mm ∈ folderitem_g_msgids) (messages (db w)));
    keyed ← for_list found (fun mm =>
      uid ← getitem (folderitem_uid_for !! g_msgid mm) (str (g_msgid mm));
      mret (uid, mm));
    let message_for : gmap Z Message := list_to_map (reverse keyed) in
    new_folderitems ← for_list uids (fun uid =>
      mm ← getitem (message_for !! uid) (str uid);
      mret (mkFolderItem self_account_id s.1 uid mm (mkFlags [] [])));
    new_folderitems ← for_list new_folderitems (fun item =>
      f ← getitem (flags !! msg_uid item) (str (msg_uid item));
      mret (mkFolderItem (imapaccount item) (folder_name item) (msg_uid item)
              (message item) f));
    add_all new_folderitems;;
    commit
  else mret tt.

Definition _deduplicate_message_download (remote_g_metadata : gmap Z GMetadata)
    (uids : list Z) : M (list Z) :=
  in_ ← for_list uids (fun uid =>
    md ← metadata_of remote_g_metadata uid; mret (msgid md));
  local_g_msgids ← account_g_msgids in_;
  let '(full_download, folderitem_only) :=
    partition (fun uid =>
                 match remote_g_metadata !! uid with
                 | Some md => bool_decide (msgid md ∈ local_g_msgids)
                 | None => false
                 end) (sorted uids) in
  (if bool_decide (0 < length folderitem_only)%nat
   then _add_new_folderitem remote_g_metadata folderitem_only
   else mret tt);;
  mret full_download.

Definition _update_validity (uidvalidity highestmodseq : Z) : M unit :=
  modify (set_db (set_uidvalidities
    <[(self_account_id, self_folder_name env) := mkUIDValidity uidvalidity highestmodseq]>));;
  commit.

(** The [assert] on the type of [remote_uids[0]] holds of integer UIDs. *)
Definition _remove_deleted_messages (local_uids remote_uids : list Z) : M (gset Z) :=
  let to_delete : gset Z := list_to_set local_uids ∖ list_to_set remote_uids in
  (if bool_decide (to_delete ≠ ∅)
   then account_remove_messages to_delete (self_folder_name env)
   else mret tt);;
  mret to_delete.

Definition _update_metadata (uids : list Z) : M unit :=
  new_flags ← crispin_flags uids;
  assert (bool_decide (sorted uids = sorted (keys new_flags)))
    "server uids != local uids";;
  account_update_metadata (self_folder_name env) uids new_flags;;
  commit.

Definition _new_or_updated (uids local_uids : list Z) : list Z * list Z :=
  partition (fun x => bool_decide (x ∈ local_uids)) uids.

(** [self.account.provider == 'Gmail' and
    self.folder_name != self.crispin_client.folder_names(c)['All']]. *)
Definition gmail_and_not_all_mail : M bool :=
  if bool_decide (provider (account env) = "Gmail") then
    all ← getitem (folder_names (remote env) !! "All") "All";
    mret (bool_decide (self_folder_name env ≠ all))
  else mret false.

(** The key of the [remote_g_metadata] entry as [initial_sync] and
    [_retrieve_g_metadata_cache] build it:
    [os.path.join(str(self.account.id), self.folder_name, "remote_g_metadata")]. *)
Definition remote_g_metadata_key : string :=
  os_path_join (str (account_id (account env)))
    [self_folder_name env; "remote_g_metadata"].

(** The key as [_update_g_metadata_cache] builds it:
    ["_".join([self.account.email_address, self.folder_name,
    "remote_g_metadata"])]. *)
Definition updated_g_metadata_key : string :=
  str_join "_" [email_address (account env); self_folder_name env;
                "remote_g_metadata"].

(** [uids_for.setdefault(thrid, []).append(uid)] for every [uid]. *)
Definition group_by_thrid (thread_g_metadata : gmap Z GMetadata)
    (to_download : list Z) : M (gmap Z (list Z)) :=
  for_fold to_download (∅ : gmap Z (list Z)) (fun uids_for uid =>
    md ← metadata_of thread_g_metadata uid;
    mret (<[thrid md := default [] (uids_for !! thrid md) ++ [uid]]> uids_for)).

Definition _download_expanded_threads (remote_g_metadata : gmap Z GMetadata)
    (uids : list Z) (flags : gmap Z Flags) : M unit :=
  assert (bool_decide (provider (account env) = "Gmail"))
    "thread expansion only works with Gmail";;
  assert (bool_decide (sorted uids = sorted (keys flags))) "";;
  all ← getitem (folder_names (remote env) !! "All") "All";
  select_folder all;;
  let in_folder_metadata :=
    filter (fun p => p.1 ∈ uids) (map_to_list remote_g_metadata) in
  let all_g_thrids :=
    sorted_reverse (remove_dups ((fun p => thrid p.2) <$> in_folder_metadata)) in
  let original_uid_for : gmap Z Z :=
    list_to_map (reverse ((fun p => (msgid p.2, p.1)) <$> in_folder_metadata)) in
  let folder_g_msgids := (fun p => msgid p.2) <$> in_folder_metadata in
  let num_total_threads := Z.of_nat (length all_g_thrids) in
  for_fold (chunk all_g_thrids 500) 0 (fun num_downloaded_threads g_thrids =>
    thread_uids ← crispin_expand_threads g_thrids;
    thread_g_metadata ← crispin_g_metadata thread_uids;
    to_download ← _deduplicate_message_download thread_g_metadata thread_uids;
    uids_for ← group_by_thrid thread_g_metadata to_download;
    for_fold (sorted_reverse (keys uids_for)) num_downloaded_threads
      (fun num_downloaded_threads g_thrid =>
        uids ← getitem (uids_for !! g_thrid) (str g_thrid);
        downloaded ← _download_new_messages (sorted_reverse uids);
        let new_folderitems :=
          filter (fun i => g_msgid (message i) ∈ folder_g_msgids) downloaded in
        original_folderitems ← for_list new_folderitems (fun item =>
          original_uid ← getitem (original_uid_for !! g_msgid (message item))
                           (str (g_msgid (message item)));
          f ← getitem (flags !! original_uid) (str original_uid);
          mret (mkFolderItem self_account_id (self_folder_name env) original_uid
                  (message item) f));
        add_all original_folderitems;;
        commit;;
        let num_downloaded_threads := num_downloaded_threads + 1 in
        status_callback "initial" (self_folder_name env)
          (Percent num_downloaded_threads num_total_threads);;
        mret num_downloaded_threads));;
  mret tt.

(** The dict is changed in place; the changed dict is the result here. *)
Definition _update_g_metadata_cache (remote_g_metadata : gmap Z GMetadata)
    (local_uids : list Z) : M (gmap Z GMetadata) :=
  s ← selected_info;
  modified ← crispin_new_and_updated_uids (highestmodseq s.2);
  let '(new, updated) := _new_or_updated modified local_uids in
  new_metadata ← crispin_g_metadata new;
  let remote_g_metadata := new_metadata ∪ remote_g_metadata in
  all_uids ← crispin_all_uids;
  let remote_g_metadata := filter (fun p => p.1 ∈ all_uids) remote_g_metadata in
  set_cache updated_g_metadata_key remote_g_metadata;;
  for_each (chunk updated (5 * CHUNK_SIZE env)) _update_metadata;;
  mret remote_g_metadata.

Definition _retrieve_g_metadata_cache (local_uids : list Z)
    (cached_validity : UIDValidity) : M (option (gmap Z GMetadata)) :=
  remote_g_metadata ← get_cache remote_g_metadata_key;
  match remote_g_metadata with
  | Some md =>
      s ← selected_info;
      if bool_decide (highestmodseq cached_validity < highestmodseq s.2)
      then md' ← _update_g_metadata_cache md local_uids; mret (Some md')
      else mret (Some md)
  | None => mret None
  end.

Definition _highestmodseq_update (last_highestmodseq : Z) : M unit :=
  s ← selected_info;
  let new_highestmodseq := highestmodseq s.2 in
  let new_uidvalidity := uid_validity s.2 in
  local_uids ← account_all_uids (self_folder_name env);
  g_metadata ← account_g_metadata (self_folder_name env);
  uids ← crispin_new_and_updated_uids last_highestmodseq;
  remote_uids ← crispin_all_uids;
  (if bool_decide (uids ≠ []) then
     let '(new, updated) := _new_or_updated uids local_uids in
     let local_uids := local_uids ++ new in
     deleted ← _remove_deleted_messages local_uids remote_uids;
     let local_uids : gset Z := list_to_set local_uids ∖ deleted in
     new_metadata ← crispin_g_metadata new;
     let g_metadata := new_metadata ∪ g_metadata in
     gmail ← gmail_and_not_all_mail;
     if gmail : bool then
       flags ← crispin_flags (elements local_uids);
       _download_expanded_threads g_metadata (elements local_uids) flags
     else
       full_download ← _deduplicate_message_download g_metadata new;
       let num_total := Z.of_nat (length full_download) in
       for_fold (chunk full_download (CHUNK_SIZE env)) 0 (fun num_downloaded uids =>
         downloaded ← _download_new_messages uids;
         let num_downloaded := num_downloaded + Z.of_nat (length downloaded) in
         status_callback "initial" (self_folder_name env)
           (Percent num_downloaded num_total);;
         mret num_downloaded);;
       for_each (chunk updated (5 * CHUNK_SIZE env)) _update_metadata
   else
     _remove_deleted_messages local_uids remote_uids;; mret tt);;
  _update_validity new_uidvalidity new_highestmodseq.

(** [initial_sync].  The [@retry] wrapper repeats the call on connection
    errors; the remote mailbox of the model raises none, so the wrapper is
    the call itself.

    In the loop over the chunks, [num_local_messages] is an [int] and
    [_download_new_messages] returns a list, so
    [num_local_messages += self._download_new_messages(uids, c)] raises
    [TypeError] once the chunk has been downloaded and committed. *)
Definition initial_sync : M string :=
  local_uids ← account_all_uids (self_folder_name env);
  with_lease (
    select_folder (self_folder_name env);;
    cached_validity ← get_uidvalidity (self_folder_name env);
    remote_g_metadata ←
      match cached_validity with
      | Some cv => _retrieve_g_metadata_cache local_uids cv
      | None => mret None
      end;
    remote_g_metadata ←
      match remote_g_metadata with
      | Some md => mret md
      | None =>
          all_uids ← crispin_all_uids;
          md ← crispin_g_metadata all_uids;
          set_cache remote_g_metadata_key md;;
          s ← selected_info;
          _update_validity (uid_validity s.2) (highestmodseq s.2);;
          mret md
      end;
    let remote_uids := sorted (keys remote_g_metadata) in
    deleted ← _remove_deleted_messages local_uids remote_uids;
    let local_uids : gset Z := list_to_set local_uids ∖ deleted in
    let unknown_uids : gset Z := list_to_set remote_uids ∖ local_uids in
    gmail ← gmail_and_not_all_mail;
    if gmail : bool then
      flags ← crispin_flags remote_uids;
      _download_expanded_threads remote_g_metadata remote_uids flags
    else
      full_download ←
        _deduplicate_message_download remote_g_metadata (elements unknown_uids);
      if bool_decide (full_download ≠ []) then
        for_each (chunk (reverse full_download) (CHUNK_SIZE env)) (fun uids =>
          _ ← _download_new_messages uids;
          raise (TypeError "unsupported operand type(s) for +=: 'int' and 'list'"))
      else mret tt);;
  rm_cache remote_g_metadata_key;;
  if bool_decide (self_folder_name env ∉ poll_folders (remote env))
  then mret "finish" else mret "poll".

(** [poll], with the same remark on [@retry]. *)
Definition poll : M string :=
  cached_validity ← get_uidvalidity (self_folder_name env);
  with_lease (
    status ← crispin_folder_status (self_folder_name env);
    cv ← match cached_validity with
         | Some cv => mret cv
         | None => raise (AttributeError
                            "'NoneType' object has no attribute 'highestmodseq'")
         end;
    (if bool_decide (highestmodseq cv < highestmodseq status) then
       select_folder (self_folder_name env);;
       _highestmodseq_update (highestmodseq cv)
     else mret tt);;
    status_callback "poll" (self_folder_name env) (Timestamp (utcnow env));;
    emit (EvSleep (poll_frequency env)));;
  mret "poll".

(** [resync_uids]: [raise NotImplementedError] comes before
    [return previous_state]. *)
Definition resync_uids (previous_state : string) : M string :=
  raise NotImplementedError.

(** [self.state_handlers]. *)
Definition state_handlers (state : string) : option (M string) :=
  if bool_decide (state = "initial") then Some initial_sync
  else if bool_decide (state = "initial uidinvalid") then Some (resync_uids "initial")
  else if bool_decide (state = "poll") then Some poll
  else if bool_decide (state = "poll uidinvalid") then Some (resync_uids "poll")
  else if bool_decide (state = "finish") then Some (mret "finish")
  else None.

(** The [FolderSync] row of the worker; a new row starts in ['initial']. *)
Definition foldersync_state : M string :=
  row ← gets (fun w => foldersyncs (db w) !! (self_account_id, self_folder_name env));
  getitem row "foldersync".

Definition set_foldersync_state (state : string) : M unit :=
  modify (set_db (set_foldersyncs
    <[(self_account_id, self_folder_name env) := state]>)).

Definition load_foldersync : M unit :=
  row ← gets (fun w => foldersyncs (db w) !! (self_account_id, self_folder_name env));
  match row with
  | Some _ => mret tt
  | None => set_foldersync_state "initial";; commit
  end;;
  state ← foldersync_state;
  modify (set_self_state (Some state)).

(** [try: self.state = foldersync.state = handler()
     except UIDInvalid: self.state = foldersync.state = self.state + ' uidinvalid'] *)
Definition run_handler (handler : M string) : M unit := fun w =>
  let r := handler w in
  let assign (state : string) : M unit :=
    set_foldersync_state state;; modify (set_self_state (Some state)) in
  match result r with
  | inr state =>
      let r' := assign state (world r) in
      mkRes (result r') (world r') (events r ++ events r')
  | inl (UIDInvalid _ _ _) =>
      let r' := (state ← gets self_state;
                 match state with
                 | Some state => assign (state +:+ " uidinvalid")
                 | None => raise (TypeError "unsupported operand type(s) for +")
                 end) (world r) in
      mkRes (result r') (world r') (events r ++ events r')
  | inl e => mkRes (inl e) (world r) (events r)
  end.

(** One round of [while True] in [FolderSyncMonitor._run]; the result says
    whether the worker returns. *)
Definition run_iteration : M bool :=
  state ← foldersync_state;
  handler ← getitem (state_handlers state) state;
  run_handler handler;;
  commit;;
  state ← gets self_state;
  mret (bool_decide (state = Some "finish")).

(** [while True], for at most [rounds] rounds: [Some tt] when the worker
    has returned, [None] when it is still running. *)
Fixpoint run_loop (rounds : nat) : M (option unit) :=
  match rounds with
  | O => mret None
  | S n =>
      finished ← run_iteration;
      if finished : bool then mret (Some tt) else run_loop n
  end.

Definition _run (rounds : nat) : M (option unit) :=
  load_foldersync;; run_loop rounds.

End Handlers.

(** ** SyncService *)

(** What an RPC returns: a string or a dict of strings. *)
Inductive rpc_result : Type :=
  | Str (s : string)
  | Dict (d : gmap string string).

#[global] Instance rpc_result_eq_dec : EqDecision rpc_result.
Proof. solve_decision. Defined.

(** The service, the account table it queries and the locks of the
    accounts.  [delivered] keeps the commands put on the inboxes of the
    monitors, since a monitor leaves [monitors] with its inbox. *)
Record Service : Type := mkService {
  imapaccounts : list IMAPAccount;     (* rows of IMAPAccount, as committed *)
  monitors : gmap Z (list string);     (* account id -> inbox of its monitor *)
  sync_locks : list Z;                 (* accounts whose sync lock is held *)
  delivered : list (Z * string)
}.

#[global] Instance Service_eq_dec : EqDecision Service.
Proof. solve_decision. Defined.

(** [db_session.query(IMAPAccount)], filtered by [email_address] when one
    is given: references to the rows. *)
Definition selects (email : option string) (a : IMAPAccount) : bool :=
  match email with
  | Some e => bool_decide (email_address a = e)
  | None => true
  end.

Definition query_accounts (email : option string)
    (rows : list IMAPAccount) : list nat :=
  filter (fun i => from_option (selects email) false (rows !! i) = true)
         (seq 0 (length rows)).

Definition set_sync_host (h : option string) (a : IMAPAccount) : IMAPAccount :=
  mkIMAPAccount (account_id a) (email_address a) (provider a) h (sync_active a).

(** The [try] block of [stop_sync] for one account; [None] when the
    [assert] fails, which the bare [except] catches. *)
Definition shutdown_account (fqdn : string) (i : nat) (account : IMAPAccount)
    (sv : Service) : option Service :=
  if bool_decide (sync_host account = Some fqdn) then
    Some (mkService
            (<[i := set_sync_host None account]> (imapaccounts sv))
            (delete (account_id account) (monitors sv))
            (filter (fun a => a ≠ account_id account) (sync_locks sv))
            (delivered sv ++ [(account_id account, "shutdown")]))
  else None.

(** The loop [for account in query] of [stop_sync]; the first component is
    the value of a [return] inside the loop. *)
Fixpoint stop_sync_loop (fqdn : string) (refs : list nat) (sv : Service)
    (results : gmap string string)
    : option rpc_result * Service * gmap string string :=
  match refs with
  | [] => (None, sv, results)
  | i :: refs' =>
      match imapaccounts sv !! i with
      | None => stop_sync_loop fqdn refs' sv results
      | Some account =>
          if bool_decide (account_id account ∉ dom (monitors sv)) then
            (Some (Str "OK sync stopped already"), sv, results)
          else
            let results :=
              if negb (sync_active account)
              then <[email_address account := "OK sync stopped already"]> results
              else results in
            match shutdown_account fqdn i account sv with
            | Some sv' =>
                stop_sync_loop fqdn refs' sv'
                  (<[email_address account := "OK sync stopped"]> results)
            | None =>
                stop_sync_loop fqdn refs' sv
                  (<[email_address account := "ERROR error encountered"]> results)
            end
      end
  end.

(** [SyncService.stop_sync(email_address=None)]; [fqdn] is
    [socket.getfqdn()]. *)
Definition stop_sync (fqdn : string) (email : option string)
    (sv : Service) : rpc_result * Service :=
  let '(returned, sv', results) :=
    stop_sync_loop fqdn (query_accounts email (imapaccounts sv)) sv ∅ in
  match returned with
  | Some r => (r, sv')
  | None =>
      match email with
      | Some e =>
          if bool_decide (e ≠ "") then
            match results !! e with
            | Some r => (Str r, sv')
            | None => (Str "OK no such user", sv')
            end
          else (Dict results, sv')
      | None => (Dict results, sv')
      end
  end.

(** ['Account {0} is syncing on host {1}'.format(account.email_address,
    account.sync_host)]. *)
Definition syncing_elsewhere (email host : string) : string :=
  "Account " +:+ email +:+ " is syncing on host " +:+ host.

(** Modelled from the spec: [account.sync_lock()] is not part of the
    sources; "acquire the account-scoped sync_lock", "a host-affinity lock so
    that a given account syncs on exactly one host": the lock is taken when it
    is free, and the call raises when it is held. *)
Definition sync_lock (a : Z) (locks : list Z) : option (list Z) :=
  if bool_decide (a ∈ locks) then None else Some (a :: locks).

(** The loop [for account in query] of [start_sync].  A new monitor has an
    empty inbox.  The first component is the account whose [sync_lock]
    raised: [except Exception as e: raise] lets the exception end the
    call. *)
Fixpoint start_sync_loop (fqdn : string) (refs : list nat) (sv : Service)
    (results : gmap string string)
    : option Z * Service * gmap string string :=
  match refs with
  | [] => (None, sv, results)
  | i :: refs' =>
      match imapaccounts sv !! i with
      | None => start_sync_loop fqdn refs' sv results
      | Some account =>
          if bool_decide (is_Some (sync_host account)
                          ∧ sync_host account ≠ Some fqdn) then
            start_sync_loop fqdn refs' sv
              (<[email_address account :=
                   syncing_elsewhere (email_address account)
                     (default "" (sync_host account))]> results)
          else if bool_decide (account_id account ∉ dom (monitors sv)) then
            match sync_lock (account_id account) (sync_locks sv) with
            | Some locks =>
                start_sync_loop fqdn refs'
                  (mkService
                     (<[i := set_sync_host (Some fqdn) account]> (imapaccounts sv))
                     (<[account_id account := []]> (monitors sv))
                     locks (delivered sv))
                  (<[email_address account := "OK sync started"]> results)
            | None => (Some (account_id account), sv, results)
            end
          else
            start_sync_loop fqdn refs' sv
              (<[email_address account := "OK sync already started"]> results)
      end
  end.

(** What a call of [start_sync] does: it returns, or the exception of the
    [sync_lock] of an account passes through it. *)
Inductive start_result : Type :=
  | StartReturns (r : rpc_result)
  | StartRaises (account : Z).

#[global] Instance start_result_eq_dec : EqDecision start_result.
Proof. solve_decision. Defined.

(** [SyncService.start_sync(email_address=None)]. *)
Definition start_sync (fqdn : string) (email : option string)
    (sv : Service) : start_result * Service :=
  let '(raised, sv', results) :=
    start_sync_loop fqdn (query_accounts email (imapaccounts sv)) sv ∅ in
  match raised with
  | Some a => (StartRaises a, sv')
  | None =>
      match email with
      | Some e =>
          if bool_decide (e ≠ "") then
            match results !! e with
            | Some r => (StartReturns (Str r), sv')
            | None => (StartReturns (Str "OK no such user"), sv')
            end
          else (StartReturns (Dict results), sv')
      | None => (StartReturns (Dict results), sv')
      end
  end.

(** The loop of [SyncService.__init__]: [self.start_sync(email_address)]
    for every address that the query has given. *)
Fixpoint restart_syncs (fqdn : string) (emails : list string) (sv : Service)
    : option Z * Service :=
  match emails with
  | [] => (None, sv)
  | e :: emails' =>
      match start_sync fqdn (Some e) sv with
      | (StartReturns _, sv') => restart_syncs fqdn emails' sv'
      | (StartRaises a, sv') => (Some a, sv')
      end
  end.

(** [SyncService.__init__] on the table [rows]: no monitors, then the
    accounts with a [sync_host] are started again. *)
Definition SyncService_init (fqdn : string) (rows : list IMAPAccount)
    (locks : list Z) : option Z * Service :=
  restart_syncs fqdn
    (email_address <$> filter (fun a => is_Some (sync_host a)) rows)
    (mkService rows ∅ locks []).

(** [sync_status(account_id)]: [self.statuses.get(account_id)]. *)
Definition sync_status (account_id : Z)
    : M (option (gmap string (string * progress))) :=
  gets (fun w => statuses w !! account_id).

(** [status()]. *)
Definition status : M (gmap Z (gmap string (string * progress))) :=
  gets statuses.

End Sync.

(** * Concrete mailboxes, used to run the definitions *)

Module Scenarios.
Import Sync.

Definition part_of (key : Z) : Part := mkPart key (Some "payload").

Definition raw (m t modseq : Z) : RawMessage :=
  mkRawMessage (mkGMetadata m t) (mkFlags ["\Seen"] []) modseq [part_of m].

Definition all_mail : string := "[Gmail]/All Mail".

(** A Gmail mailbox: INBOX holds UIDs 1-4, All Mail the same four
    messages under UIDs 11-14.  UID 4 arrived at mod-sequence 110, the flags
    of UID 1 changed at 120. *)
Definition gmail_remote : Remote :=
  mkRemote
    {[ "INBOX" := mkRemoteFolder 7 120
         {[ 1 := raw 101 1001 120; 2 := raw 102 1001 50;
            3 := raw 103 1003 60; 4 := raw 104 1004 110 ]};
       all_mail := mkRemoteFolder 9 120
         {[ 11 := raw 101 1001 120; 12 := raw 102 1001 50;
            13 := raw 103 1003 60; 14 := raw 104 1004 110 ]} ]}
    {[ "All" := all_mail ]}
    ["INBOX"]
    ["INBOX"; all_mail].

Definition gmail_account : IMAPAccount :=
  mkIMAPAccount 1 "a@example.com" "Gmail" (Some "host1") true.

Definition gmail_inbox_env : Env :=
  mkEnv gmail_account "INBOX" gmail_remote 2 30 1000 [].

Definition local_message (n m t : Z) : Message :=
  mkMessage n 1 m t [part_of m].

Definition local_item (folder : string) (uid : Z) (msg : Message) : FolderItem :=
  mkFolderItem 1 folder uid msg (mkFlags [] []).

(** The tables after an initial sync of INBOX that was interrupted when the
    mailbox stood at mod-sequence 100 with UIDs 1-3: the three messages are
    stored, the checkpoint is (7, 100), the state is still ['initial']. *)
Definition interrupted_db : DB :=
  let m1 := local_message 1 101 1001 in
  let m2 := local_message 2 102 1001 in
  let m3 := local_message 3 103 1003 in
  mkDB
    [local_item all_mail 11 m1; local_item "INBOX" 1 m1;
     local_item all_mail 12 m2; local_item "INBOX" 2 m2;
     local_item all_mail 13 m3; local_item "INBOX" 3 m3]
    [m1; m2; m3]
    [mkThread 1 1001 [1; 2]; mkThread 1 1003 [3]]
    {[ (1, "INBOX") := mkUIDValidity 7 100 ]}
    {[ (1, "INBOX") := "initial" ]}.

(** The world of that worker when it is started again: the
    [remote_g_metadata] entry written by the interrupted run is still in
    the cache. *)
Definition interrupted_world : World :=
  mkWorld interrupted_db interrupted_db
    {[ "1/INBOX/remote_g_metadata" :=
         {[ 1 := mkGMetadata 101 1001; 2 := mkGMetadata 102 1001;
            3 := mkGMetadata 103 1003 ]} ]}
    [101; 102; 103] None [] ∅ [] 0 4 ∅ None.

Definition empty_db : DB := mkDB [] [] [] ∅ ∅.

Definition empty_world : World :=
  mkWorld empty_db empty_db ∅ [] None [] ∅ [] 0 1 ∅ None.

(** A plain IMAP mailbox with one folder of three messages. *)
Definition imap_remote : Remote :=
  mkRemote
    {[ "INBOX" := mkRemoteFolder 3 10
         {[ 1 := raw 0 0 1; 2 := raw 0 0 2; 3 := raw 0 0 3 ]} ]}
    ∅ ["INBOX"] ["INBOX"].

Definition imap_account : IMAPAccount :=
  mkIMAPAccount 2 "b@example.com" "IMAP" (Some "host1") true.

Definition imap_inbox_env : Env :=
  mkEnv imap_account "INBOX" imap_remote 2 30 1000 [].

(** The same mailbox met by a worker that has nothing yet. *)
Definition fresh_world : World :=
  mkWorld
    (mkDB [] [] [] ∅ {[ (1, "INBOX") := "initial" ]})
    (mkDB [] [] [] ∅ {[ (1, "INBOX") := "initial" ]})
    ∅ [] None [] ∅ [] 0 1 ∅ None.

(** A worker of INBOX that polls and is up to date with the mailbox. *)
Definition polling_db : DB :=
  mkDB (folderitems interrupted_db) (messages interrupted_db)
    (threads interrupted_db)
    {[ (1, "INBOX") := mkUIDValidity 7 120 ]}
    {[ (1, "INBOX") := "poll" ]}.

Definition polling_world : World :=
  mkWorld polling_db polling_db ∅ [101; 102; 103] None [] ∅ [] 0 4 ∅ None.

(** The same worker after the server has changed the UIDVALIDITY of INBOX
    from 6 to 7. *)
Definition uidinvalid_db : DB :=
  mkDB (folderitems interrupted_db) (messages interrupted_db)
    (threads interrupted_db)
    {[ (1, "INBOX") := mkUIDValidity 6 100 ]}
    {[ (1, "INBOX") := "poll" ]}.

Definition uidinvalid_world : World :=
  mkWorld uidinvalid_db uidinvalid_db ∅ [101; 102; 103] None [] ∅ [] 0 4 ∅ None.

(** A worker that is started again on a row that says ['poll uidinvalid']. *)
Definition resync_db : DB :=
  mkDB (folderitems interrupted_db) (messages interrupted_db)
    (threads interrupted_db)
    {[ (1, "INBOX") := mkUIDValidity 6 100 ]}
    {[ (1, "INBOX") := "poll uidinvalid" ]}.

Definition resync_world : World :=
  mkWorld resync_db resync_db ∅ [101; 102; 103] None [] ∅ [] 0 4 ∅ None.

(** Two batches of several messages: the first holds two messages of one
    thread with a message of another thread between them, the second a
    message of that other thread and one of a third thread. *)
Definition busy_inbox_world : World :=
  mkWorld empty_db empty_db ∅ [] None
    [([local_message 1 101 1001; local_message 2 102 1002;
       local_message 3 103 1001], 0%nat);
     ([local_message 4 104 1002; local_message 5 105 1003], 1%nat)]
    ∅ [] 2 6 ∅ None.

(** A chunk with a part whose save raises. *)
Definition failing_blob_env : Env :=
  mkEnv gmail_account "INBOX" gmail_remote 2 30 1000 [104].

(** The resumed worker once it has selected INBOX. *)
Definition selected_inbox_world : World :=
  mkWorld interrupted_db interrupted_db ∅ [101; 102; 103]
    (Some ("INBOX", mkUIDValidity 7 120)) [] ∅ [] 0 4 ∅ None.

Definition selected_all_mail_world : World :=
  mkWorld interrupted_db interrupted_db ∅ [101; 102; 103]
    (Some (all_mail, mkUIDValidity 9 120)) [] ∅ [] 0 4 ∅ None.

(** A service with an idle account and, after it in the table, an account
    that syncs on this host. *)
Definition idle_account : IMAPAccount :=
  mkIMAPAccount 1 "a@example.com" "Gmail" None false.

Definition running_account : IMAPAccount :=
  mkIMAPAccount 2 "b@example.com" "Gmail" (Some "host1") true.

Definition service : Service :=
  mkService [idle_account; running_account] {[ 2 := [] ]} [2] [].

(** The INBOX of [gmail_remote]. *)
Definition inbox_folder : RemoteFolder :=
  mkRemoteFolder 7 120
    {[ 1 := raw 101 1001 120; 2 := raw 102 1001 50;
       3 := raw 103 1003 60; 4 := raw 104 1004 110 ]}.

(** The worker of [uidinvalid_world] while it runs: [self.state] is set. *)
Definition running_uidinvalid_world : World :=
  mkWorld uidinvalid_db uidinvalid_db ∅ [101; 102; 103] None [] ∅ [] 0 4 ∅
    (Some "poll").

(** A plain IMAP mailbox whose folder is empty. *)
Definition empty_imap_env : Env :=
  mkEnv imap_account "INBOX"
    (mkRemote {[ "INBOX" := mkRemoteFolder 3 10 ∅ ]} ∅ ["INBOX"] ["INBOX"])
    2 30 1000 [].

(** The same service with a third account, which syncs on another host. *)
Definition remote_account : IMAPAccount :=
  mkIMAPAccount 3 "c@example.com" "Gmail" (Some "host2") true.

Definition three_accounts : list IMAPAccount :=
  [idle_account; running_account; remote_account].

Definition shared_service : Service :=
  mkService three_accounts {[ 2 := [] ]} [2] [].

(** A Gmail account with a revoked credential and a good one, and an OAuth
    endpoint that knows them by their refresh token. *)
Definition oauth_endpoint (refresh_token : option string)
    (client_id client_secret : string) : Gmail.refresh_result :=
  match refresh_token with
  | Some "good" => Gmail.Refreshed "ya29" 3600
  | Some "revoked" => Gmail.RefreshOAuthError "invalid_grant"
  | _ => Gmail.RefreshException "ConnectionError"
  end.

Definition mail_scope : string := "https://mail.google.com/".

Definition two_credentials : Gmail.GmailAccount :=
  Gmail.mkAccount 7
    [Gmail.mkCreds 1 "https://mail.google.com/" "app" "secret" true
       (Some "revoked");
     Gmail.mkCreds 2
       "https://mail.google.com/ https://www.google.com/m8/feeds"
       "app" "secret" true (Some "good")].

Definition empty_manager : Gmail.GTokenManager := Gmail.mkManager ∅ [].

(** A Gmail account whose only credential is revoked. *)
Definition revoked_account : Gmail.GmailAccount :=
  Gmail.mkAccount 8
    [Gmail.mkCreds 1 "https://mail.google.com/" "app" "secret" true
       (Some "revoked")].

Definition all_enabled : Gmail.SyncSettings := Gmail.mkSyncSettings true true 0.

(** An OAuth endpoint that also knows a refresh token for which it announces
    a life time of 10^15 seconds, more than a [timedelta] holds. *)
Definition far_expiry_endpoint (refresh_token : option string)
    (client_id client_secret : string) : Gmail.refresh_result :=
  match refresh_token with
  | Some "eternal" => Gmail.Refreshed "ya29" 1000000000000000
  | Some "good" => Gmail.Refreshed "ya30" 3600
  | Some "revoked" => Gmail.RefreshOAuthError "invalid_grant"
  | _ => Gmail.RefreshException "ConnectionError"
  end.

(** A Gmail account whose first credential has that refresh token. *)
Definition eternal_then_good : Gmail.GmailAccount :=
  Gmail.mkAccount 9
    [Gmail.mkCreds 1 "https://mail.google.com/" "app" "secret" true
       (Some "eternal");
     Gmail.mkCreds 2 "https://mail.google.com/" "app" "secret" true
       (Some "good")].

(** A Gmail account with five valid credentials: a revoked one, one with the
    long life time, a revoked one for the calendar only, a good one, and
    another revoked one. *)
Definition five_credentials : Gmail.GmailAccount :=
  Gmail.mkAccount 10
    [Gmail.mkCreds 5 "https://mail.google.com/" "app" "secret" true
       (Some "revoked");
     Gmail.mkCreds 6 "https://mail.google.com/" "app" "secret" true
       (Some "eternal");
     Gmail.mkCreds 7 "https://www.googleapis.com/auth/calendar" "app" "secret"
       true (Some "revoked");
     Gmail.mkCreds 8 "https://mail.google.com/" "app" "secret" true
       (Some "good");
     Gmail.mkCreds 9 "https://mail.google.com/" "app" "secret" true
       (Some "revoked")].

End Scenarios.

(** * Notions used to state the facts about sync.py *)

Module SyncProps.
Import Sync.

(** Every event of a run of [m] satisfies [Q]. *)
Definition emits (Q : Event -> Prop) {A} (m : M A) : Prop :=
  ∀ w, Forall Q (events (m w)).

(** The world after a run of [m] is related by [R] to the world before. *)
Definition preserves (R : relation World) {A} (m : M A) : Prop :=
  ∀ w, R w (world (m w)).

(** [m] leaves the component [f] of the world as it is. *)
Definition keeps {X} (f : World -> X) {A} (m : M A) : Prop :=
  preserves (fun w w' => f w' = f w) m.

(** [m] keeps the property [I] of the world. *)
Definition invariant (I : World -> Prop) {A} (m : M A) : Prop :=
  preserves (fun w w' => I w → I w') m.

(** [m] raises no exception. *)
Definition returns {A} (m : M A) : Prop :=
  ∀ w, ∃ x, result (m w) = inr x.

(** Events that neither take nor return a lease nor sleep. *)
Definition quiet (e : Event) : Prop :=
  match e with
  | EvLease | EvRelease | EvSleep _ => False
  | _ => True
  end.

Definition not_commit (e : Event) : Prop := e ≠ EvCommit.

(** Events of the thread detector. *)
Definition detection (e : Event) : Prop :=
  match e with
  | EvThreadsDetected _ | EvEventSet _ => True
  | _ => False
  end.

(** Whether some sleep of the trace happens while a lease is held;
    [held] counts the leases held so far. *)
Fixpoint sleeps_holding_lease (held : nat) (trace : list Event) : bool :=
  match trace with
  | [] => false
  | EvLease :: trace' => sleeps_holding_lease (S held) trace'
  | EvRelease :: trace' => sleeps_holding_lease (pred held) trace'
  | EvSleep _ :: trace' =>
      bool_decide (0 < held)%nat || sleeps_holding_lease held trace'
  | _ :: trace' => sleeps_holding_lease held trace'
  end.

(** The events of every run of [m] are quiet ones, followed by one sleep of
    [seconds] exactly when the run returns. *)
Definition sleeps_last (seconds : Z) {A} (m : M A) : Prop :=
  ∀ w, ∃ before,
    Forall quiet before
    ∧ events (m w) = match result (m w) with
                     | inr _ => before ++ [EvSleep seconds]
                     | inl _ => before
                     end.

(** The key under which a thread must be unique. *)
Definition thread_key (th : Thread) : Z * Z :=
  (thread_account th, thread_g_thrid th).

(** At most one [Thread] row for every account and provider thread id. *)
Definition unique_threads (w : World) : Prop :=
  NoDup (thread_key <$> threads (db w)).

(** The table after a message has been filed under its key: the first row
    of the account of the message with its provider thread id gets the
    message; when there is no such row, one is added at the end. *)
Definition filed (ths : list Thread) (msg : Message) : list Thread :=
  match list_find (same_thread (message_account msg) (g_thrid msg)) ths with
  | Some (i, _) => alter (attach msg) i ths
  | None =>
      ths ++ [mkThread (message_account msg) (g_thrid msg) [message_id msg]]
  end.

(** The world after the messages have gone through [detect_thread], one by
    one, in their order. *)
Definition detected (msgs : list Message) (w : World) : World :=
  foldl (fun w msg => world (detect_thread msg w)) w msgs.

(** The first row of the table with the key [(a, t)]. *)
Definition first_row (a t : Z) (ths : list Thread) : option nat :=
  fst <$> list_find (same_thread a t) ths.

(** The cache maps a thread id to the first row of the account with it. *)
Definition cache_first (a : Z) (w : World) : Prop :=
  ∀ t i, detector_cache w !! t = Some i →
    first_row a t (threads (db w)) = Some i.

(** The parts of the messages of a chunk that are saved to the blob store,
    in the order of the saves. *)
Definition saved_parts (items : list FolderItem) : list Part :=
  items ≫= fun item => filter has_data (parts (message item)).

Definition put_ok (part : Part) : Event := EvBlobPut (part_key part) true.

Definition is_fetch (e : Event) : Prop := ∃ folder uids, e = EvFetch folder uids.

Definition is_put (e : Event) : Prop := ∃ key ok, e = EvBlobPut key ok.

(** The save of the part raises. *)
Definition save_fails (env : Env) (part : Part) : Prop :=
  part_key part ∈ failing_blobs env.

#[global] Instance save_fails_dec env part : Decision (save_fails env part).
Proof. unfold save_fails. apply _. Defined.

(** The outcome of a save. *)
Definition saved (env : Env) (part : Part) : bool :=
  bool_decide (part_key part ∉ failing_blobs env).

(** Every event of a run of [m] that returns satisfies [Q]. *)
Definition emits_if_returns (Q : Event -> Prop) {A} (m : M A) : Prop :=
  ∀ w x, result (m w) = inr x → Forall Q (events (m w)).

Definition no_fetch (e : Event) : Prop := ¬ is_fetch e.

(** The states that [state_handlers] has a handler for. *)
Definition known_state (env : Env) (state : string) : Prop :=
  is_Some (state_handlers env state).

(** The row of the worker holds a state with a handler, and [self.state] is
    that state. *)
Definition state_in_table (env : Env) (w : World) : Prop :=
  ∃ state,
    foldersyncs (db w) !! (account_id (account env), self_folder_name env)
    = Some state
    ∧ self_state w = Some state
    ∧ known_state env state.

(** The account at position [i] of the table is the only one with the
    address. *)
Definition only_account (rows : list IMAPAccount) (email : string)
    (i : nat) (a : IMAPAccount) : Prop :=
  rows !! i = Some a
  ∧ email_address a = email
  ∧ ∀ j b, rows !! j = Some b → email_address b = email → j = i.

(** The account syncs on another host. *)
Definition owned_elsewhere (fqdn : string) (a : IMAPAccount) : Prop :=
  is_Some (sync_host a) ∧ sync_host a ≠ Some fqdn.

#[global] Instance owned_elsewhere_dec fqdn a : Decision (owned_elsewhere fqdn a).
Proof. unfold owned_elsewhere. apply _. Defined.

(** The account at position [j] of the table syncs on this host. *)
Definition owned_at (fqdn : string) (rows : list IMAPAccount) (j : nat) : Prop :=
  sync_host <$> rows !! j = Some (Some fqdn).

End SyncProps.

(** * Facts about gmail.py *)

Module GmailFacts.
Import Gmail.

Section WithAuthHandler.

Variable auth_handler_new_token :
  option string -> string -> string -> refresh_result.

#[local] Abbreviation new_token := (new_token auth_handler_new_token).
#[local] Abbreviation _get_token := (_get_token auth_handler_new_token).
#[local] Abbreviation get_token := (get_token auth_handler_new_token).

(** **** The token cache *)

Lemma cached_tokens_of_account toks a s :
  cached (tokens_of_account toks a).2 a s = cached toks a s
  ∧ (tokens_of_account toks a).1 !! s = cached toks a s.
Proof.
  unfold cached, tokens_of_account.
  destruct (toks !! a) as [d|] eqn:E; simpl.
  - by rewrite E.
  - by rewrite lookup_insert_eq.
Qed.

Lemma cache_token_step toks a g s s' :
  cached (let '(d, m') := tokens_of_account toks a in
          <[a := <[s := g]> d]> m') a s'
  = if decide (s = s') then Some g else cached toks a s'.
Proof.
  pose proof (cached_tokens_of_account toks a s') as [_ H2].
  destruct (tokens_of_account toks a) as [d m'] eqn:E; simpl in *.
  unfold cached. rewrite lookup_insert_eq. simpl.
  rewrite lookup_insert. destruct (decide (s = s')); [done|]. done.
Qed.

Lemma cache_token_cached g a : ∀ l toks s,
  cached (foldl (fun m scope =>
                   let '(d, m') := tokens_of_account m a in
                   <[a := <[scope := g]> d]> m') toks l) a s
  = if decide (s ∈ l) then Some g else cached toks a s.
Proof.
  induction l as [|x l IH]; intros toks s; simpl.
  - destruct (decide (s ∈ [])) as [H|H]; [by apply elem_of_nil in H|done].
  - rewrite IH. rewrite cache_token_step.
    destruct (decide (s ∈ l)) as [Hl|Hl].
    + rewrite decide_True; [done|by right].
    + destruct (decide (x = s)) as [->|Hx].
      * rewrite decide_True; [done|by left].
      * rewrite decide_False; [done|].
        intros [?|?]%elem_of_cons; congruence.
Qed.

Lemma cache_token_lookup toks a g s :
  s ∈ gscopes g → cached (cache_token toks a g) a s = Some g.
Proof.
  intros Hs. unfold cache_token. rewrite cache_token_cached.
  by rewrite decide_True.
Qed.

(** **** [new_token] *)

#[local] Abbreviation new_token_loop := (new_token_loop auth_handler_new_token).
#[local] Abbreviation new_token_scan := (new_token_scan auth_handler_new_token).
#[local] Abbreviation refresh := (refresh auth_handler_new_token).
#[local] Abbreviation mark_failed := (mark_failed auth_handler_new_token).
#[local] Abbreviation none_yields := (none_yields auth_handler_new_token).
#[local] Abbreviation yields := (yields auth_handler_new_token).
#[local] Abbreviation other_exception := (other_exception auth_handler_new_token).
#[local] Abbreviation non_oauth_errors := (non_oauth_errors auth_handler_new_token).

(** The loop over the references of the valid credentials visits the store
    from left to right; [pre] is the part already visited, [store] the store
    the references were taken from. *)
Lemma new_token_loop_scan scope now : ∀ cs pre (store : list GmailAuthCredentials) noe,
  (∀ k, (length pre ≤ k)%nat → store !! k = (pre ++ cs) !! k) →
  new_token_loop scope now
    (filter (fun i => from_option is_valid false (store !! i) = true)
            (seq (length pre) (length cs)))
    noe (pre ++ cs)
  = let '(r, cs') := new_token_scan scope now cs noe in (r, pre ++ cs').
Proof.
  induction cs as [|c cs IH]; intros pre store noe HS.
  - simpl. destruct noe; by rewrite app_nil_r.
  - assert (Hnext : ∀ c' noe',
      new_token_loop scope now
        (filter (fun i => from_option is_valid false (store !! i) = true)
                (seq (S (length pre)) (length cs)))
        noe' (pre ++ c' :: cs)
      = let '(r, cs') := new_token_scan scope now cs noe' in
        (r, pre ++ c' :: cs')).
    { intros c' noe'.
      specialize (IH (pre ++ [c']) store noe').
      rewrite length_app in IH. simpl in IH.
      replace (length pre + 1)%nat with (S (length pre)) in IH by lia.
      rewrite <- (assoc_L (++)) in IH. simpl in IH. rewrite IH.
      - destruct (new_token_scan scope now cs noe') as [r cs'].
        by rewrite <- (assoc_L (++)).
      - intros k Hk. rewrite (HS k) by lia.
        rewrite !lookup_app_r by lia.
        destruct (k - length pre)%nat as [|n] eqn:E; [lia|done]. }
    cbn [length seq]. rewrite filter_cons.
    rewrite (HS (length pre)) by lia. rewrite list_lookup_middle by done.
    cbn [from_option new_token_scan].
    destruct (is_valid c) eqn:Hv.
    + rewrite decide_True by done. cbn [Gmail.new_token_loop].
      rewrite list_lookup_middle by done. cbn [andb].
      destruct (bool_decide (scope ∈ scopes c)) eqn:Hs.
      * destruct (Gmail.refresh auth_handler_new_token c) as [tok exp|msg|name] eqn:Hr.
        -- destruct (expiration_of now (exp - 10)) as [e|t]; [|done].
           rewrite Hnext.
           by destruct (new_token_scan scope now cs (Some e)).
        -- replace (<[length pre:=set_invalid c]> (pre ++ c :: cs))
             with (pre ++ set_invalid c :: cs).
           ++ rewrite Hnext. by destruct (new_token_scan scope now cs noe).
           ++ replace (length pre) with (length pre + 0)%nat at 1 by lia.
              by rewrite insert_app_r.
        -- rewrite Hnext.
           by destruct (new_token_scan scope now cs (Some (Exception name))).
      * rewrite Hnext. by destruct (new_token_scan scope now cs noe).
    + rewrite decide_False by done. cbn [andb].
      rewrite Hnext. by destruct (new_token_scan scope now cs noe).
Qed.

(** [expiration_of] returns exactly the representable expirations. *)
Lemma expiration_of_inr now expires_in t :
  expiration_of now expires_in = inr t
  ↔ expiry_representable now expires_in ∧ t = now + expires_in.
Proof.
  unfold expiration_of, timedelta_seconds, datetime_add, expiry_representable,
    datetime_min, datetime_max.
  split.
  - case_bool_decide; simpl; [|done]. case_bool_decide; [|done].
    intros [= <-]. split; [lia|done].
  - intros [[Hd Ht] ->]. rewrite bool_decide_eq_true_2 by lia. simpl.
    by rewrite bool_decide_eq_true_2 by lia.
Qed.

Lemma expiration_of_inl now expires_in e :
  expiration_of now expires_in = inl e
  ↔ ¬ expiry_representable now expires_in ∧ e = Exception "OverflowError".
Proof.
  destruct (expiration_of now expires_in) as [e'|t] eqn:E.
  - split.
    + intros [= ->]. split.
      * intros Hrep.
        assert (expiration_of now expires_in = inr (now + expires_in)) as E'
          by by apply expiration_of_inr.
        congruence.
      * revert E. unfold expiration_of. by destruct (_ ≫= _); intros [= <-].
    + intros [_ ->]. f_equal.
      revert E. unfold expiration_of. by destruct (_ ≫= _); intros [= <-].
  - apply expiration_of_inr in E as [Hrep _]. split; [done|]. by intros [? _].
Qed.

Lemma new_token_scan_spec scope now : ∀ cs noe r cs',
  new_token_scan scope now cs noe = (r, cs') →
  match r with
  | inr g =>
      ∃ pre c post,
        cs = pre ++ c :: post
        ∧ is_valid c = true ∧ scope ∈ scopes c
        ∧ yields now c g
        ∧ none_yields scope now pre
        ∧ cs' = (mark_failed scope <$> pre) ++ c :: post
  | inl e =>
      none_yields scope now cs
      ∧ e = default (OAuthError "No valid tokens")
              (match last (non_oauth_errors scope now cs) with
               | Some e' => Some e'
               | None => noe
               end)
      ∧ cs' = mark_failed scope <$> cs
  end.
Proof.
  induction cs as [|c cs IH]; intros noe r cs' Hrun; simpl in Hrun.
  - simplify_eq. split; [constructor|done].
  - assert (Hgo : ∀ noe' oe c1 r0 cs0,
      new_token_scan scope now cs noe' = (r0, cs0) →
      (is_valid c = true → scope ∈ scopes c → ∀ g, ¬ yields now c g) →
      (if is_valid c && bool_decide (scope ∈ scopes c)
       then other_exception now c else None) = oe →
      noe' = match oe with Some e => Some e | None => noe end →
      mark_failed scope c = c1 →
      match r0 with
      | inr g =>
          ∃ pre c0 post,
            c :: cs = pre ++ c0 :: post
            ∧ is_valid c0 = true ∧ scope ∈ scopes c0
            ∧ yields now c0 g
            ∧ none_yields scope now pre
            ∧ c1 :: cs0 = (mark_failed scope <$> pre) ++ c0 :: post
      | inl e =>
          none_yields scope now (c :: cs)
          ∧ e = default (OAuthError "No valid tokens")
                  (match last (non_oauth_errors scope now (c :: cs)) with
                   | Some e' => Some e'
                   | None => noe
                   end)
          ∧ c1 :: cs0 = mark_failed scope <$> c :: cs
      end).
    { intros noe' oe c1 r0 cs0 Hrec Hnot Hoe Hnoe <-.
      specialize (IH _ _ _ Hrec). destruct r0 as [e|g].
      - destruct IH as (Hnone & He & ->). split; [|split].
        + by constructor.
        + rewrite He. unfold Gmail.non_oauth_errors.
          cbn [omap list_omap]. rewrite Hoe.
          fold (Gmail.non_oauth_errors auth_handler_new_token scope now cs).
          destruct oe as [e0|]; subst noe'.
          * destruct (non_oauth_errors scope now cs) as [|y l]; simpl; [done|].
            destruct (last (y :: l)) eqn:El; [done|].
            by apply last_None in El.
          * done.
        + done.
      - destruct IH as (pre & c0 & post & -> & ? & ? & ? & Hnone & ->).
        exists (c :: pre), c0, post. split_and!; try done.
        by constructor. }
    clear IH.
    destruct (is_valid c && bool_decide (scope ∈ scopes c)) eqn:Hcov;
      [destruct (Gmail.refresh auth_handler_new_token c)
         as [tok exp|msg|name] eqn:Hr|].
    + assert (Hcov' := Hcov).
      apply andb_true_iff in Hcov' as [Hv Hs].
      apply bool_decide_eq_true in Hs.
      destruct (expiration_of now (exp - 10)) as [e|t] eqn:Hexp.
      * destruct (Gmail.new_token_scan _ scope now cs (Some e)) as [r0 cs0] eqn:Hrec.
        apply expiration_of_inl in Hexp as [Hrep ->].
        injection Hrun as <- <-.
        apply (Hgo _ (Some (Exception "OverflowError")) _ _ _ Hrec).
        -- intros _ _ g (tok' & exp' & Hr' & Hrep' & _).
           rewrite Hr in Hr'. injection Hr' as <- <-. done.
        -- unfold Gmail.other_exception. rewrite Hr.
           by rewrite decide_False.
        -- done.
        -- unfold Gmail.mark_failed. by rewrite Hcov, Hr.
      * apply expiration_of_inr in Hexp as [Hrep ->].
        injection Hrun as <- <-. exists [], c, cs.
        split_and!; try done; [|constructor].
        by exists tok, exp.
    + destruct (Gmail.new_token_scan _ scope now cs noe) as [r0 cs0] eqn:Hrec.
      injection Hrun as <- <-.
      apply (Hgo _ None _ _ _ Hrec).
      * intros _ _ g (tok' & exp' & Hr' & _). congruence.
      * unfold Gmail.other_exception. by rewrite Hr.
      * done.
      * unfold Gmail.mark_failed. by rewrite Hcov, Hr.
    + destruct (Gmail.new_token_scan _ scope now cs (Some (Exception name)))
        as [r0 cs0] eqn:Hrec.
      injection Hrun as <- <-.
      apply (Hgo _ (Some (Exception name)) _ _ _ Hrec).
      * intros _ _ g (tok' & exp' & Hr' & _). congruence.
      * unfold Gmail.other_exception. by rewrite Hr.
      * done.
      * unfold Gmail.mark_failed. by rewrite Hcov, Hr.
    + destruct (Gmail.new_token_scan _ scope now cs noe) as [r0 cs0] eqn:Hrec.
      injection Hrun as <- <-.
      apply (Hgo _ None _ _ _ Hrec).
      * intros Hv Hs. rewrite Hv in Hcov.
        by rewrite bool_decide_eq_true_2 in Hcov.
      * done.
      * done.
      * unfold Gmail.mark_failed. by rewrite Hcov.
Qed.

(** What [mark_failed] leaves of a credential. *)
Lemma mark_failed_fields scope c :
  same_credential c (mark_failed scope c)
  ∧ (is_valid (mark_failed scope c) = true
     ↔ is_valid c = true
       ∧ ¬ (scope ∈ scopes c ∧ ∃ msg, refresh c = RefreshOAuthError msg)).
Proof.
  unfold Gmail.mark_failed, same_credential.
  destruct (is_valid c) eqn:Hv; cbn [andb].
  - case_bool_decide as Hs; cbn [andb].
    + destruct (Gmail.refresh auth_handler_new_token c) as [tok exp|msg|name];
        cbn [is_oauth_failure set_invalid id _scopes client_id client_secret
             refresh_token is_valid].
      * rewrite Hv. split; [done|]. split; [|done].
        intros _. split; [done|]. by intros [_ [? ?]].
      * split; [done|]. split; [done|]. intros [_ Hn]. exfalso. apply Hn. by eauto.
      * rewrite Hv. split; [done|]. split; [|done].
        intros _. split; [done|]. by intros [_ [? ?]].
    + rewrite Hv. split; [done|]. split; [|done].
      intros _. split; [done|]. by intros [? _].
  - rewrite Hv. split; [done|]. split; [done|]. by intros [? _].
Qed.

(** The store after the credentials of [pre] have been tried. *)
Lemma marked_lookup scope pre post j c :
  (pre ++ post) !! j = Some c →
  ∃ c', ((mark_failed scope <$> pre) ++ post) !! j = Some c'
        ∧ same_credential c c'
        ∧ (is_valid c' = true
           ↔ is_valid c = true
             ∧ ¬ ((j < length pre)%nat ∧ scope ∈ scopes c
                  ∧ ∃ msg, refresh c = RefreshOAuthError msg)).
Proof.
  intros Hj. destruct (decide (j < length pre)%nat) as [Hlt|Hge].
  - rewrite lookup_app_l in Hj by done.
    exists (mark_failed scope c).
    rewrite lookup_app_l by by rewrite length_fmap.
    rewrite list_lookup_fmap, Hj.
    destruct (mark_failed_fields scope c) as [Hsame Hvalid].
    split_and!; [done..|]. rewrite Hvalid. by intuition.
  - exists c. rewrite lookup_app_r in Hj by lia.
    rewrite lookup_app_r by (rewrite length_fmap; lia).
    rewrite length_fmap. split_and!; [done|by repeat split|].
    by intuition.
Qed.

(** C9 (amended). [new_token(scope)] goes through the credentials of the
    account in the order of the store and ends at the first one, at position
    [k], that is valid, covers [scope] and yields a token: its refresh
    succeeds and the expiration of the token is a datetime.  The token carries
    the value, the scopes and the id of that credential.  When no valid
    covering credential yields a token the call raises, [k] being the end of
    the store: the last exception other than [OAuthError] if there was one,
    the [OverflowError] of an expiration that is no datetime included, and
    [OAuthError] otherwise.  Afterwards the account holds the same
    credentials, and a credential is valid exactly when it was valid and is
    not one of the covering credentials before [k] whose refresh failed with
    an [OAuthError]. *)
Theorem new_token_correct acct scope now r acct' :
  new_token acct scope now = (r, acct') →
  let cs := auth_credentials acct in
  let cs' := auth_credentials acct' in
  account_id acct' = account_id acct
  ∧ ∃ k : nat,
      (∀ j c g, (j < k)%nat → covering scope cs j c → ¬ yields now c g)
      ∧ length cs' = length cs
      ∧ (∀ j c, cs !! j = Some c →
           ∃ c', cs' !! j = Some c'
                 ∧ same_credential c c'
                 ∧ (is_valid c' = true
                    ↔ is_valid c = true
                      ∧ ¬ ((j < k)%nat ∧ scope ∈ scopes c
                           ∧ ∃ msg, refresh c = RefreshOAuthError msg)))
      ∧ match r with
        | inr g => ∃ c, covering scope cs k c ∧ yields now c g
        | inl e =>
            k = length cs
            ∧ e = default (OAuthError "No valid tokens")
                    (last (non_oauth_errors scope now cs))
        end.
Proof.
  intros Hrun cs cs'. subst cs cs'.
  unfold Gmail.new_token, valid_auth_credentials in Hrun.
  pose proof (new_token_loop_scan scope now (auth_credentials acct) []
                (auth_credentials acct) None (fun _ _ => eq_refl)) as Heq.
  simpl in Heq. rewrite Heq in Hrun. clear Heq.
  destruct (new_token_scan scope now (auth_credentials acct) None)
    as [r0 cs0] eqn:Hscan.
  simplify_eq. split; [done|]. cbn [auth_credentials].
  pose proof (new_token_scan_spec _ _ _ _ _ _ Hscan) as Hspec.
  destruct r as [e|g].
  - destruct Hspec as (Hnone & He & ->).
    exists (length (auth_credentials acct)). split_and!.
    + intros j c g _ (Hj & Hv & Hs).
      unfold Gmail.none_yields in Hnone. rewrite Forall_forall in Hnone.
      apply (Hnone c); [by eapply list_elem_of_lookup_2|done..].
    + by rewrite length_fmap.
    + intros j c Hj.
      destruct (marked_lookup scope (auth_credentials acct) [] j c)
        as (c' & Hc' & ?); [by rewrite app_nil_r|].
      rewrite app_nil_r in Hc'. by exists c'.
    + done.
    + rewrite He. by destruct (last _).
  - destruct Hspec as (pre & c & post & Hcs & Hv & Hs & Hy & Hnone & ->).
    exists (length pre). rewrite Hcs. split_and!.
    + intros j c0 g0 Hlt (Hj & Hv0 & Hs0).
      rewrite lookup_app_l in Hj by done.
      unfold Gmail.none_yields in Hnone. rewrite Forall_forall in Hnone.
      apply (Hnone c0); [by eapply list_elem_of_lookup_2|done..].
    + by rewrite !length_app, length_fmap.
    + intros j c0 Hj. by apply marked_lookup.
    + exists c. split; [|done]. split; [|done].
      by rewrite list_lookup_middle.
Qed.

(** C10. [get_token] answers from the cache exactly when [force_refresh]
    is false and the clock is strictly before the expiration of the token
    cached for [(account, scope)]: then [new_token] is not called and the
    account is untouched.  In every other case it calls [account.new_token]
    once; when that returns a token, the token is found afterwards under
    each of the scopes it carries and its value is the result. *)
Theorem get_token_cache_policy mgr acct scope force now now' r mgr' acct' :
  get_token mgr acct scope force now now' = (r, mgr', acct') →
  let hit g := force = false
               ∧ cached (_tokens mgr) (account_id acct) scope = Some g
               ∧ now < expiration g in
  (∃ g, hit g ∧ r = inr (value g) ∧ calls mgr' = calls mgr ∧ acct' = acct)
  ∨ ((∀ g, ¬ hit g)
     ∧ calls mgr' = calls mgr ++ [CallNewToken (account_id acct) scope]
     ∧ acct' = (new_token acct scope now').2
     ∧ match (new_token acct scope now').1 with
       | inr g' =>
           r = inr (value g')
           ∧ ∀ s, s ∈ gscopes g' →
                  cached (_tokens mgr') (account_id acct) s = Some g'
       | inl e => r = inl e
       end).
Proof.
  intros Hrun hit.
  unfold Gmail.get_token, Gmail._get_token in Hrun.
  pose proof (cached_tokens_of_account (_tokens mgr) (account_id acct) scope)
    as [_ Hd].
  destruct (new_token acct scope now') as [rn an] eqn:Hn.
  destruct (tokens_of_account (_tokens mgr) (account_id acct)) as [d toks].
  simpl in Hd.
  assert (Hrefresh : ∀ toks0,
    (match rn with
     | inr g => inr (value g)
     | inl e => inl e
     end,
     match rn with
     | inr gtoken =>
         mkManager (cache_token toks0 (account_id acct) gtoken)
           (calls mgr ++ [CallNewToken (account_id acct) scope])
     | inl _ => mkManager toks0 (calls mgr ++ [CallNewToken (account_id acct) scope])
     end, an) = (r, mgr', acct') →
    calls mgr' = calls mgr ++ [CallNewToken (account_id acct) scope]
    ∧ acct' = an
    ∧ match rn with
      | inr g' =>
          r = inr (value g')
          ∧ ∀ s, s ∈ gscopes g' →
                 cached (_tokens mgr') (account_id acct) s = Some g'
      | inl e => r = inl e
      end).
  { intros toks0 Heq. destruct rn as [e|g']; simplify_eq; simpl.
    - done.
    - repeat split; try done. intros s Hs. by apply cache_token_lookup. }
  destruct force.
  - right. split.
    { intros g (Hf & _). done. }
    apply (Hrefresh (_tokens mgr)).
    destruct rn; simplify_eq; done.
  - destruct (d !! scope) as [g|] eqn:Hg.
    + destruct (bool_decide (now < expiration g)) eqn:Hexp.
      * apply bool_decide_eq_true in Hexp. left. exists g.
        simplify_eq. unfold hit. rewrite <- Hd. done.
      * apply bool_decide_eq_false in Hexp. right. split.
        { intros g0 (_ & Hc & Hlt). rewrite <- Hd in Hc. simplify_eq. done. }
        apply (Hrefresh toks). destruct rn; simplify_eq; done.
    + right. split.
      { intros g0 (_ & Hc & _). rewrite <- Hd in Hc. simplify_eq. }
      apply (Hrefresh toks). destruct rn; simplify_eq; done.
Qed.

End WithAuthHandler.

(** The account of [Scenarios.five_credentials] asks for a mail token: the
    first credential is revoked and loses [is_valid], the second announces a
    life time that is no [timedelta] and is passed over, the third does not
    cover the scope, the fourth gives the token, the fifth is not tried. *)
Lemma new_token_correct_witness :
  let acct := Scenarios.five_credentials in
  let g := mkGToken "ya30" 4590 ["https://mail.google.com/"] 8 in
  let out := Gmail.new_token Scenarios.far_expiry_endpoint acct
               Scenarios.mail_scope 1000 in
  out.1 = inr g
  ∧ (is_valid <$> auth_credentials out.2) = [false; true; true; true; true]
  ∧ ∃ k c,
      covering Scenarios.mail_scope (auth_credentials acct) k c
      ∧ yields Scenarios.far_expiry_endpoint 1000 c g
      ∧ ∀ j c0 g0, (j < k)%nat →
          covering Scenarios.mail_scope (auth_credentials acct) j c0 →
          ¬ yields Scenarios.far_expiry_endpoint 1000 c0 g0.
Proof.
  intros acct g out.
  split; [reflexivity|]. split; [reflexivity|].
  destruct (new_token_correct Scenarios.far_expiry_endpoint acct
              Scenarios.mail_scope 1000 (inr g) out.2 eq_refl)
    as (_ & k & Hnone & _ & _ & c & Hc & Hy).
  exists k, c. split; [exact Hc|]. split; [exact Hy|exact Hnone].
Defined.

(** C9 (as stated, refuted). The first credential of
    [Scenarios.eternal_then_good] is valid, covers the mail scope and its
    refresh succeeds, with the token [ya29]; [new_token] returns the token
    [ya30] of the second credential, and marks none. *)
Lemma new_token_passes_over_refreshed_credential :
  let acct := Scenarios.eternal_then_good in
  let out := Gmail.new_token Scenarios.far_expiry_endpoint acct
               Scenarios.mail_scope 1000 in
  (∃ c, auth_credentials acct !! 0%nat = Some c
        ∧ id c = 1 ∧ is_valid c = true ∧ Scenarios.mail_scope ∈ scopes c
        ∧ Gmail.refresh Scenarios.far_expiry_endpoint c
          = Refreshed "ya29" 1000000000000000)
  ∧ out.1 = inr (mkGToken "ya30" 4590 ["https://mail.google.com/"] 2)
  ∧ (is_valid <$> auth_credentials out.2) = [true; true].
Proof.
  intros acct out. split; [|split; reflexivity].
  eexists. split; [reflexivity|]. split; [reflexivity|].
  split; [reflexivity|]. split; [|reflexivity].
  vm_compute. by left.
Qed.

(** The first [get_token] of a manager with an empty cache refreshes. *)
Lemma get_token_cache_policy_witness :
  let out := Gmail.get_token Scenarios.oauth_endpoint Scenarios.empty_manager
               Scenarios.two_credentials Scenarios.mail_scope false 1000 1001 in
  out.1.1 = inr "ya29"
  ∧ ((∃ g, (false = false
            ∧ cached (_tokens Scenarios.empty_manager)
                (account_id Scenarios.two_credentials) Scenarios.mail_scope = Some g
            ∧ 1000 < expiration g)
           ∧ out.1.1 = inr (value g)
           ∧ calls out.1.2 = calls Scenarios.empty_manager
           ∧ out.2 = Scenarios.two_credentials)
     ∨ calls out.1.2
       = [CallNewToken (account_id Scenarios.two_credentials) Scenarios.mail_scope]).
Proof.
  split; [reflexivity|].
  destruct (get_token_cache_policy Scenarios.oauth_endpoint
              Scenarios.empty_manager Scenarios.two_credentials
              Scenarios.mail_scope false 1000 1001 _ _ _ eq_refl)
    as [Hhit|(_ & Hcalls & _)].
  - left. exact Hhit.
  - right. exact Hcalls.
Defined.

(** ** The scopes of a credential *)

Lemma split_on_nonempty sep s : split_on sep s ≠ [].
Proof.
  destruct s as [|c s]; simpl; [done|].
  destruct (Ascii.eqb c sep); [done|]. by destruct (split_on sep s).
Qed.

Lemma concat_cons_cons sep x y l :
  String.concat sep (x :: y :: l) = x +:+ sep +:+ String.concat sep (y :: l).
Proof. reflexivity. Qed.

Lemma concat_split_on sep s :
  String.concat (String sep "") (split_on sep s) = s.
Proof.
  induction s as [|c s IH]; [done|]. cbn [split_on].
  pose proof (split_on_nonempty sep s) as Hne.
  destruct (split_on sep s) as [|w ws]; [done|].
  destruct (Ascii.eqb c sep) eqn:Hc.
  - apply Ascii.eqb_eq in Hc as ->. rewrite concat_cons_cons, IH. done.
  - destruct ws as [|w' ws].
    + simpl in *. by rewrite IH.
    + rewrite concat_cons_cons. rewrite concat_cons_cons in IH.
      rewrite <- IH at 1. reflexivity.
Qed.

Lemma split_on_no_sep sep s :
  sep ∉ list_ascii_of_string s → split_on sep s = [s].
Proof.
  induction s as [|c s IH]; [done|]. simpl. intros Hn.
  apply not_elem_of_cons in Hn as [Hc Hn].
  destruct (Ascii.eqb c sep) eqn:E; [apply Ascii.eqb_eq in E; congruence|].
  by rewrite IH.
Qed.

Lemma split_on_append sep s rest :
  sep ∉ list_ascii_of_string s →
  split_on sep (s +:+ String sep rest) = s :: split_on sep rest.
Proof.
  induction s as [|c s IH]; simpl; intros Hn.
  - by rewrite Ascii.eqb_refl.
  - apply not_elem_of_cons in Hn as [Hc Hn].
    destruct (Ascii.eqb c sep) eqn:E; [apply Ascii.eqb_eq in E; congruence|].
    by rewrite IH.
Qed.

Lemma split_on_concat sep l :
  l ≠ [] → Forall (fun s => sep ∉ list_ascii_of_string s) l →
  split_on sep (String.concat (String sep "") l) = l.
Proof.
  induction l as [|x l IH]; [done|]. intros _ [Hx Hl]%Forall_cons.
  destruct l as [|y l].
  - simpl. by apply split_on_no_sep.
  - rewrite concat_cons_cons.
    change (String sep "" +:+ String.concat (String sep "") (y :: l))
      with (String sep (String.concat (String sep "") (y :: l))).
    rewrite split_on_append by done. f_equal. by apply IH.
Qed.

Lemma split_on_fields sep s :
  Forall (fun f => sep ∉ list_ascii_of_string f) (split_on sep s).
Proof.
  induction s as [|c s IH]; simpl.
  - constructor; [|constructor]. apply not_elem_of_nil.
  - destruct (Ascii.eqb c sep) eqn:E.
    + constructor; [apply not_elem_of_nil|done].
    + pose proof (split_on_nonempty sep s).
      destruct (split_on sep s) as [|w ws]; [done|].
      apply Forall_cons in IH as [Hw Hws]. constructor; [|done].
      simpl. apply not_elem_of_cons. split; [|done].
      intros ->. by rewrite Ascii.eqb_refl in E.
Qed.

(** X1. A list of scope urls assigned to [scopes] is read back as it was
    assigned, when it is not empty and no url holds a space. *)
Theorem scopes_setter_getter urls c :
  urls ≠ [] → Forall no_space urls →
  scopes (scopes_setter (inr urls) c) = urls.
Proof. intros Hne Hns. unfold scopes, scopes_setter. simpl. by apply split_on_concat. Qed.

(** X2. What [scopes] reads is never empty, none of its entries holds a
    space, and assigning it back leaves the row as it is; a string that is
    assigned is read back split at every space, and the empty list is read
    back as the list of the empty string. *)
Theorem scopes_getter_setter c :
  scopes c ≠ []
  ∧ Forall no_space (scopes c)
  ∧ scopes_setter (inr (scopes c)) c = c
  ∧ (∀ s, scopes (scopes_setter (inl s) c) = split_on " " s)
  ∧ scopes (scopes_setter (inr []) c) = [""].
Proof.
  split_and!.
  - apply split_on_nonempty.
  - apply split_on_fields.
  - unfold scopes, scopes_setter. rewrite concat_split_on. by destruct c.
  - done.
  - done.
Qed.

(** ** The token cache across calls *)

Section Tokens.

Variable auth_handler_new_token :
  option string -> string -> string -> refresh_result.

#[local] Abbreviation new_token := (new_token auth_handler_new_token).
#[local] Abbreviation _get_token := (_get_token auth_handler_new_token).
#[local] Abbreviation get_token := (get_token auth_handler_new_token).
#[local] Abbreviation new_token_scan := (new_token_scan auth_handler_new_token).
#[local] Abbreviation refresh := (refresh auth_handler_new_token).
#[local] Abbreviation verify_loop := (verify_loop auth_handler_new_token).
#[local] Abbreviation verify_all_credentials :=
  (verify_all_credentials auth_handler_new_token).
#[local] Abbreviation mark_unverified := (mark_unverified auth_handler_new_token).
#[local] Abbreviation verifies := (verifies auth_handler_new_token).
#[local] Abbreviation refresh_raises := (refresh_raises auth_handler_new_token).

(** A token that [new_token] returns carries the scope asked for, and the
    account keeps its id. *)
Lemma new_token_returns acct scope now g acct' :
  new_token acct scope now = (inr g, acct') →
  scope ∈ gscopes g ∧ account_id acct' = account_id acct.
Proof.
  unfold Gmail.new_token, valid_auth_credentials. intros Hrun.
  pose proof (new_token_loop_scan auth_handler_new_token scope now
                (auth_credentials acct) []
                (auth_credentials acct) None (fun _ _ => eq_refl)) as Heq.
  simpl in Heq. rewrite Heq in Hrun. clear Heq.
  destruct (new_token_scan scope now (auth_credentials acct) None)
    as [r0 cs0] eqn:Hscan.
  simplify_eq. split; [|done].
  apply new_token_scan_spec in Hscan
    as (pre & c & post & _ & _ & Hs & (tok & exp & _ & _ & ->) & _).
  done.
Qed.

Lemma new_token_account_id acct scope now :
  account_id (new_token acct scope now).2 = account_id acct.
Proof.
  unfold Gmail.new_token. by destruct (new_token_loop _ _ _ _ _ _).
Qed.

Lemma cached_Some toks a s g :
  cached toks a s = Some g ↔ ∃ d, toks !! a = Some d ∧ d !! s = Some g.
Proof.
  unfold cached. destruct (toks !! a) as [d|]; simpl.
  - split; [by exists d|]. by intros (d' & [= <-] & ?).
  - split; [done|]. by intros (d' & ? & ?).
Qed.

Lemma tokens_of_account_cached toks a s g :
  cached toks a s = Some g →
  ∃ d, tokens_of_account toks a = (d, toks) ∧ d !! s = Some g.
Proof.
  intros (d & Ha & Hs)%cached_Some. exists d.
  unfold tokens_of_account. by rewrite Ha.
Qed.

Lemma cached_tokens_of_account_other toks a a' s :
  cached (tokens_of_account toks a).2 a' s = cached toks a' s.
Proof.
  destruct (decide (a' = a)) as [->|Hne].
  - apply cached_tokens_of_account.
  - unfold tokens_of_account, cached.
    destruct (toks !! a); simpl; [done|]. by rewrite lookup_insert_ne.
Qed.

Lemma cache_token_other toks a g a' s :
  a' ≠ a → cached (cache_token toks a g) a' s = cached toks a' s.
Proof.
  intros Hne. unfold cache_token. revert toks.
  induction (gscopes g) as [|x l IH]; intros toks; simpl; [done|].
  rewrite IH. destruct (tokens_of_account toks a) as [d m'] eqn:E.
  unfold cached at 1. rewrite lookup_insert_ne by done.
  pose proof (cached_tokens_of_account_other toks a a' s) as H.
  rewrite E in H. done.
Qed.

Lemma cache_token_consistent toks a g :
  cache_consistent toks → cache_consistent (cache_token toks a g).
Proof.
  intros Hc a' s g'. destruct (decide (a' = a)) as [->|Hne].
  - unfold cache_token. rewrite cache_token_cached.
    destruct (decide (s ∈ gscopes g)); [by intros [= <-]|apply Hc].
  - rewrite cache_token_other by done. apply Hc.
Qed.

Lemma tokens_of_account_consistent toks a :
  cache_consistent toks → cache_consistent (tokens_of_account toks a).2.
Proof.
  intros Hc a' s g. rewrite cached_tokens_of_account_other. apply Hc.
Qed.

(** X3. The cache of the manager holds every token under scopes that the
    token carries: this holds of the empty cache, [clear_cache] keeps it and
    [_get_token] keeps it, and then a token that [_get_token] returns carries
    the scope that was asked for. *)
Theorem get_token_carries_scope mgr acct scope force now now' :
  let out := _get_token mgr acct scope force now now' in
  cache_consistent ∅
  ∧ (∀ toks a, cache_consistent toks → cache_consistent (clear_cache toks a))
  ∧ (cache_consistent (_tokens mgr) →
       cache_consistent (_tokens out.1.2)
       ∧ ∀ g, out.1.1 = inr g → scope ∈ gscopes g).
Proof.
  intros out. split_and!.
  - intros a s g. unfold cached. by rewrite lookup_empty.
  - intros toks a Hc a' s g. unfold clear_cache, cached.
    destruct (decide (a' = a)) as [->|Hne].
    + rewrite lookup_insert_eq. simpl. by rewrite lookup_empty.
    + rewrite lookup_insert_ne by done. apply Hc.
  - intros Hc. subst out. unfold Gmail._get_token.
    destruct (new_token acct scope now') as [rn an] eqn:Hn.
    assert (Hrefresh : ∀ toks0, cache_consistent toks0 →
      let out := match rn with
                 | inr gtoken =>
                     (inr gtoken,
                      mkManager (cache_token toks0 (account_id acct) gtoken)
                        (calls mgr ++ [CallNewToken (account_id acct) scope]), an)
                 | inl e =>
                     (inl e, mkManager toks0
                        (calls mgr ++ [CallNewToken (account_id acct) scope]), an)
                 end in
      cache_consistent (_tokens out.1.2)
      ∧ ∀ g, out.1.1 = inr g → scope ∈ gscopes g).
    { intros toks0 Hc0. destruct rn as [e|g0]; simpl.
      - split; [done|]. by intros g.
      - split; [by apply cache_token_consistent|].
        intros g [= <-]. by apply new_token_returns in Hn as [? _]. }
    destruct force; [by apply Hrefresh|].
    pose proof (tokens_of_account_consistent _ (account_id acct) Hc) as Hc1.
    pose proof (cached_tokens_of_account (_tokens mgr) (account_id acct) scope)
      as [_ Hd].
    destruct (tokens_of_account (_tokens mgr) (account_id acct)) as [d toks].
    simpl in Hc1, Hd.
    destruct (d !! scope) as [g|] eqn:Hg; [|by apply Hrefresh].
    destruct (bool_decide (now < expiration g)); [|by apply Hrefresh].
    simpl. split; [done|]. intros g0 [= <-]. by apply (Hc (account_id acct)).
Qed.

(** X4. A token that [_get_token] has got from [new_token] answers the
    next [get_token] for every scope it carries, as long as the clock is before
    its expiration: the value is the same, [new_token] is not called and
    neither the manager nor the account changes. *)
Theorem token_reused_for_its_scopes
    mgr acct scope force now now' g mgr1 acct1 scope' now2 now3 :
  _get_token mgr acct scope force now now' = (inr g, mgr1, acct1) →
  calls mgr1 ≠ calls mgr →
  scope' ∈ gscopes g →
  now2 < expiration g →
  get_token mgr1 acct1 scope' false now2 now3 = (inr (value g), mgr1, acct1).
Proof.
  intros Hrun Hcalls Hs Hexp.
  assert (Hc : cached (_tokens mgr1) (account_id acct1) scope' = Some g).
  { unfold Gmail._get_token in Hrun.
    pose proof (new_token_account_id acct scope now') as Hid.
    destruct (new_token acct scope now') as [rn an] eqn:Hn. simpl in Hid.
    assert (Hrefresh : ∀ toks0,
      match rn with
      | inr gtoken =>
          (inr gtoken,
           mkManager (cache_token toks0 (account_id acct) gtoken)
             (calls mgr ++ [CallNewToken (account_id acct) scope]), an)
      | inl e =>
          (inl e, mkManager toks0
             (calls mgr ++ [CallNewToken (account_id acct) scope]), an)
      end = (inr g, mgr1, acct1) →
      cached (_tokens mgr1) (account_id acct1) scope' = Some g).
    { intros toks0 Heq. destruct rn as [e|g0]; simplify_eq. simpl.
      rewrite Hid. by apply cache_token_lookup. }
    destruct force; [by apply (Hrefresh (_tokens mgr))|].
    destruct (tokens_of_account (_tokens mgr) (account_id acct)) as [d toks].
    destruct (d !! scope) as [g0|]; [|by apply (Hrefresh toks)].
    destruct (bool_decide (now < expiration g0)); [|by apply (Hrefresh toks)].
    by simplify_eq. }
  unfold Gmail.get_token, Gmail._get_token.
  apply tokens_of_account_cached in Hc as (d & -> & ->).
  rewrite bool_decide_eq_true_2 by done. by destruct mgr1.
Qed.

(** ** Verification of the credentials *)

Lemma clear_cache_twice toks a :
  clear_cache (clear_cache toks a) a = clear_cache toks a.
Proof. unfold clear_cache. apply insert_insert_eq. Qed.

(** The first loop of [verify_all_credentials] visits the store from left
    to right: [pre] is the part already visited, [cs] the part to visit. *)
Lemma verify_loop_scan a : ∀ cs pre (store : list GmailAuthCredentials) toks,
  (∀ k, (length pre ≤ k)%nat → store !! k = (pre ++ cs) !! k) →
  let out := verify_loop a
               (filter (fun i => from_option is_valid false (store !! i) = true)
                       (seq (length pre) (length cs)))
               toks (pre ++ cs) in
  match out.1.1 with
  | None =>
      out.2 = pre ++ (mark_unverified <$> cs)
      ∧ (∀ c name, c ∈ cs → ¬ refresh_raises c name)
      ∧ out.1.2 = (if bool_decide (Exists (fun c => is_valid c = true
                                     ∧ is_oauth_failure (refresh c) = false) cs)
                   then clear_cache toks a else toks)
  | Some e =>
      ∃ done c rest name,
        cs = done ++ c :: rest
        ∧ refresh_raises c name ∧ e = Exception name
        ∧ (∀ c' name', c' ∈ done → ¬ refresh_raises c' name')
        ∧ out.2 = pre ++ (mark_unverified <$> done) ++ c :: rest
  end
  ∧ (out.1.2 = toks ∨ out.1.2 = clear_cache toks a).
Proof.
  induction cs as [|c cs IH]; intros pre store toks HS.
  - simpl. split; [|by left]. split_and!; [done| |done].
    intros c name Hc. by apply elem_of_nil in Hc.
  - assert (Hnext : ∀ c' toks',
      (toks' = toks ∨ toks' = clear_cache toks a) →
      let out := verify_loop a
                   (filter (fun i => from_option is_valid false (store !! i) = true)
                           (seq (S (length pre)) (length cs)))
                   toks' (pre ++ c' :: cs) in
      match out.1.1 with
      | None =>
          out.2 = pre ++ c' :: (mark_unverified <$> cs)
          ∧ (∀ c name, c ∈ cs → ¬ refresh_raises c name)
          ∧ out.1.2 = (if bool_decide (Exists (fun c => is_valid c = true
                                     ∧ is_oauth_failure (refresh c) = false) cs)
                       then clear_cache toks a else toks')
      | Some e =>
          ∃ done c0 rest name,
            cs = done ++ c0 :: rest
            ∧ refresh_raises c0 name ∧ e = Exception name
            ∧ (∀ c1 name', c1 ∈ done → ¬ refresh_raises c1 name')
            ∧ out.2 = pre ++ c' :: (mark_unverified <$> done) ++ c0 :: rest
      end
      ∧ (out.1.2 = toks ∨ out.1.2 = clear_cache toks a)).
    { intros c' toks' Htoks.
      specialize (IH (pre ++ [c']) store toks').
      rewrite length_app in IH. simpl in IH.
      replace (length pre + 1)%nat with (S (length pre)) in IH by lia.
      rewrite <- (assoc_L (++)) in IH. simpl in IH.
      destruct IH as [IH1 IH2].
      { intros k Hk. rewrite (HS k) by lia.
        rewrite !lookup_app_r by lia.
        destruct (k - length pre)%nat as [|n] eqn:E; [lia|done]. }
      intros out. fold out in IH1, IH2. split.
      - destruct (out.1.1) as [e|].
        + destruct IH1 as (dn & c0 & rest & name & ? & ? & ? & ? & Hout).
          exists dn, c0, rest, name. split_and!; try done.
          rewrite Hout. by rewrite <- (assoc_L (++)).
        + destruct IH1 as (Hout & Hno & Htk). split_and!; try done.
          * rewrite Hout. by rewrite <- (assoc_L (++)).
          * rewrite Htk. destruct Htoks as [->| ->]; [done|].
            by rewrite clear_cache_twice.
      - destruct IH2 as [->| ->]; [done|]. right.
        destruct Htoks as [->| ->]; [done|]. by rewrite clear_cache_twice. }
    cbn [length seq]. rewrite filter_cons.
    rewrite (HS (length pre)) by lia. rewrite list_lookup_middle by done.
    cbn [from_option].
    unfold Gmail.mark_unverified.
    destruct (is_valid c) eqn:Hv.
    + rewrite decide_True by done. cbn [Gmail.verify_loop].
      rewrite list_lookup_middle by done. cbn [andb].
      unfold verify_credentials.
      destruct (Gmail.refresh auth_handler_new_token c) as [tok exp|msg|name] eqn:Hr.
      * specialize (Hnext c (clear_cache toks a) (or_intror eq_refl)).
        cbv zeta in Hnext. destruct Hnext as [H1 H2]. split; [|done].
        destruct (verify_loop _ _ _ _) as [[[e|] tk] st]; simpl in *.
        -- destruct H1 as (dn & c0 & rest & name & -> & ? & ? & Hd & ->).
           exists (c :: dn), c0, rest, name. split_and!; try done.
           ++ intros c1 n1 [->|?]%elem_of_cons; [|by apply Hd].
              intros [_ ?]. congruence.
           ++ simpl. by rewrite Hv, Hr.
        -- destruct H1 as (-> & Hno & ->). split_and!.
           ++ by rewrite Hv, Hr.
           ++ intros c1 n1 [->|?]%elem_of_cons; [|by apply Hno].
              intros [_ ?]. congruence.
           ++ rewrite (bool_decide_eq_true_2 (Exists _ (c :: cs))).
              ** by destruct (bool_decide _).
              ** left. by rewrite Hr.
      * replace (<[length pre:=set_invalid c]> (pre ++ c :: cs))
          with (pre ++ set_invalid c :: cs).
        2:{ replace (length pre) with (length pre + 0)%nat at 1 by lia.
            by rewrite insert_app_r. }
        specialize (Hnext (set_invalid c) toks (or_introl eq_refl)).
        cbv zeta in Hnext. destruct Hnext as [H1 H2]. split; [|done].
        destruct (verify_loop _ _ _ _) as [[[e|] tk] st]; simpl in *.
        -- destruct H1 as (dn & c0 & rest & name & -> & ? & ? & Hd & ->).
           exists (c :: dn), c0, rest, name. split_and!; try done.
           ++ intros c1 n1 [->|?]%elem_of_cons; [|by apply Hd].
              intros [_ ?]. congruence.
           ++ simpl. by rewrite Hv, Hr.
        -- destruct H1 as (-> & Hno & ->). split_and!.
           ++ by rewrite Hv, Hr.
           ++ intros c1 n1 [->|?]%elem_of_cons; [|by apply Hno].
              intros [_ ?]. congruence.
           ++ destruct (decide (Exists (fun c => is_valid c = true
                  ∧ is_oauth_failure (Gmail.refresh auth_handler_new_token c) = false) cs))
                as [Hex|Hex].
              ** rewrite !bool_decide_eq_true_2; [done|by right|done].
              ** rewrite !bool_decide_eq_false_2; [done| |done].
                 intros [[_ Hf]|?]%Exists_cons; [|done].
                 by rewrite Hr in Hf.
      * simpl. split; [|by left].
        exists [], c, cs, name. split_and!; try done.
        intros c' n' Hc'. by apply elem_of_nil in Hc'.
    + rewrite decide_False by done. cbn [andb].
      specialize (Hnext c toks (or_introl eq_refl)).
      cbv zeta in Hnext. destruct Hnext as [H1 H2]. split; [|done].
      destruct (verify_loop _ _ _ _) as [[[e|] tk] st]; simpl in *.
      * destruct H1 as (dn & c0 & rest & name & -> & ? & ? & Hd & ->).
        exists (c :: dn), c0, rest, name. split_and!; try done.
        -- intros c1 n1 [->|?]%elem_of_cons; [|by apply Hd].
           intros [? _]. congruence.
        -- simpl. by rewrite Hv.
      * destruct H1 as (-> & Hno & ->). split_and!.
        -- by rewrite Hv.
        -- intros c1 n1 [->|?]%elem_of_cons; [|by apply Hno].
           intros [? _]. congruence.
        -- destruct (decide (Exists (fun c => is_valid c = true
               ∧ is_oauth_failure (Gmail.refresh auth_handler_new_token c) = false) cs))
             as [Hex|Hex].
           ++ rewrite !bool_decide_eq_true_2; [done|by right|done].
           ++ rewrite !bool_decide_eq_false_2; [done| |done].
              intros [[? _]|?]%Exists_cons; [congruence|done].
Qed.

Lemma elem_of_valid_auth_credentials (store : list GmailAuthCredentials) i :
  i ∈ valid_auth_credentials store ↔ ∃ c, store !! i = Some c ∧ is_valid c = true.
Proof.
  unfold valid_auth_credentials. rewrite list_elem_of_filter, elem_of_seq.
  split.
  - intros [Hv _]. destruct (store !! i) as [c|]; [by exists c|done].
  - intros (c & Hc & Hv). rewrite Hc. split; [done|].
    apply lookup_lt_Some in Hc. lia.
Qed.

Lemma elem_of_valid_scopes_fold (store : list GmailAuthCredentials) s :
  ∀ refs (acc : gset string),
  s ∈ foldl (fun vs i =>
               match store !! i with
               | Some auth_creds => vs ∪ list_to_set (scopes auth_creds)
               | None => vs
               end) acc refs
  ↔ s ∈ acc ∨ ∃ i c, i ∈ refs ∧ store !! i = Some c ∧ s ∈ scopes c.
Proof.
  induction refs as [|i refs IH]; intros acc; simpl.
  - split; [by left|]. intros [?|(i & c & Hi & _)]; [done|].
    by apply elem_of_nil in Hi.
  - rewrite IH. split.
    + intros [Hacc|(j & c & Hj & Hc & Hs)].
      * destruct (store !! i) as [c|] eqn:Hi; [|by left].
        apply elem_of_union in Hacc as [?|Hs]; [by left|].
        right. exists i, c. split_and!; [by left|done|].
        by apply elem_of_list_to_set in Hs.
      * right. exists j, c. split_and!; [by right|done..].
    + intros [Hacc|(j & c & Hj & Hc & Hs)].
      * left. destruct (store !! i); [|done]. apply elem_of_union. by left.
      * apply elem_of_cons in Hj as [->|Hj].
        -- left. rewrite Hc. apply elem_of_union. right.
           by apply elem_of_list_to_set.
        -- right. by exists j, c.
Qed.

Lemma elem_of_valid_scopes (store : list GmailAuthCredentials) s :
  s ∈ valid_scopes store ↔ ∃ c, c ∈ store ∧ is_valid c = true ∧ s ∈ scopes c.
Proof.
  unfold valid_scopes. rewrite elem_of_valid_scopes_fold. split.
  - intros [Hs|(i & c & Hi & Hc & Hs)]; [by apply elem_of_empty in Hs|].
    apply elem_of_valid_auth_credentials in Hi as (c' & Hc' & Hv).
    rewrite Hc in Hc'. injection Hc' as <-.
    exists c. split_and!; try done.
    by eapply list_elem_of_lookup_2.
  - intros (c & Hc & Hv & Hs). right.
    apply list_elem_of_lookup_1 in Hc as [i Hi].
    exists i, c. split_and!; try done.
    apply elem_of_valid_auth_credentials. by exists c.
Qed.

Lemma verified_still_valid c :
  (∀ name, ¬ refresh_raises c name) →
  is_valid (mark_unverified c) = true ↔ verifies c.
Proof.
  intros Hno. unfold Gmail.mark_unverified, Gmail.verifies,
    Gmail.refresh_succeeds, Gmail.refresh_raises in *.
  destruct (is_valid c) eqn:Hv; simpl.
  - destruct (Gmail.refresh auth_handler_new_token c) as [tok exp|msg|name] eqn:Hr;
      simpl.
    + rewrite Hv. split; [|done]. intros _. split; [done|]. by exists tok, exp.
    + split; [done|]. by intros [_ (? & ? & ?)].
    + by destruct (Hno name).
  - rewrite Hv. split; [done|]. by intros [? _].
Qed.

Lemma scopes_mark_unverified c : scopes (mark_unverified c) = scopes c.
Proof. unfold Gmail.mark_unverified. by destruct (_ && _). Qed.

Lemma verify_loop_run acct toks :
  let out := verify_loop (account_id acct)
               (valid_auth_credentials (auth_credentials acct))
               toks (auth_credentials acct) in
  match out.1.1 with
  | None =>
      out.2 = mark_unverified <$> auth_credentials acct
      ∧ (∀ c name, c ∈ auth_credentials acct → ¬ refresh_raises c name)
      ∧ out.1.2 = (if bool_decide (Exists (fun c => is_valid c = true
                                     ∧ is_oauth_failure (refresh c) = false)
                                     (auth_credentials acct))
                   then clear_cache toks (account_id acct) else toks)
  | Some e =>
      ∃ done c rest name,
        auth_credentials acct = done ++ c :: rest
        ∧ refresh_raises c name ∧ e = Exception name
        ∧ (∀ c' name', c' ∈ done → ¬ refresh_raises c' name')
        ∧ out.2 = (mark_unverified <$> done) ++ c :: rest
  end.
Proof.
  exact (proj1 (verify_loop_scan (account_id acct) (auth_credentials acct) []
                  (auth_credentials acct) toks (fun _ _ => eq_refl))).
Qed.

(** X5. [verify_all_credentials] that returns has taken [is_valid] from
    exactly the valid credentials whose refresh failed with an [OAuthError];
    the scopes it then finds valid are those of the credentials that
    verified; [sync_events] and [sync_contacts] are cleared when the calendar
    and the contacts scope are not among them and are never set, and
    [mark_invalid] is called exactly when the mail scope is not among them.
    Another exception of a refresh ends the call: the credentials before it
    are marked, the others and the settings are as they were. *)
Theorem verify_all_credentials_marks toks acct settings :
  let out := verify_all_credentials toks acct settings in
  let acct' := out.1.2 in
  let vs := valid_scopes (auth_credentials acct') in
  account_id acct' = account_id acct
  ∧ match out.1.1.1 with
    | None =>
        auth_credentials acct' = mark_unverified <$> auth_credentials acct
        ∧ (∀ c name, c ∈ auth_credentials acct → ¬ refresh_raises c name)
        ∧ (∀ s, s ∈ vs ↔ ∃ c, c ∈ auth_credentials acct ∧ verifies c ∧ s ∈ scopes c)
        ∧ sync_events out.2
          = sync_events settings && bool_decide (GOOGLE_CALENDAR_SCOPE ∈ vs)
        ∧ sync_contacts out.2
          = sync_contacts settings && bool_decide (GOOGLE_CONTACTS_SCOPE ∈ vs)
        ∧ mark_invalid_calls out.2
          = (if bool_decide (GOOGLE_EMAIL_SCOPE ∈ vs)
             then mark_invalid_calls settings
             else S (mark_invalid_calls settings))
    | Some e =>
        ∃ done c rest name,
          auth_credentials acct = done ++ c :: rest
          ∧ refresh_raises c name ∧ e = Exception name
          ∧ (∀ c' name', c' ∈ done → ¬ refresh_raises c' name')
          ∧ auth_credentials acct' = (mark_unverified <$> done) ++ c :: rest
          ∧ out.2 = settings
    end.
Proof.
  intros out acct' vs. subst vs acct' out.
  unfold Gmail.verify_all_credentials.
  pose proof (verify_loop_run acct toks) as Hloop. cbv zeta in Hloop.
  destruct (verify_loop _ _ _ _) as [[[e|] toks'] store]; simpl in *.
  - split; [done|].
    destruct Hloop as (dn & c & rest & name & ? & ? & ? & ? & ?).
    by exists dn, c, rest, name.
  - destruct Hloop as (-> & Hno & _). split; [done|].
    set (vs := valid_scopes (mark_unverified <$> auth_credentials acct)).
    split_and!; try done.
    + intros s. unfold vs. rewrite elem_of_valid_scopes. split.
      * intros (c' & (c & -> & Hc)%list_elem_of_fmap & Hv & Hs).
        exists c. split_and!; [done| |by rewrite scopes_mark_unverified in Hs].
        apply (verified_still_valid c); [|done]. intros name. by apply Hno.
      * intros (c & Hc & Hv & Hs). exists (mark_unverified c). split_and!.
        -- apply list_elem_of_fmap. by exists c.
        -- apply (verified_still_valid c); [|done]. intros name. by apply Hno.
        -- by rewrite scopes_mark_unverified.
    + rewrite !bool_decide_not.
      by destruct (bool_decide (GOOGLE_CALENDAR_SCOPE ∈ vs)),
        (bool_decide (GOOGLE_CONTACTS_SCOPE ∈ vs)),
        (bool_decide (GOOGLE_EMAIL_SCOPE ∈ vs)), settings as [[] [] n].
    + rewrite !bool_decide_not.
      by destruct (bool_decide (GOOGLE_CALENDAR_SCOPE ∈ vs)),
        (bool_decide (GOOGLE_CONTACTS_SCOPE ∈ vs)),
        (bool_decide (GOOGLE_EMAIL_SCOPE ∈ vs)), settings as [[] [] n].
    + rewrite !bool_decide_not.
      by destruct (bool_decide (GOOGLE_CALENDAR_SCOPE ∈ vs)),
        (bool_decide (GOOGLE_CONTACTS_SCOPE ∈ vs)),
        (bool_decide (GOOGLE_EMAIL_SCOPE ∈ vs)), settings as [[] [] n].
Qed.

(** With no valid credential that covers the scope, the loop of [new_token]
    tries none. *)
Lemma new_token_scan_uncovered scope now noe : ∀ cs,
  Forall (fun c => ¬ (is_valid c = true ∧ scope ∈ scopes c)) cs →
  new_token_scan scope now cs noe
  = (inl (default (OAuthError "No valid tokens") noe), cs).
Proof.
  induction cs as [|c cs IH]; [done|]. intros [Hc Hcs]%Forall_cons. simpl.
  destruct (is_valid c && bool_decide (scope ∈ scopes c)) eqn:E.
  - apply andb_true_iff in E as [Hv Hs]. apply bool_decide_eq_true in Hs.
    by destruct Hc.
  - by rewrite IH.
Qed.

Lemma new_token_uncovered acct scope now :
  Forall (fun c => ¬ (is_valid c = true ∧ scope ∈ scopes c))
    (auth_credentials acct) →
  new_token acct scope now
  = (inl (OAuthError "No valid tokens"),
     mkAccount (account_id acct) (auth_credentials acct)).
Proof.
  intros Hno. unfold Gmail.new_token, valid_auth_credentials.
  pose proof (new_token_loop_scan auth_handler_new_token scope now
                (auth_credentials acct) []
                (auth_credentials acct) None (fun _ _ => eq_refl)) as Heq.
  simpl in Heq. rewrite Heq. by rewrite new_token_scan_uncovered.
Qed.

(** X6. After a [verify_all_credentials] that has called [mark_invalid],
    [new_token] for the mail scope raises [OAuthError] and changes nothing. *)
Theorem new_token_after_mark_invalid toks acct settings now :
  let out := verify_all_credentials toks acct settings in
  out.1.1.1 = None →
  mark_invalid_calls out.2 = S (mark_invalid_calls settings) →
  new_token out.1.2 GOOGLE_EMAIL_SCOPE now
  = (inl (OAuthError "No valid tokens"), out.1.2).
Proof.
  intros out Hnone Hmark. subst out. revert Hnone Hmark.
  unfold Gmail.verify_all_credentials.
  destruct (verify_loop _ _ _ _) as [[[e|] toks'] store]; simpl; [done|].
  intros _. set (vs := valid_scopes store). rewrite !bool_decide_not.
  destruct (bool_decide (GOOGLE_EMAIL_SCOPE ∈ vs)) eqn:Hin.
  { destruct (bool_decide (GOOGLE_CALENDAR_SCOPE ∈ vs)),
      (bool_decide (GOOGLE_CONTACTS_SCOPE ∈ vs)); simpl; lia. }
  intros _. apply bool_decide_eq_false in Hin.
  apply (new_token_uncovered (mkAccount (account_id acct) store)). simpl.
  apply Forall_forall. intros c Hc [Hv Hs]. apply Hin.
  apply elem_of_valid_scopes. by exists c.
Qed.

Lemma cached_clear_cache toks a s : cached (clear_cache toks a) a s = None.
Proof. unfold cached, clear_cache. by rewrite lookup_insert_eq. Qed.

(** X7. When a credential of the account verifies,
    [verify_all_credentials] leaves the manager with no token for the
    account, so that the next [_get_token] for the account, for whatever
    scope, calls [new_token]. *)
Theorem verify_all_credentials_clears_cache
    toks acct settings c mgr_calls scope now now' :
  let out := verify_all_credentials toks acct settings in
  out.1.1.1 = None →
  c ∈ auth_credentials acct → verifies c →
  out.1.1.2 = clear_cache toks (account_id acct)
  ∧ calls (_get_token (mkManager out.1.1.2 mgr_calls) out.1.2 scope false
             now now').1.2
    = mgr_calls ++ [CallNewToken (account_id acct) scope].
Proof.
  intros out Hnone Hc Hv.
  assert (Hclear : out.1.1.2 = clear_cache toks (account_id acct)).
  { subst out. revert Hnone. unfold Gmail.verify_all_credentials.
    pose proof (verify_loop_run acct toks) as Hloop. cbv zeta in Hloop.
    destruct (verify_loop _ _ _ _) as [[[e|] toks'] store]; simpl in *; [done|].
    intros _. destruct Hloop as (_ & _ & ->).
    rewrite bool_decide_eq_true_2; [done|].
    apply Exists_exists. exists c. split; [done|].
    destruct Hv as [Hvalid (tok & exp & Hr)]. split; [done|]. by rewrite Hr. }
  split; [done|].
  assert (Hid : account_id out.1.2 = account_id acct).
  { subst out. unfold Gmail.verify_all_credentials.
    by destruct (verify_loop _ _ _ _) as [[[e|] toks'] store]. }
  rewrite Hclear. unfold Gmail._get_token. cbn [_tokens calls].
  rewrite Hid.
  pose proof (cached_tokens_of_account
                (clear_cache toks (account_id acct)) (account_id acct) scope)
    as [_ Hd].
  rewrite cached_clear_cache in Hd.
  destruct (tokens_of_account _ _) as [d toks1]. simpl in Hd. rewrite Hd.
  destruct (Gmail.new_token auth_handler_new_token out.1.2 scope now')
    as [[e|g] an]; done.
Qed.

#[local] Abbreviation get_token_and_auth_creds_id :=
  (get_token_and_auth_creds_id auth_handler_new_token).

(** The credential that issued the token which [new_token] returns: a valid
    credential of the account which carries the scope, and which the account
    still holds afterwards. *)
Lemma new_token_issuer acct scope now g acct' :
  new_token acct scope now = (inr g, acct') →
  ∃ c, c ∈ auth_credentials acct ∧ c ∈ auth_credentials acct'
       ∧ is_valid c = true ∧ scope ∈ scopes c
       ∧ auth_creds_id g = id c ∧ gscopes g = scopes c.
Proof.
  unfold Gmail.new_token, valid_auth_credentials. intros Hrun.
  pose proof (new_token_loop_scan auth_handler_new_token scope now
                (auth_credentials acct) []
                (auth_credentials acct) None (fun _ _ => eq_refl)) as Heq.
  simpl in Heq. rewrite Heq in Hrun. clear Heq.
  destruct (new_token_scan scope now (auth_credentials acct) None)
    as [r0 cs0] eqn:Hscan.
  simplify_eq.
  apply new_token_scan_spec in Hscan
    as (pre & c & post & Hcs & Hv & Hs & (tok & exp & _ & _ & ->) & _ & ->).
  exists c. rewrite Hcs. split_and!; try done.
  - apply elem_of_app. right. by left.
  - simpl. apply elem_of_app. right. by left.
Qed.

(** X24. [get_token_and_auth_creds_id] with [force_refresh=True]: when it
    returns a value and an id, [get_token] on the same arguments returns
    that value with the same cache and account, and the id is the id of a
    credential of the account that is valid, carries the scope asked for,
    and is still held by the account afterwards. *)
Theorem token_and_credential_id mgr acct scope now now' v i mgr' acct' :
  get_token_and_auth_creds_id mgr acct scope true now now'
  = (inr (v, i), mgr', acct') →
  get_token mgr acct scope true now now' = (inr v, mgr', acct')
  ∧ ∃ c, c ∈ auth_credentials acct ∧ c ∈ auth_credentials acct'
         ∧ is_valid c = true ∧ scope ∈ scopes c ∧ id c = i.
Proof.
  unfold Gmail.get_token_and_auth_creds_id, Gmail.get_token, Gmail._get_token.
  destruct (new_token acct scope now') as [[e|g] an] eqn:Hn; [done|].
  intros [= <- <- <- <-]. split; [done|].
  apply new_token_issuer in Hn as (c & ? & ? & ? & ? & Hid & _).
  by exists c.
Qed.

End Tokens.

(** Two urls assigned to the scopes of a credential and read back. *)
Lemma scopes_setter_getter_witness :
  scopes (scopes_setter
            (inr ["https://mail.google.com/"; "https://www.google.com/m8/feeds"])
            (mkCreds 1 "" "app" "secret" true None))
  = ["https://mail.google.com/"; "https://www.google.com/m8/feeds"].
Proof.
  apply scopes_setter_getter; [done|].
  repeat constructor; apply (bool_decide_unpack _); vm_compute; exact I.
Defined.

(** The token that the account of [Scenarios.two_credentials] gets for
    mail also carries the contacts scope and answers
    [get_token_for_contacts]. *)
Lemma token_reused_for_its_scopes_witness :
  let out := Gmail._get_token Scenarios.oauth_endpoint Scenarios.empty_manager
               Scenarios.two_credentials Scenarios.mail_scope false 1000 1001 in
  Gmail.get_token_for_contacts Scenarios.oauth_endpoint out.1.2 out.2
    false 2000 2001
  = (inr "ya29", out.1.2, out.2).
Proof.
  intros out.
  refine (token_reused_for_its_scopes Scenarios.oauth_endpoint
            Scenarios.empty_manager Scenarios.two_credentials
            Scenarios.mail_scope false 1000 1001
            (mkGToken "ya29" 4591
               ["https://mail.google.com/"; "https://www.google.com/m8/feeds"] 2)
            out.1.2 out.2 GOOGLE_CONTACTS_SCOPE 2000 2001 _ _ _ _).
  - vm_compute. reflexivity.
  - vm_compute. discriminate.
  - right. left.
  - reflexivity.
Defined.

(** The account of [Scenarios.revoked_account] is verified: its credential
    loses [is_valid], [mark_invalid] is called, and [new_token] raises. *)
Lemma new_token_after_mark_invalid_witness :
  let out := Gmail.verify_all_credentials Scenarios.oauth_endpoint ∅
               Scenarios.revoked_account Scenarios.all_enabled in
  Gmail.new_token Scenarios.oauth_endpoint out.1.2 GOOGLE_EMAIL_SCOPE 1000
  = (inl (OAuthError "No valid tokens"), out.1.2).
Proof.
  apply (new_token_after_mark_invalid Scenarios.oauth_endpoint ∅
           Scenarios.revoked_account Scenarios.all_enabled 1000).
  - vm_compute. reflexivity.
  - vm_compute. reflexivity.
Defined.

(** The account of [Scenarios.two_credentials] is verified: the second
    credential verifies and the cache of the account is cleared. *)
Lemma verify_all_credentials_clears_cache_witness :
  let out := Gmail.verify_all_credentials Scenarios.oauth_endpoint ∅
               Scenarios.two_credentials Scenarios.all_enabled in
  out.1.1.2 = clear_cache ∅ 7
  ∧ calls (Gmail._get_token Scenarios.oauth_endpoint (mkManager out.1.1.2 [])
             out.1.2 Scenarios.mail_scope false 1000 1001).1.2
    = [CallNewToken 7 Scenarios.mail_scope].
Proof.
  refine (verify_all_credentials_clears_cache Scenarios.oauth_endpoint ∅
            Scenarios.two_credentials Scenarios.all_enabled
            (mkCreds 2 "https://mail.google.com/ https://www.google.com/m8/feeds"
               "app" "secret" true (Some "good"))
            [] Scenarios.mail_scope 1000 1001 _ _ _).
  - vm_compute. reflexivity.
  - right. left.
  - split; [reflexivity|]. by exists "ya29", 3600.
Defined.

(** The account of [Scenarios.two_credentials] asks for a fresh mail token
    and the id of its credential: the second credential issues it. *)
Lemma token_and_credential_id_witness :
  let out := Gmail.get_token_and_auth_creds_id Scenarios.oauth_endpoint
               Scenarios.empty_manager Scenarios.two_credentials
               Scenarios.mail_scope true 1000 1001 in
  Gmail.get_token Scenarios.oauth_endpoint Scenarios.empty_manager
    Scenarios.two_credentials Scenarios.mail_scope true 1000 1001
  = (inr "ya29", out.1.2, out.2)
  ∧ ∃ c, c ∈ auth_credentials Scenarios.two_credentials
         ∧ c ∈ auth_credentials out.2
         ∧ is_valid c = true ∧ Scenarios.mail_scope ∈ scopes c ∧ id c = 2.
Proof.
  intros out.
  apply (token_and_credential_id Scenarios.oauth_endpoint
           Scenarios.empty_manager Scenarios.two_credentials
           Scenarios.mail_scope 1000 1001 "ya29" 2 out.1.2 out.2).
  vm_compute. reflexivity.
Defined.

End GmailFacts.

(** * Facts about sync.py *)

Module SyncFacts.
Import Sync SyncProps.

(** ** Runs of the monad *)

Lemma run_bind {A B} (m : M A) (k : A → M B) (w : World) :
  (m ≫= k) w =
  match result (m w) with
  | inl e => mkRes (inl e) (world (m w)) (events (m w))
  | inr x =>
      mkRes (result (k x (world (m w)))) (world (k x (world (m w))))
        (events (m w) ++ events (k x (world (m w))))
  end.
Proof. reflexivity. Qed.

Lemma run_bind_inr {A B} (m : M A) (k : A → M B) (w : World) x :
  result (m w) = inr x →
  (m ≫= k) w =
  mkRes (result (k x (world (m w)))) (world (k x (world (m w))))
    (events (m w) ++ events (k x (world (m w)))).
Proof. intros H. by rewrite run_bind, H. Qed.

(** A bind that returns: its first part returned and its second part ran
    from there. *)
Lemma bind_inr_inv {A B} (m : M A) (k : A → M B) (w : World) y :
  result ((m ≫= k) w) = inr y →
  ∃ x, result (m w) = inr x
       ∧ result (k x (world (m w))) = inr y
       ∧ world ((m ≫= k) w) = world (k x (world (m w))).
Proof.
  rewrite run_bind. destruct (result (m w)) as [e|x]; [done|].
  intros H. by exists x.
Qed.

Lemma run_bind_inl {A B} (m : M A) (k : A → M B) (w : World) e :
  result (m w) = inl e →
  (m ≫= k) w = mkRes (inl e) (world (m w)) (events (m w)).
Proof. intros H. by rewrite run_bind, H. Qed.

Section Emits.
Context (Q : Event → Prop).

Lemma emits_ret {A} (x : A) : emits Q (mret x).
Proof. intros w. constructor. Qed.

Lemma emits_raise {A} e : emits Q (@raise A e).
Proof. intros w. constructor. Qed.

Lemma emits_gets {A} (f : World → A) : emits Q (gets f).
Proof. intros w. constructor. Qed.

Lemma emits_modify f : emits Q (modify f).
Proof. intros w. constructor. Qed.

Lemma emits_emit e : Q e → emits Q (emit e).
Proof. intros H w. by constructor. Qed.

Lemma emits_bind {A B} (m : M A) (k : A → M B) :
  emits Q m → (∀ x, emits Q (k x)) → emits Q (m ≫= k).
Proof.
  intros Hm Hk w. rewrite run_bind. specialize (Hm w).
  destruct (result (m w)) as [e|x]; simpl; [done|].
  apply Forall_app. split; [done|apply Hk].
Qed.

Lemma emits_assert c msg : emits Q (assert c msg).
Proof. destruct c; [apply emits_ret|apply emits_raise]. Qed.

Lemma emits_getitem {A} (d : option A) key : emits Q (getitem d key).
Proof. destruct d; [apply emits_ret|apply emits_raise]. Qed.

Lemma emits_for_each {A} (l : list A) body :
  (∀ x, emits Q (body x)) → emits Q (for_each l body).
Proof.
  intros Hb. induction l as [|x l IH]; simpl; [apply emits_ret|].
  apply emits_bind; [apply Hb|by intros _].
Qed.

Lemma emits_for_fold {A B} (l : list A) (acc : B) body :
  (∀ b x, emits Q (body b x)) → emits Q (for_fold l acc body).
Proof.
  intros Hb. revert acc.
  induction l as [|x l IH]; intros acc; simpl; [apply emits_ret|].
  apply emits_bind; [apply Hb|done].
Qed.

Lemma emits_for_list {A B} (l : list A) (f : A → M B) :
  (∀ x, emits Q (f x)) → emits Q (for_list l f).
Proof.
  intros Hb. induction l as [|x l IH]; simpl; [apply emits_ret|].
  apply emits_bind; [apply Hb|intros y].
  apply emits_bind; [done|intros ys]. apply emits_ret.
Qed.

End Emits.

Section Preserves.
Context (R : relation World) `{!PreOrder R}.

Lemma preserves_ret {A} (x : A) : preserves R (mret x).
Proof. intros w. simpl. reflexivity. Qed.

Lemma preserves_raise {A} e : preserves R (@raise A e).
Proof. intros w. simpl. reflexivity. Qed.

Lemma preserves_gets {A} (f : World → A) : preserves R (gets f).
Proof. intros w. simpl. reflexivity. Qed.

Lemma preserves_emit e : preserves R (emit e).
Proof. intros w. simpl. reflexivity. Qed.

Lemma preserves_modify f : (∀ w, R w (f w)) → preserves R (modify f).
Proof. intros H w. apply H. Qed.

Lemma preserves_bind {A B} (m : M A) (k : A → M B) :
  preserves R m → (∀ x, preserves R (k x)) → preserves R (m ≫= k).
Proof.
  intros Hm Hk w. rewrite run_bind. specialize (Hm w).
  destruct (result (m w)) as [e|x]; simpl; [done|].
  etrans; [done|apply Hk].
Qed.

Lemma preserves_assert c msg : preserves R (assert c msg).
Proof. destruct c; [apply preserves_ret|apply preserves_raise]. Qed.

Lemma preserves_getitem {A} (d : option A) key : preserves R (getitem d key).
Proof. destruct d; [apply preserves_ret|apply preserves_raise]. Qed.

Lemma preserves_for_each {A} (l : list A) body :
  (∀ x, preserves R (body x)) → preserves R (for_each l body).
Proof.
  intros Hb. induction l as [|x l IH]; simpl; [apply preserves_ret|].
  apply preserves_bind; [apply Hb|by intros _].
Qed.

Lemma preserves_for_fold {A B} (l : list A) (acc : B) body :
  (∀ b x, preserves R (body b x)) → preserves R (for_fold l acc body).
Proof.
  intros Hb. revert acc.
  induction l as [|x l IH]; intros acc; simpl; [apply preserves_ret|].
  apply preserves_bind; [apply Hb|done].
Qed.

Lemma preserves_for_list {A B} (l : list A) (f : A → M B) :
  (∀ x, preserves R (f x)) → preserves R (for_list l f).
Proof.
  intros Hb. induction l as [|x l IH]; simpl; [apply preserves_ret|].
  apply preserves_bind; [apply Hb|intros y].
  apply preserves_bind; [done|intros ys]. apply preserves_ret.
Qed.

End Preserves.

#[local] Instance keeps_preorder {X} (f : World → X) :
  PreOrder (fun w w' => f w' = f w).
Proof. split; [by intros ?|intros ??? H1 H2; by rewrite H2]. Qed.

#[local] Instance invariant_preorder (I : World → Prop) :
  PreOrder (fun w w' => I w → I w').
Proof. split; [by intros ?|intros ??? H1 H2 ?; auto]. Qed.

Section Returns.

Lemma returns_ret {A} (x : A) : returns (mret x).
Proof. intros w. by exists x. Qed.

Lemma returns_gets {A} (f : World → A) : returns (gets f).
Proof. intros w. by eexists. Qed.

Lemma returns_modify f : returns (modify f).
Proof. intros w. by eexists. Qed.

Lemma returns_emit e : returns (emit e).
Proof. intros w. by eexists. Qed.

Lemma returns_bind {A B} (m : M A) (k : A → M B) :
  returns m → (∀ x, returns (k x)) → returns (m ≫= k).
Proof.
  intros Hm Hk w. rewrite run_bind. destruct (Hm w) as [x ->]. simpl.
  apply Hk.
Qed.

Lemma returns_for_each {A} (l : list A) body :
  (∀ x, returns (body x)) → returns (for_each l body).
Proof.
  intros Hb. induction l as [|x l IH]; simpl; [apply returns_ret|].
  apply returns_bind; [apply Hb|by intros _].
Qed.

End Returns.

Create HintDb emits.
Create HintDb preserves.
Create HintDb returns.

(** One step of a proof that a handler emits only events of some kind, or
    preserves some relation: the rule of the outermost construct. *)
Ltac emits_step :=
  lazymatch goal with
  | |- emits _ (mret _) => apply emits_ret
  | |- emits _ (raise _) => apply emits_raise
  | |- emits _ (gets _) => apply emits_gets
  | |- emits _ (modify _) => apply emits_modify
  | |- emits _ (emit _) => apply emits_emit; try done
  | |- emits _ (assert _ _) => apply emits_assert
  | |- emits _ (getitem _ _) => apply emits_getitem
  | |- emits _ (for_each _ _) => apply emits_for_each; intros ?
  | |- emits _ (for_fold _ _ _) => apply emits_for_fold; intros ? ?
  | |- emits _ (for_list _ _) => apply emits_for_list; intros ?
  | |- emits _ (_ ≫= _) => apply emits_bind; [|intros ?]
  | |- emits _ (match ?x with _ => _ end) => destruct x
  end.

Ltac emits_tac := repeat first [ solve [eauto with emits] | emits_step ].

Ltac preserves_step :=
  lazymatch goal with
  | |- PreOrder _ => apply _
  | |- ∀ _, _ => intro
  | |- preserves _ (mret _) => apply preserves_ret
  | |- preserves _ (raise _) => apply preserves_raise
  | |- preserves _ (gets _) => apply preserves_gets
  | |- preserves _ (emit _) => apply preserves_emit
  | |- preserves _ (modify _) => apply preserves_modify
  | |- preserves _ (assert _ _) => apply preserves_assert
  | |- preserves _ (getitem _ _) => apply preserves_getitem
  | |- preserves _ (for_each _ _) => apply preserves_for_each
  | |- preserves _ (for_fold _ _ _) => apply preserves_for_fold
  | |- preserves _ (for_list _ _) => apply preserves_for_list
  | |- preserves _ (_ ≫= _) => apply preserves_bind
  | |- preserves _ (match ?x with _ => _ end) => destruct x
  | |- _ => by simpl
  end.

Ltac preserves_tac :=
  repeat first [ solve [eauto with preserves] | preserves_step ].

Ltac returns_step :=
  lazymatch goal with
  | |- returns (mret _) => apply returns_ret
  | |- returns (gets _) => apply returns_gets
  | |- returns (modify _) => apply returns_modify
  | |- returns (emit _) => apply returns_emit
  | |- returns (for_each _ _) => apply returns_for_each; intros ?
  | |- returns (_ ≫= _) => apply returns_bind; [|intros ?]
  | |- returns (match ?x with _ => _ end) => destruct x
  end.

Ltac returns_tac := repeat first [ solve [eauto with returns] | returns_step ].

(** Reduction of the primitives of the monad and of the projections of a
    world, leaving the functions of the program folded. *)
Ltac mrun :=
  cbn [result world events modify gets emit raise mret M_ret getitem
       db committed cache blobs selected inbox detector_cache events_set
       next_event next_message_id statuses self_state
       set_db set_committed set_cache_map set_blobs set_selected set_inbox
       set_detector_cache set_events_set set_next_event set_next_message_id
       set_statuses set_self_state
       folderitems messages threads uidvalidities foldersyncs
       set_folderitems set_messages set_threads set_uidvalidities
       set_foldersyncs].

(** The same, through binds. *)
Ltac mstep :=
  cbn [mbind M_bind result world events modify gets emit raise mret M_ret
       db committed cache blobs selected inbox detector_cache events_set
       next_event next_message_id statuses self_state
       set_db set_committed set_cache_map set_blobs set_selected set_inbox
       set_detector_cache set_events_set set_next_event set_next_message_id
       set_statuses set_self_state
       folderitems messages threads uidvalidities foldersyncs
       set_folderitems set_messages set_threads set_uidvalidities
       set_foldersyncs].

(** A run that emits no event of any kind emits nothing. *)
Lemma emits_nothing {A} (m : M A) w : emits (fun _ => False) m → events (m w) = [].
Proof.
  intros H. specialize (H w). destruct (events (m w)) as [|e l]; [done|].
  by apply Forall_cons in H as [[] _].
Qed.

Lemma emits_weaken (Q Q' : Event → Prop) {A} (m : M A) :
  (∀ e, Q e → Q' e) → emits Q m → emits Q' m.
Proof. intros HQ Hm w. eapply Forall_impl; [apply Hm|done]. Qed.

(** Unfolds the collaborators, which are built from the primitives of the
    monad alone. *)
Ltac unfold_collaborators :=
  unfold status_callback, metadata_of, gmail_and_not_all_mail, new_Event,
    thread_callback, clear_cache, event_set, detect_thread,
    update_from_message, Thread_from_message, save_part, _gevent_check_join,
    crispin_all_uids, crispin_g_metadata, crispin_flags, crispin_uids,
    crispin_expand_threads, crispin_new_and_updated_uids,
    crispin_folder_status, selected_info, selected_remote_folder,
    account_all_uids, get_uidvalidity, account_g_msgids, account_g_metadata,
    account_remove_messages, account_update_metadata, account_create_message,
    set_cache, rm_cache, add_all, commit.

(** ** The thread detector *)

Section Detector.

Lemma thread_key_attach msg th : thread_key (attach msg th) = thread_key th.
Proof. done. Qed.

Lemma thread_keys_alter msg : ∀ (ths : list Thread) i,
  thread_key <$> alter (attach msg) i ths = thread_key <$> ths.
Proof.
  induction ths as [|th ths IH]; intros [|i]; simpl; try done.
  f_equal. apply IH.
Qed.

(** Updating a cached thread creates no row. *)
Lemma update_from_message_keys thread msg w :
  thread_key <$> threads (db (world (update_from_message thread msg w)))
  = thread_key <$> threads (db w).
Proof. apply thread_keys_alter. Qed.

(** [Thread.from_message] loads the row of the key when there is one and
    creates it when there is none; the thread it returns has the key and
    holds the message. *)
Lemma Thread_from_message_spec msg t w :
  let r := Thread_from_message msg t w in
  ∃ thread th,
    result r = inr thread
    ∧ detector_cache (world r) = detector_cache w
    ∧ threads (db (world r)) !! thread = Some th
    ∧ thread_key th = (message_account msg, t)
    ∧ message_id msg ∈ thread_messages th
    ∧ (thread_key <$> threads (db (world r)) = thread_key <$> threads (db w)
       ∨ (((message_account msg, t) ∉ (thread_key <$> threads (db w)))
          ∧ thread_key <$> threads (db (world r))
            = (thread_key <$> threads (db w)) ++ [(message_account msg, t)])).
Proof.
  unfold Thread_from_message. rewrite run_bind. simpl.
  destruct (list_find _ (threads (db w))) as [[i th]|] eqn:Hfind; simpl.
  - apply list_find_Some in Hfind as (Hi & [Ha Ht] & _).
    exists i, (attach msg th). repeat split.
    + rewrite list_lookup_alter_eq, Hi. done.
    + unfold thread_key. simpl. by rewrite Ha, Ht.
    + simpl. apply elem_of_app. right. by left.
    + left. apply thread_keys_alter.
  - apply list_find_None in Hfind.
    exists (length (threads (db w))),
           (mkThread (message_account msg) t [message_id msg]).
    repeat split.
    + by rewrite lookup_app_r, Nat.sub_diag.
    + simpl. by left.
    + right. split.
      * intros (th & Hk & Hin)%list_elem_of_fmap.
        rewrite Forall_forall in Hfind. apply (Hfind th Hin).
        unfold thread_key in Hk. by simplify_eq.
      * by rewrite fmap_app.
Qed.

Lemma unique_threads_update_from_message thread msg :
  invariant unique_threads (update_from_message thread msg).
Proof.
  intros w. unfold unique_threads. by rewrite update_from_message_keys.
Qed.

Lemma unique_threads_Thread_from_message msg t :
  invariant unique_threads (Thread_from_message msg t).
Proof.
  intros w. unfold unique_threads.
  destruct (Thread_from_message_spec msg t w)
    as (thread & th & _ & _ & _ & _ & _ & [->| [Hnew ->]]); [done|].
  intros Hnodup. apply NoDup_app. split_and!; [done| |apply NoDup_singleton].
  intros k Hk ->%list_elem_of_singleton. done.
Qed.

(** What [detect_thread] leaves alone. *)
Lemma detect_thread_silent msg : emits (fun _ => False) (detect_thread msg).
Proof.
  unfold detect_thread, update_from_message, Thread_from_message. emits_tac.
Qed.

Lemma detect_thread_returns msg : returns (detect_thread msg).
Proof.
  unfold detect_thread, update_from_message, Thread_from_message. returns_tac.
Qed.

Lemma detect_thread_keeps_committed msg : keeps committed (detect_thread msg).
Proof.
  unfold keeps, detect_thread, update_from_message, Thread_from_message.
  preserves_tac.
Qed.

Lemma detect_thread_keeps_inbox msg : keeps inbox (detect_thread msg).
Proof.
  unfold keeps, detect_thread, update_from_message, Thread_from_message.
  preserves_tac.
Qed.

Lemma detect_thread_keeps_events_set msg : keeps events_set (detect_thread msg).
Proof.
  unfold keeps, detect_thread, update_from_message, Thread_from_message.
  preserves_tac.
Qed.

Lemma detect_thread_keeps_folderitems msg :
  keeps (fun w => (folderitems (db w), messages (db w))) (detect_thread msg).
Proof.
  unfold keeps, detect_thread, update_from_message, Thread_from_message.
  preserves_tac.
Qed.

Lemma detect_thread_unique msg : invariant unique_threads (detect_thread msg).
Proof.
  unfold invariant, detect_thread.
  preserves_tac;
    [apply unique_threads_update_from_message
    |apply unique_threads_Thread_from_message].
Qed.

(** What one message of a batch does: with its thread id in the cache of
    the batch, the cached thread is updated and no row is added; otherwise a
    thread with the key of the message is loaded or created, holds the
    message and is cached under the thread id. *)
Lemma detect_thread_spec msg w :
  let r := detect_thread msg w in
  match detector_cache w !! g_thrid msg with
  | Some thread =>
      r = update_from_message thread msg w
      ∧ thread_key <$> threads (db (world r)) = thread_key <$> threads (db w)
      ∧ detector_cache (world r) = detector_cache w
  | None =>
      ∃ thread th,
        detector_cache (world r) = <[g_thrid msg := thread]> (detector_cache w)
        ∧ threads (db (world r)) !! thread = Some th
        ∧ thread_key th = (message_account msg, g_thrid msg)
        ∧ message_id msg ∈ thread_messages th
  end.
Proof.
  unfold detect_thread. rewrite run_bind. simpl.
  destruct (detector_cache w !! g_thrid msg) as [thread|] eqn:Hc.
  - split_and!; [by destruct (update_from_message thread msg w)| |done].
    apply thread_keys_alter.
  - rewrite run_bind.
    destruct (Thread_from_message_spec msg (g_thrid msg) w)
      as (thread & th & Hr & Hc' & Hth & Hk & Hm & _).
    rewrite Hr. mrun. rewrite Hc'. by exists thread, th.
Qed.

(** A round of the detector on a non-empty inbox: the first batch is taken,
    its messages are assigned, the cache is cleared and the event of the
    batch is set. *)
Lemma detector_step_batch msgs event rest w :
  inbox w = (msgs, event) :: rest →
  let r := detector_step w in
  result r = inr tt
  ∧ events r = [EvThreadsDetected event; EvEventSet event]
  ∧ inbox (world r) = rest
  ∧ detector_cache (world r) = ∅
  ∧ events_set (world r) = event :: events_set w
  ∧ committed (world r) = committed w
  ∧ folderitems (db (world r)) = folderitems (db w)
  ∧ messages (db (world r)) = messages (db w)
  ∧ (unique_threads w → unique_threads (world r)).
Proof.
  intros Hq. unfold detector_step. rewrite run_bind. simpl. rewrite Hq.
  rewrite run_bind. simpl. rewrite run_bind.
  set (w1 := set_inbox (fun _ => rest) w).
  set (loop := for_each msgs detect_thread).
  destruct (returns_for_each msgs detect_thread detect_thread_returns w1)
    as [[] Hret].
  fold loop in Hret. rewrite Hret. simpl.
  pose proof (emits_nothing loop w1
                (emits_for_each _ msgs _ detect_thread_silent)) as Hev.
  rewrite Hev. simpl.
  pose proof (preserves_for_each _ msgs _ detect_thread_keeps_committed w1) as Hc.
  pose proof (preserves_for_each _ msgs _ detect_thread_keeps_inbox w1) as Hi.
  pose proof (preserves_for_each _ msgs _ detect_thread_keeps_events_set w1) as He.
  pose proof (preserves_for_each _ msgs _ detect_thread_keeps_folderitems w1) as Hf.
  pose proof (preserves_for_each _ msgs _ detect_thread_unique w1) as Hu.
  fold loop in Hc, Hi, He, Hf, Hu. simpl in Hc, Hi, He, Hf, Hu.
  injection Hf as Hf Hm.
  split_and!; try done. by rewrite He.
Qed.

Lemma detector_step_idle w :
  inbox w = [] → detector_step w = mkRes (inr tt) w [].
Proof. intros Hq. unfold detector_step. rewrite run_bind. simpl. by rewrite Hq. Qed.

(** The events of the batches of an inbox, in the order of the inbox. *)
Lemma detector_run_spec : ∀ rounds w,
  let r := detector_run rounds w in
  result r = inr tt
  ∧ events r = (take rounds (inbox w)) ≫=
                 (fun batch => [EvThreadsDetected batch.2; EvEventSet batch.2])
  ∧ inbox (world r) = drop rounds (inbox w)
  ∧ events_set (world r) = reverse ((take rounds (inbox w)).*2) ++ events_set w
  ∧ committed (world r) = committed w
  ∧ folderitems (db (world r)) = folderitems (db w)
  ∧ messages (db (world r)) = messages (db w)
  ∧ (unique_threads w → unique_threads (world r))
  ∧ ((0 < rounds)%nat → inbox w ≠ [] → detector_cache (world r) = ∅).
Proof.
  induction rounds as [|n IH]; intros w; cbn [detector_run].
  - rewrite take_0, drop_0. mrun. split_and!; try done. lia.
  - rewrite run_bind.
    destruct (inbox w) as [|[msgs event] rest] eqn:Hq.
    + rewrite (detector_step_idle w Hq). mrun.
      destruct (IH w) as (Hr & He & Hi & Hs & Hc & Hf & Hm & Hu & _).
      rewrite Hq in He, Hi, Hs. rewrite take_nil in He, Hs.
      rewrite drop_nil in Hi. rewrite take_nil, drop_nil.
      split_and!; try done.
    + destruct (detector_step_batch msgs event rest w Hq)
        as (Hr1 & He1 & Hi1 & Hk1 & Hs1 & Hc1 & Hf1 & Hm1 & Hu1).
      rewrite Hr1. mrun.
      destruct (IH (world (detector_step w)))
        as (Hr & He & Hi & Hs & Hc & Hf & Hm & Hu & Hk).
      rewrite Hi1 in He, Hi, Hs, Hk.
      rewrite firstn_cons, skipn_cons.
      split_and!.
      * done.
      * by rewrite He1, He.
      * done.
      * rewrite Hs, Hs1. rewrite fmap_cons, reverse_cons, <- (assoc_L (++)). done.
      * congruence.
      * congruence.
      * congruence.
      * auto.
      * intros _ _. destruct n as [|n]; [done|].
        destruct rest as [|b rest'].
        -- clear Hk. cbn [detector_run]. rewrite run_bind.
           rewrite (detector_step_idle (world (detector_step w)) Hi1). mrun.
           assert (Hidle : ∀ m w', inbox w' = [] →
                     world (detector_run m w') = w').
           { clear. induction m as [|m IHm]; intros w' Hw'; cbn [detector_run];
               [done|].
             rewrite run_bind, (detector_step_idle w' Hw'). mrun. by apply IHm. }
           by rewrite Hidle.
        -- apply Hk; [lia|done].
Qed.

(** The loop over the messages of a batch. *)
Lemma for_each_detected msgs : ∀ w,
  for_each msgs detect_thread w = mkRes (inr tt) (detected msgs w) [].
Proof.
  induction msgs as [|msg msgs IH]; intros w; cbn [for_each detected foldl].
  - done.
  - rewrite run_bind.
    destruct (detect_thread_returns msg w) as [[] Hr]. rewrite Hr.
    pose proof (emits_nothing _ w (detect_thread_silent msg)) as He.
    mrun. rewrite He. rewrite IH. done.
Qed.

Lemma first_row_alter a t msg : ∀ ths i,
  first_row a t (alter (attach msg) i ths) = first_row a t ths.
Proof.
  unfold first_row.
  induction ths as [|th ths IH]; intros i; [done|].
  destruct i as [|i]; cbn [alter list_alter list_find].
  - destruct (decide (same_thread a t th)) as [Hth|Hth].
    + by rewrite decide_True by done.
    + by rewrite decide_False by done.
  - destruct (decide (same_thread a t th)); [done|].
    specialize (IH i). change (list_alter (attach msg) i ths)
      with (alter (attach msg) i ths).
    destruct (list_find _ (alter _ _ _)) as [[j1 t1]|],
             (list_find _ ths) as [[j2 t2]|]; simpl in *; congruence.
Qed.

Lemma first_row_Some a t ths i :
  first_row a t ths = Some i →
  ∃ th, list_find (same_thread a t) ths = Some (i, th).
Proof.
  unfold first_row. destruct (list_find _ ths) as [[j th]|]; [|done].
  intros [= <-]. by exists th.
Qed.

Lemma first_row_app_l a t ths new i :
  first_row a t ths = Some i → first_row a t (ths ++ new) = Some i.
Proof.
  intros [th Hf]%first_row_Some. unfold first_row.
  by erewrite list_find_app_l by done.
Qed.

Lemma first_row_new a t ths :
  list_find (same_thread a t) ths = None →
  ∀ ms, first_row a t (ths ++ [mkThread a t ms]) = Some (length ths).
Proof.
  intros Hnone ms. unfold first_row.
  rewrite list_find_app_r by done. cbn [list_find].
  by rewrite decide_True by done.
Qed.

Lemma detect_thread_filed a msg w :
  message_account msg = a → cache_first a w →
  threads (db (world (detect_thread msg w))) = filed (threads (db w)) msg
  ∧ cache_first a (world (detect_thread msg w)).
Proof.
  intros Ha Hc. unfold detect_thread, filed. rewrite run_bind. mrun.
  destruct (detector_cache w !! g_thrid msg) as [i|] eqn:Hhit.
  - unfold update_from_message. mrun.
    destruct (first_row_Some _ _ _ _ (Hc _ _ Hhit)) as [th Hf].
    rewrite Ha, Hf. split; [done|].
    intros t j Hj. mrun. rewrite first_row_alter. by apply Hc.
  - unfold Thread_from_message. repeat (rewrite run_bind; mrun).
    rewrite Ha.
    destruct (list_find (same_thread a (g_thrid msg)) (threads (db w)))
      as [[i th]|] eqn:Hf; repeat (rewrite run_bind; mrun).
    + split; [done|]. intros t j. simpl.
      rewrite first_row_alter.
      destruct (decide (t = g_thrid msg)) as [->|Hne].
      * rewrite lookup_insert_eq. intros [= <-].
        unfold first_row. by rewrite Hf.
      * rewrite lookup_insert_ne by done. apply Hc.
    + split; [done|]. intros t j. simpl.
      destruct (decide (t = g_thrid msg)) as [->|Hne].
      * rewrite lookup_insert_eq. intros [= <-]. by apply first_row_new.
      * rewrite lookup_insert_ne by done. intros Hj.
        apply first_row_app_l. by apply Hc.
Qed.

Lemma detected_filed a : ∀ msgs w,
  (∀ msg, msg ∈ msgs → message_account msg = a) → cache_first a w →
  threads (db (detected msgs w)) = foldl filed (threads (db w)) msgs
  ∧ cache_first a (detected msgs w).
Proof.
  induction msgs as [|msg msgs IH]; intros w Ha Hc; cbn [detected foldl];
    [done|].
  destruct (detect_thread_filed a msg w) as [Ht Hc']; [apply Ha; by left|done|].
  destruct (IH (world (detect_thread msg w))) as [Ht' Hc''];
    [intros m Hm; apply Ha; by right|done|].
  unfold detected in Ht'. by rewrite Ht', Ht.
Qed.

(** The cache of a batch holds the thread ids of the messages gone through. *)
Lemma detected_cache_dom : ∀ msgs w,
  dom (detector_cache (detected msgs w))
  = dom (detector_cache w) ∪ list_to_set (g_thrid <$> msgs).
Proof.
  induction msgs as [|msg msgs IH]; intros w; cbn [detected foldl].
  - simpl. by rewrite (right_id_L ∅ (∪)).
  - fold (detected msgs (world (detect_thread msg w))). rewrite IH.
    rewrite fmap_cons, list_to_set_cons.
    pose proof (detect_thread_spec msg w) as Hs. cbv zeta in Hs.
    destruct (detector_cache w !! g_thrid msg) as [i|] eqn:Hhit.
    + destruct Hs as (_ & _ & ->).
      apply elem_of_dom_2 in Hhit.
      rewrite (assoc_L (∪)). f_equal.
      apply set_eq. intros x. rewrite elem_of_union, elem_of_singleton.
      split; [by left|]. by intros [?| ->].
    + destruct Hs as (thread & th & -> & _). rewrite dom_insert_L.
      rewrite (assoc_L (∪)). f_equal. by rewrite (comm_L (∪)).
Qed.

(** A round on a non-empty inbox. *)
Lemma detector_step_world msgs event rest w :
  inbox w = (msgs, event) :: rest →
  world (detector_step w)
  = set_events_set (cons event)
      (set_detector_cache ∅ (detected msgs (set_inbox (fun _ => rest) w))).
Proof.
  intros Hq. unfold detector_step. rewrite run_bind. mrun. rewrite Hq.
  rewrite run_bind. mrun. rewrite run_bind, for_each_detected. mrun.
  unfold clear_cache, event_set. repeat (rewrite run_bind; mrun). done.
Qed.

Lemma detector_run_idle : ∀ rounds w,
  inbox w = [] → world (detector_run rounds w) = w.
Proof.
  induction rounds as [|n IH]; intros w Hq; cbn [detector_run]; [done|].
  rewrite run_bind, (detector_step_idle w Hq). mrun. by apply IH.
Qed.

Lemma detector_run_filed a : ∀ rounds w,
  detector_cache w = ∅ →
  (∀ batch msg, batch ∈ take rounds (inbox w) → msg ∈ batch.1 →
                message_account msg = a) →
  threads (db (world (detector_run rounds w)))
  = foldl filed (threads (db w)) (take rounds (inbox w) ≫= fst).
Proof.
  induction rounds as [|n IH]; intros w Hc Ha; cbn [detector_run].
  - by rewrite take_0.
  - rewrite run_bind.
    destruct (inbox w) as [|[msgs event] rest] eqn:Hq.
    + rewrite (detector_step_idle w Hq). mrun.
      by rewrite (detector_run_idle n w Hq).
    + destruct (detector_step_batch msgs event rest w Hq)
        as (Hr1 & _ & Hi1 & Hk1 & _).
      rewrite Hr1. mrun. rewrite firstn_cons in Ha |- *.
      rewrite IH; [|done|].
      * rewrite Hi1. rewrite bind_cons, foldl_app. f_equal.
        rewrite (detector_step_world msgs event rest w Hq).
        cbn [set_events_set set_detector_cache db].
        destruct (detected_filed a msgs (set_inbox (fun _ => rest) w))
          as [Ht _]; [|by intros t i; cbn; rewrite Hc|done].
        intros msg Hmsg. apply (Ha (msgs, event)); [by left|done].
      * rewrite Hi1. intros batch msg Hb. apply Ha. by right.
Qed.

(** C3. After any number of rounds of the detector of an account, on any
    inbox, there is at most one [Thread] row for every account and provider
    thread id, provided this held before (as it does of an empty table); the
    batches are taken in the order of the inbox, the event of every batch
    taken is set, and the cache is empty after a batch.  Every message of
    every batch taken is filed under its key, in the order of the batches and
    of the messages in them, when the detector starts between two batches and
    the messages are those of its account.  A round runs the messages of its
    batch through [detect_thread] one by one, clears the cache and sets the
    event; the thread id of a message is in the cache of the batch exactly
    when a message before it in the batch has the same thread id.  A message
    whose thread id is in the cache updates the cached thread and adds no
    row; otherwise a thread with the key of the message is loaded or created
    and cached. *)
Theorem thread_detector_unique_threads (rounds : nat) (w : World) :
  unique_threads w →
  let r := detector_run rounds w in
  let taken := take rounds (inbox w) in
  result r = inr tt
  ∧ unique_threads (world r)
  ∧ inbox (world r) = drop rounds (inbox w)
  ∧ (∀ batch, batch ∈ taken →
       batch.2 ∈ events_set (world r)
       ∧ EvEventSet batch.2 ∈ events r)
  ∧ ((0 < rounds)%nat → inbox w ≠ [] → detector_cache (world r) = ∅)
  ∧ (detector_cache w = ∅ →
     ∀ a, (∀ batch msg, batch ∈ taken → msg ∈ batch.1 →
                        message_account msg = a) →
       threads (db (world r)) = foldl filed (threads (db w)) (taken ≫= fst))
  ∧ (∀ msgs event rest w0,
       inbox w0 = (msgs, event) :: rest →
       let w1 := set_inbox (fun _ => rest) w0 in
       world (detector_step w0)
       = set_events_set (cons event) (set_detector_cache ∅ (detected msgs w1))
       ∧ (detector_cache w0 = ∅ →
          ∀ pre msg post, msgs = pre ++ msg :: post →
            is_Some (detector_cache (detected pre w1) !! g_thrid msg)
            ↔ g_thrid msg ∈ g_thrid <$> pre))
  ∧ (∀ msg w',
       let r' := detect_thread msg w' in
       (unique_threads w' → unique_threads (world r'))
       ∧ match detector_cache w' !! g_thrid msg with
         | Some thread =>
             r' = update_from_message thread msg w'
             ∧ thread_key <$> threads (db (world r'))
               = thread_key <$> threads (db w')
             ∧ detector_cache (world r') = detector_cache w'
         | None =>
             ∃ thread th,
               detector_cache (world r')
               = <[g_thrid msg := thread]> (detector_cache w')
               ∧ threads (db (world r')) !! thread = Some th
               ∧ thread_key th = (message_account msg, g_thrid msg)
               ∧ message_id msg ∈ thread_messages th
         end).
Proof.
  intros Hu r taken.
  destruct (detector_run_spec rounds w)
    as (Hr & He & Hi & Hs & _ & _ & _ & Hu' & Hk).
  split_and!; try done.
  - by apply Hu'.
  - intros batch Hb. split.
    + fold r in Hs. rewrite Hs. apply elem_of_app. left.
      apply elem_of_reverse. apply list_elem_of_fmap. by exists batch.
    + fold r in He. rewrite He. apply list_elem_of_bind.
      exists batch. split; [|done]. right. by left.
  - intros Hc a Ha. by apply (detector_run_filed a).
  - intros msgs event rest w0 Hq w1. split.
    + by apply detector_step_world.
    + intros Hc pre msg post _.
      rewrite <- elem_of_dom, detected_cache_dom.
      subst w1. cbn [set_inbox detector_cache]. rewrite Hc, dom_empty_L.
      rewrite (left_id_L ∅ (∪)). by rewrite elem_of_list_to_set.
  - intros msg w' r'. split.
    + apply detect_thread_unique.
    + apply detect_thread_spec.
Qed.

End Detector.


(** ** Downloading a chunk *)

Section Download.

Variable env : Env.

Lemma safe_download_keeps_committed uids :
  keeps committed (safe_download env uids).
Proof.
  unfold keeps, safe_download, crispin_uids, selected_info,
    selected_remote_folder, account_create_message.
  preserves_tac.
Qed.

Lemma safe_download_emits_fetch uids : emits is_fetch (safe_download env uids).
Proof.
  unfold safe_download, crispin_uids, selected_info,
    selected_remote_folder, account_create_message.
  emits_tac. by eexists _, _.
Qed.

#[local] Abbreviation saved := (saved env).

Lemma Forall_or_Exists_fails (ps : list Part) :
  Forall (fun p => ¬ save_fails env p) ps ∨ Exists (save_fails env) ps.
Proof.
  induction ps as [|p ps [IH|IH]]; [by left| |right; by right].
  destruct (decide (save_fails env p)); [right; by left|left; by constructor].
Qed.

Lemma Forall_Exists_fails (ps : list Part) :
  Forall (fun p => ¬ save_fails env p) ps → Exists (save_fails env) ps → False.
Proof.
  induction 1 as [|p ps Hp _ IH]; intros Hex.
  - by apply Exists_nil in Hex.
  - apply Exists_cons in Hex as [?|?]; auto.
Qed.

Lemma no_failed_greenlet (oks : list bool) :
  filter (fun ok => ok = false) oks = [] ↔ Forall (fun ok => ok = true) oks.
Proof.
  induction oks as [|[] oks IH].
  - done.
  - rewrite filter_cons_False by done. rewrite IH. split.
    + by constructor.
    + by intros [_ ?]%Forall_cons.
  - rewrite filter_cons_True by done. split; [done|].
    by intros [? _]%Forall_cons.
Qed.

Lemma save_part_spec part w :
  let r := save_part env part w in
  result r = inr (saved part)
  ∧ events r = [EvBlobPut (part_key part) (saved part)]
  ∧ committed (world r) = committed w.
Proof.
  unfold save_part, saved.
  destruct (decide (part_key part ∈ failing_blobs env)) as [Hin|Hin].
  - rewrite bool_decide_eq_true_2 by done.
    rewrite bool_decide_eq_false_2 by (by intros ?). done.
  - rewrite bool_decide_eq_false_2 by done.
    rewrite bool_decide_eq_true_2 by done. done.
Qed.

Lemma save_part_list_spec : ∀ (ps : list Part) w,
  let r := for_list ps (save_part env) w in
  result r = inr (saved <$> ps)
  ∧ events r = (fun p => EvBlobPut (part_key p) (saved p)) <$> ps
  ∧ committed (world r) = committed w.
Proof.
  induction ps as [|p ps IH]; intros w; cbn [for_list]; [done|].
  destruct (save_part_spec p w) as (Hr & He & Hc).
  rewrite run_bind, Hr. mrun. rewrite run_bind.
  destruct (IH (world (save_part env p w))) as (Hr' & He' & Hc').
  rewrite Hr'. mrun. rewrite He, He', Hc', Hc, app_nil_r. done.
Qed.

Lemma gevent_check_join_spec (oks : list bool) errmsg w :
  _gevent_check_join oks errmsg w =
  if bool_decide (Forall (fun ok => ok = true) oks)
  then mkRes (inr tt) w []
  else mkRes (inl (SyncException "Fatal error encountered")) w [].
Proof.
  unfold _gevent_check_join.
  destruct (decide (Forall (fun ok => ok = true) oks)) as [Hall|Hex].
  - rewrite (bool_decide_eq_true_2 _ Hall).
    rewrite bool_decide_eq_false_2; [done|].
    intros Hne. apply Hne. by apply no_failed_greenlet.
  - rewrite (bool_decide_eq_false_2 _ Hex).
    rewrite bool_decide_eq_true_2; [done|].
    intros Hnil. apply Hex. by apply no_failed_greenlet.
Qed.

(** The saves of the parts of one message: every part that has data is
    saved; the message passes when no save raised. *)
Lemma save_parts_spec msg w :
  let r := save_parts env msg w in
  let ps := filter has_data (parts msg) in
  committed (world r) = committed w
  ∧ Forall is_put (events r)
  ∧ (Forall (fun p => ¬ save_fails env p) ps →
       result r = inr tt ∧ events r = put_ok <$> ps)
  ∧ (Exists (save_fails env) ps →
       result r = inl (SyncException "Fatal error encountered")).
Proof.
  intros r ps. unfold r, save_parts. fold ps.
  destruct (save_part_list_spec ps w) as (Hr & He & Hc).
  rewrite run_bind, Hr. mrun. rewrite gevent_check_join_spec.
  assert (Hall : Forall (fun ok => ok = true) (saved <$> ps)
                 ↔ Forall (fun p => ¬ save_fails env p) ps).
  { rewrite Forall_fmap. apply Forall_proper; [|done].
    intros p. unfold SyncProps.saved, save_fails. simpl.
    by rewrite bool_decide_eq_true. }
  assert (Hputs : Forall is_put
            ((fun p => EvBlobPut (part_key p) (saved p)) <$> ps)).
  { apply Forall_fmap, Forall_true. intros p. by eexists _, _. }
  destruct (decide (Forall (fun ok => ok = true) (saved <$> ps))) as [Hok|Hko].
  - rewrite (bool_decide_eq_true_2 _ Hok). mrun.
    rewrite app_nil_r, He. apply Hall in Hok. split_and!; try done.
    + intros _. split; [done|].
      apply Forall_fmap_ext_1. eapply Forall_impl; [done|].
      intros p Hp. unfold put_ok, SyncProps.saved.
      by rewrite bool_decide_eq_true_2.
    + intros Hex. by destruct (Forall_Exists_fails ps).
  - rewrite (bool_decide_eq_false_2 _ Hko). mrun.
    rewrite app_nil_r, He. split_and!; try done.
    intros Hno. apply Hall in Hno. done.
Qed.

(** The saves of all messages of a chunk, message by message, up to the
    first message with a save that raises. *)
Lemma save_all_spec : ∀ (msgs : list Message) w,
  let r := for_each msgs (save_parts env) w in
  let ps := msgs ≫= fun msg => filter has_data (parts msg) in
  committed (world r) = committed w
  ∧ Forall is_put (events r)
  ∧ (Forall (fun p => ¬ save_fails env p) ps →
       result r = inr tt ∧ events r = put_ok <$> ps)
  ∧ (Exists (save_fails env) ps →
       result r = inl (SyncException "Fatal error encountered")).
Proof.
  induction msgs as [|msg msgs IH]; intros w; cbn [for_each mbind list_bind].
  - split_and!; try done. by intros ?%Exists_nil.
  - destruct (save_parts_spec msg w) as (Hc1 & Hp1 & Hok1 & Hko1).
    rewrite run_bind.
    destruct (Forall_or_Exists_fails (filter has_data (parts msg))) as [Hok|Hex].
    + destruct (Hok1 Hok) as [Hr1 He1]. rewrite Hr1. mrun.
      destruct (IH (world (save_parts env msg w))) as (Hc2 & Hp2 & Hok2 & Hko2).
      split_and!.
      * congruence.
      * apply Forall_app. done.
      * intros [_ Hall]%Forall_app. destruct (Hok2 Hall) as [-> ->].
        by rewrite He1, fmap_app.
      * intros [Hex|Hex]%Exists_app;
          [by destruct (Forall_Exists_fails _ Hok Hex)|].
        by apply Hko2.
    + rewrite (Hko1 Hex). mrun. split_and!; try done.
      intros [Hall _]%Forall_app. by destruct (Forall_Exists_fails _ Hall Hex).
Qed.

(** Waiting for the event of a batch that is in the inbox of the detector:
    the detector takes every batch of the inbox, sets the event, and the
    worker resumes. *)
Lemma event_wait_spec event w :
  event ∈ (inbox w).*2 →
  let r := event_wait event w in
  result r = inr tt
  ∧ Forall detection (events r)
  ∧ EvThreadsDetected event ∈ events r
  ∧ EvEventSet event ∈ events r
  ∧ committed (world r) = committed w
  ∧ folderitems (db (world r)) = folderitems (db w)
  ∧ messages (db (world r)) = messages (db w).
Proof.
  intros Hin. unfold event_wait. rewrite run_bind. mrun.
  destruct (detector_run_spec (length (inbox w)) w)
    as (Hr & He & _ & Hs & Hc & Hf & Hm & _).
  rewrite firstn_all in He, Hs.
  rewrite run_bind, Hr. mrun. rewrite run_bind. mrun.
  rewrite bool_decide_eq_true_2.
  2:{ rewrite Hs. apply elem_of_app. left. by apply elem_of_reverse. }
  mrun. rewrite !app_nil_r, He.
  apply list_elem_of_fmap in Hin as (batch & -> & Hb).
  split_and!; try done.
  - apply Forall_forall. intros e (b & He' & _)%list_elem_of_bind.
    apply elem_of_cons in He' as [->|He']; [done|].
    apply list_elem_of_singleton in He' as ->. done.
  - apply list_elem_of_bind. exists batch. split; [by left|done].
  - apply list_elem_of_bind. exists batch. split; [right; by left|done].
Qed.

Lemma not_commit_fetch (l : list Event) : Forall is_fetch l → EvCommit ∉ l.
Proof.
  intros Hl Hin. rewrite Forall_forall in Hl.
  by destruct (Hl _ Hin) as (? & ? & ?).
Qed.

Lemma not_commit_put (l : list Event) : Forall is_put l → EvCommit ∉ l.
Proof.
  intros Hl Hin. rewrite Forall_forall in Hl.
  by destruct (Hl _ Hin) as (? & ? & ?).
Qed.

(** C2. A chunk of [_download_new_messages] that returns has done, in this
    order: the fetch, a successful save of every part with data of every new
    message, the hand-over of the batch to the thread detector, the detection
    of the batch and the setting of its event, and then, as the last thing,
    the commit, after which the items of the chunk are committed.  A chunk
    that raises has committed nothing.  When the save of some part raises,
    the chunk raises [SyncException]. *)
Theorem download_commits_after_puts_and_threads uids w :
  let r := _download_new_messages env uids w in
  match result r with
  | inr items =>
      ∃ fetch detections event,
        events r = fetch ++ (put_ok <$> saved_parts items)
                     ++ [EvEnqueue event] ++ detections ++ [EvCommit]
        ∧ Forall is_fetch fetch
        ∧ Forall detection detections
        ∧ EvThreadsDetected event ∈ detections
        ∧ EvEventSet event ∈ detections
        ∧ Forall (fun p => ¬ save_fails env p) (saved_parts items)
        ∧ result (safe_download env uids w) = inr items
        ∧ committed (world r) = db (world r)
        ∧ items ⊆ folderitems (db (world r))
  | inl e => (EvCommit ∉ events r) ∧ committed (world r) = committed w
  end
  ∧ (∀ items, result (safe_download env uids w) = inr items →
       Exists (save_fails env) (saved_parts items) →
       result r = inl (SyncException "Fatal error encountered")).
Proof.
  intros r. unfold r, _download_new_messages. clear r.
  rewrite run_bind.
  pose proof (safe_download_keeps_committed uids w) as Hc0.
  pose proof (safe_download_emits_fetch uids w) as He0.
  destruct (result (safe_download env uids w)) as [e|items] eqn:Hsd.
  { mrun. split; [|done]. split; [by apply not_commit_fetch|done]. }
  set (w1 := world (safe_download env uids w)) in *.
  rewrite run_bind.
  destruct (save_all_spec (message <$> items) w1) as (Hc1 & He1 & Hok1 & Hko1).
  rewrite list_fmap_bind in Hok1, Hko1.
  change ((fun msg => filter has_data (parts msg)) ∘ message)
    with (fun item => filter has_data (parts (message item))) in Hok1, Hko1.
  fold (saved_parts items) in Hok1, Hko1.
  destruct (Forall_or_Exists_fails (saved_parts items)) as [Hok|Hex].
  2:{ rewrite (Hko1 Hex). mrun. split.
      - split; [|congruence]. intros [?|?]%elem_of_app.
        + by eapply not_commit_fetch.
        + by eapply not_commit_put.
      - intros items' [= <-] _. done. }
  destruct (Hok1 Hok) as [Hr1 Hev1]. rewrite Hr1.
  set (w2 := world (for_each (message <$> items) (save_parts env) w1)) in *.
  unfold new_Event, thread_callback, add_all, commit.
  repeat (rewrite run_bind; mrun).
  set (ev := next_event w2).
  set (w3 := set_inbox _ _).
  destruct (event_wait_spec ev w3) as (Hr3 & Hd3 & Ht3 & Hs3 & Hc3 & Hf3 & Hm3).
  { subst w3. mrun. rewrite fmap_app. apply elem_of_app. right. by left. }
  rewrite Hr3. repeat (rewrite run_bind; mrun). split.
  - exists (events (safe_download env uids w)), (events (event_wait ev w3)), ev.
    split_and!; try done.
    + mrun. rewrite Hev1, !app_nil_r. by rewrite <- !(assoc_L (++)).
    + mrun. intros item Hitem. apply elem_of_app. by right.
  - intros items' [= <-] Hex. by destruct (Forall_Exists_fails _ Hok Hex).
Qed.

End Download.

(** ** The state machine of a folder worker *)

Section StateMachine.

Variable env : Env.

#[local] Abbreviation row := (self_account_id env, self_folder_name env).

Lemma foldersync_state_run w state :
  foldersyncs (db w) !! row = Some state →
  foldersync_state env w = mkRes (inr state) w [].
Proof.
  intros Hrow. unfold foldersync_state. rewrite run_bind. mrun.
  by rewrite Hrow.
Qed.

(** A handler that returns a state has it assigned to the row and to
    [self.state]; a handler that raises anything but [UIDInvalid] stops the
    worker. *)
Lemma run_handler_returns handler w state :
  result (handler w) = inr state →
  let r := run_handler env handler w in
  result r = inr tt
  ∧ events r = events (handler w)
  ∧ foldersyncs (db (world r)) !! row = Some state
  ∧ self_state (world r) = Some state
  ∧ folderitems (db (world r)) = folderitems (db (world (handler w))).
Proof.
  intros Hh. unfold run_handler, set_foldersync_state. rewrite Hh.
  repeat (rewrite run_bind; mrun). rewrite app_nil_r, lookup_insert_eq. done.
Qed.

Lemma run_handler_raises handler w e :
  result (handler w) = inl e →
  (∀ folder remote cached, e ≠ UIDInvalid folder remote cached) →
  run_handler env handler w = mkRes (inl e) (world (handler w)) (events (handler w)).
Proof.
  intros Hh He. unfold run_handler. rewrite Hh.
  destruct e; try done. by destruct (He folder remote_uidvalidity cached_uidvalidity).
Qed.

(** What [initial_sync] returns when it returns. *)
Lemma initial_sync_returns w state :
  result (initial_sync env w) = inr state →
  state = if bool_decide (self_folder_name env ∈ poll_folders (remote env))
          then "poll" else "finish".
Proof.
  unfold initial_sync, rm_cache, account_all_uids.
  rewrite run_bind. mrun. rewrite run_bind.
  match goal with |- context [result (with_lease ?b ?w0)] =>
    destruct (result (with_lease b w0)) as [e|[]] end; [done|].
  repeat (rewrite run_bind; mrun).
  destruct (decide (self_folder_name env ∈ poll_folders (remote env))) as [Hin|Hin].
  - rewrite bool_decide_eq_false_2 by (by intros ?).
    rewrite bool_decide_eq_true_2 by done. mrun. congruence.
  - rewrite bool_decide_eq_true_2 by done.
    rewrite (bool_decide_eq_false_2 _ Hin). mrun. congruence.
Qed.

Lemma run_iteration_with handler w state0 state :
  foldersyncs (db w) !! row = Some state0 →
  state_handlers env state0 = Some handler →
  result (handler w) = inr state →
  let r := run_iteration env w in
  result r = inr (bool_decide (state = "finish"))
  ∧ events r = events (handler w) ++ [EvCommit]
  ∧ foldersyncs (committed (world r)) !! row = Some state
  ∧ foldersyncs (db (world r)) !! row = Some state
  ∧ self_state (world r) = Some state.
Proof.
  intros Hrow Hh Hres. unfold run_iteration.
  rewrite run_bind, (foldersync_state_run w state0 Hrow). mrun.
  rewrite Hh. rewrite run_bind. mrun. rewrite run_bind.
  destruct (run_handler_returns handler w state Hres) as (Hr & He & Hf & Hs & _).
  rewrite Hr. unfold commit. repeat (rewrite run_bind; mrun).
  rewrite He, Hs, Hf, !app_nil_r.
  split_and!; try done.
  destruct (decide (state = "finish")) as [->|Hne].
  - done.
  - rewrite !bool_decide_eq_false_2; [done|done|]. by intros [= ?].
Qed.

(** A worker whose row says ['finish'] returns in its first round. *)
Lemma run_finish w rounds :
  foldersyncs (db w) !! row = Some "finish" →
  let r := _run env (S rounds) w in
  result r = inr (Some tt) ∧ events r = [EvCommit].
Proof.
  intros Hrow. unfold _run, load_foldersync.
  repeat (rewrite run_bind; mrun). rewrite Hrow. mrun.
  rewrite (foldersync_state_run w "finish" Hrow). mrun.
  set (w1 := set_self_state _ _).
  assert (Hrow1 : foldersyncs (db w1) !! row = Some "finish") by done.
  destruct (run_iteration_with (mret "finish") w1 "finish" "finish" Hrow1)
    as (Hr & He & _); [done..|].
  cbn [run_loop]. rewrite run_bind, Hr. mrun. rewrite He. done.
Qed.

(** C8. When a worker's row says ['initial'] and [initial_sync] returns, the
    state returned is ['poll'] for a folder of the provider's poll folders
    and ['finish'] otherwise; the round of the worker assigns that state to
    the row and to the worker, commits it, and the worker returns in this
    round exactly when the state is ['finish'].  A worker that starts on a row
    that says ['finish'] runs no handler work and returns. *)
Theorem initial_sync_next_state w state rounds :
  foldersyncs (db w) !! row = Some "initial" →
  result (initial_sync env w) = inr state →
  let r := run_iteration env w in
  state = (if bool_decide (self_folder_name env ∈ poll_folders (remote env))
           then "poll" else "finish")
  ∧ result r = inr (bool_decide (state = "finish"))
  ∧ foldersyncs (committed (world r)) !! row = Some state
  ∧ foldersyncs (db (world r)) !! row = Some state
  ∧ self_state (world r) = Some state
  ∧ (state = "finish" → result (run_loop env (S rounds) w) = inr (Some tt))
  ∧ (∀ w', foldersyncs (db w') !! row = Some "finish" →
           result (_run env (S rounds) w') = inr (Some tt)
           ∧ events (_run env (S rounds) w') = [EvCommit]).
Proof.
  intros Hrow Hres r.
  destruct (run_iteration_with (initial_sync env) w "initial" state Hrow)
    as (Hr & He & Hc & Hd & Hs); [done..|].
  split_and!; try done.
  - by apply (initial_sync_returns w).
  - intros ->. cbn [run_loop]. rewrite run_bind. subst r. by rewrite Hr.
  - intros w' Hrow'. by apply run_finish.
Qed.

(** C1 (what the code does). A worker whose row says ['initial uidinvalid']
    or ['poll uidinvalid'] calls [resync_uids], which raises
    [NotImplementedError]: the worker stops with that exception, the row
    keeps its state, no UID is fetched and no [FolderItem] is rewritten. *)
Theorem resync_uids_not_implemented w previous_state rounds :
  previous_state = "initial" ∨ previous_state = "poll" →
  foldersyncs (db w) !! row = Some (previous_state +:+ " uidinvalid") →
  let r := _run env (S rounds) w in
  result r = inl NotImplementedError
  ∧ events r = []
  ∧ foldersyncs (db (world r)) !! row = Some (previous_state +:+ " uidinvalid")
  ∧ folderitems (db (world r)) = folderitems (db w).
Proof.
  intros Hprev Hrow. unfold _run, load_foldersync.
  repeat (rewrite run_bind; mrun). rewrite Hrow. mrun.
  rewrite (foldersync_state_run w _ Hrow). mrun.
  set (w1 := set_self_state _ _).
  assert (Hrow1 : foldersyncs (db w1) !! row
                  = Some (previous_state +:+ " uidinvalid")) by done.
  cbn [run_loop]. unfold run_iteration.
  rewrite run_bind. rewrite run_bind, (foldersync_state_run w1 _ Hrow1). mrun.
  assert (Hh : state_handlers env (previous_state +:+ " uidinvalid")
               = Some (resync_uids previous_state)).
  { by destruct Hprev as [-> | ->]. }
  rewrite Hh. rewrite run_bind. mrun. rewrite run_bind.
  rewrite (run_handler_raises _ w1 NotImplementedError); [|done..].
  done.
Qed.

End StateMachine.

(** ** The lease of a poll pass *)

Section Lease.

Variable env : Env.

Lemma quiet_detector_run rounds : emits quiet (detector_run rounds).
Proof.
  induction rounds as [|n IH]; cbn [detector_run]; [apply emits_ret|].
  apply emits_bind; [|done].
  unfold detector_step. unfold_collaborators. emits_tac.
Qed.

Lemma quiet_select_folder folder : emits quiet (select_folder env folder).
Proof.
  unfold select_folder, uidvalidity_callback. unfold_collaborators. emits_tac.
Qed.

Lemma quiet_download_new_messages uids :
  emits quiet (_download_new_messages env uids).
Proof.
  unfold _download_new_messages, safe_download, save_parts, event_wait.
  unfold_collaborators. emits_tac. apply quiet_detector_run.
Qed.

Lemma quiet_deduplicate_message_download md uids :
  emits quiet (_deduplicate_message_download env md uids).
Proof.
  unfold _deduplicate_message_download, _add_new_folderitem.
  unfold_collaborators. emits_tac.
Qed.

Lemma quiet_update_metadata uids : emits quiet (_update_metadata env uids).
Proof. unfold _update_metadata. unfold_collaborators. emits_tac. Qed.

Lemma quiet_download_expanded_threads md uids flags :
  emits quiet (_download_expanded_threads env md uids flags).
Proof.
  unfold _download_expanded_threads, group_by_thrid.
  unfold_collaborators.
  emits_tac;
    first [ apply quiet_select_folder
          | apply quiet_deduplicate_message_download
          | apply quiet_download_new_messages ].
Qed.

Lemma quiet_highestmodseq_update last_highestmodseq :
  emits quiet (_highestmodseq_update env last_highestmodseq).
Proof.
  unfold _highestmodseq_update, _remove_deleted_messages, _update_validity.
  unfold_collaborators.
  emits_tac;
    first [ apply quiet_download_expanded_threads
          | apply quiet_deduplicate_message_download
          | apply quiet_download_new_messages
          | apply quiet_update_metadata ].
Qed.

(** While a lease is held and nothing takes or returns one, a sleep makes
    the trace one that sleeps holding a lease. *)
Lemma sleeps_holding_lease_quiet held seconds : ∀ before rest,
  Forall quiet before → (0 < held)%nat →
  sleeps_holding_lease held (before ++ EvSleep seconds :: rest) = true.
Proof.
  induction before as [|e before IH]; intros rest Hq Hheld.
  - simpl. by rewrite bool_decide_eq_true_2.
  - apply Forall_cons in Hq as [He Hq]. destruct e; try done; by apply IH.
Qed.

Lemma with_lease_run {A} (body : M A) w :
  with_lease body w
  = mkRes (result (body w)) (world (body w))
      (EvLease :: events (body w) ++ [EvRelease]).
Proof. reflexivity. Qed.

Lemma sleeps_last_emit seconds : sleeps_last seconds (emit (EvSleep seconds)).
Proof. intros w. exists []. split; [constructor|done]. Qed.

Lemma sleeps_last_bind seconds {A B} (m : M A) (k : A → M B) :
  emits quiet m → (∀ x, sleeps_last seconds (k x)) →
  sleeps_last seconds (m ≫= k).
Proof.
  intros Hm Hk w. rewrite run_bind. specialize (Hm w).
  destruct (result (m w)) as [e|x]; mrun.
  - by exists (events (m w)).
  - destruct (Hk x (world (m w))) as (before & Hq & He).
    exists (events (m w) ++ before). split; [by apply Forall_app|].
    rewrite He. destruct (result (k x (world (m w)))); [done|].
    by rewrite <- (assoc_L (++)).
Qed.

(** C5 (amended). Every pass of [poll] takes the lease first and returns it
    last, whether the pass returns or raises, and takes or returns no lease
    in between.  A pass that returns has slept for [poll_frequency] as its
    last act before the lease is returned, so the lease is held across the
    sleep. *)
Theorem poll_sleeps_inside_lease w :
  let r := poll env w in
  ∃ body,
    events r = EvLease :: body ++ [EvRelease]
    ∧ Forall (fun e => e ≠ EvLease ∧ e ≠ EvRelease) body
    ∧ ∀ state, result r = inr state →
        state = "poll"
        ∧ (∃ before, body = before ++ [EvSleep (poll_frequency env)]
                     ∧ Forall quiet before)
        ∧ sleeps_holding_lease 0 (events r) = true.
Proof.
  intros r.
  assert (Hr : ∃ body : M unit,
            sleeps_last (poll_frequency env) body
            ∧ events r = EvLease :: events (body w) ++ [EvRelease]
            ∧ result r = match result (body w) with
                         | inl e => inl e
                         | inr _ => inr "poll"
                         end).
  { subst r. unfold poll, get_uidvalidity. rewrite run_bind. mrun.
    rewrite run_bind.
    match goal with |- context [with_lease ?b w] => set (body := b) end.
    rewrite (with_lease_run body w). mrun. exists body. split.
    - unfold body. unfold_collaborators.
      repeat first
        [ apply sleeps_last_emit
        | apply sleeps_last_bind;
          [emits_tac;
           first [ apply quiet_select_folder
                 | apply quiet_highestmodseq_update ]
          |intros ?] ].
    - destruct (result (body w)); mrun; by rewrite ?app_nil_r. }
  clearbody r. destruct Hr as (body & Hbody & He & Hres).
  destruct (Hbody w) as (before & Hqb & Hev).
  assert (Hnolease : Forall (fun e => e ≠ EvLease ∧ e ≠ EvRelease) before).
  { eapply Forall_impl; [done|]. by intros []. }
  exists (events (body w)). rewrite Hres, He, Hev.
  destruct (result (body w)) as [e|[]].
  - split_and!; done.
  - split_and!; [done| |].
    + apply Forall_app. split; [done|]. by repeat constructor.
    + intros state [= <-]. split_and!.
      * done.
      * by exists before.
      * rewrite <- (assoc_L (++)). cbn [sleeps_holding_lease app].
        apply sleeps_holding_lease_quiet; [done|lia].
Qed.

End Lease.

(** ** Strings and cache keys *)

Lemma append_nil (b : string) : "" +:+ b = b.
Proof. reflexivity. Qed.

Lemma append_cons (x : ascii) (a b : string) :
  String x a +:+ b = String x (a +:+ b).
Proof. reflexivity. Qed.

Lemma append_assoc (a b c : string) : (a +:+ b) +:+ c = a +:+ (b +:+ c).
Proof.
  induction a as [|x a IH]; [done|]. rewrite !append_cons. by f_equal.
Qed.

Lemma append_length (a b : string) :
  String.length (a +:+ b) = (String.length a + String.length b)%nat.
Proof.
  induction a as [|x a IH]; [done|]. rewrite append_cons. simpl. by f_equal.
Qed.

(** Two strings that are equal have equal tails of equal length. *)
Lemma append_same_tail : ∀ (p1 p2 t1 t2 : string),
  String.length t1 = String.length t2 →
  p1 +:+ t1 = p2 +:+ t2 → t1 = t2.
Proof.
  induction p1 as [|x p1 IH]; intros [|y p2] t1 t2 Hlen Heq;
    rewrite ?append_nil, ?append_cons in Heq.
  - done.
  - subst t1. simpl in Hlen. rewrite append_length in Hlen. lia.
  - subst t2. simpl in Hlen. rewrite append_length in Hlen. lia.
  - injection Heq as _ Heq. by eapply IH.
Qed.

Lemma endswith_slash_append (p : string) :
  endswith_slash p = true → ∃ q, p = q +:+ "/".
Proof.
  induction p as [|c p IH]; simpl; [done|].
  destruct p as [|c' p'].
  - intros Hc. apply Ascii.eqb_eq in Hc as ->. by exists "".
  - intros Hp. destruct (IH Hp) as [q Hq]. exists (String c q).
    rewrite append_cons. by rewrite <- Hq.
Qed.

(** Whatever the account and the folder, the key read by
    [_retrieve_g_metadata_cache] ends in ["/remote_g_metadata"] or is
    ["remote_g_metadata"] itself, and the key written by
    [_update_g_metadata_cache] ends in ["_remote_g_metadata"]. *)
Lemma cache_keys_differ (env : Env) :
  updated_g_metadata_key env ≠ remote_g_metadata_key env.
Proof.
  unfold updated_g_metadata_key, remote_g_metadata_key, os_path_join.
  cbn [foldl str_join].
  set (a := email_address (account env)).
  set (f := self_folder_name env).
  set (p := path_join2 (str (account_id (account env))) f).
  replace (a +:+ "_" +:+ f +:+ "_" +:+ "remote_g_metadata")
    with ((a +:+ "_" +:+ f) +:+ "_remote_g_metadata")
    by (by rewrite !append_assoc).
  assert (Hs : startswith "/" "remote_g_metadata" = false) by reflexivity.
  unfold path_join2 at 1. rewrite Hs. clear Hs.
  destruct (bool_decide (p = "") || endswith_slash p) eqn:Hp.
  - apply orb_true_iff in Hp as [Hp|Hp].
    + apply bool_decide_eq_true in Hp. rewrite Hp, append_nil.
      intros Heq. apply (f_equal String.length) in Heq.
      rewrite append_length in Heq. simpl in Heq. lia.
    + apply endswith_slash_append in Hp as [q ->].
      rewrite (append_assoc q "/" "remote_g_metadata").
      intros Heq.
      by apply (append_same_tail (a +:+ "_" +:+ f) q
                  "_remote_g_metadata" ("/" +:+ "remote_g_metadata")) in Heq.
  - intros Heq.
    by apply (append_same_tail (a +:+ "_" +:+ f) p
                "_remote_g_metadata" ("/" +:+ "remote_g_metadata")) in Heq.
Qed.

Section CacheKeys.

Variable env : Env.

Lemma selected_info_keeps_world : keeps (fun w => w) (selected_info).
Proof. unfold keeps, selected_info. preserves_tac. Qed.

Lemma crispin_new_and_updated_uids_keeps_world modseq :
  keeps (fun w => w) (crispin_new_and_updated_uids env modseq).
Proof. unfold keeps. unfold_collaborators. preserves_tac. Qed.

Lemma crispin_g_metadata_keeps_world uids :
  keeps (fun w => w) (crispin_g_metadata env uids).
Proof. unfold keeps. unfold_collaborators. preserves_tac. Qed.

Lemma crispin_all_uids_keeps_world :
  keeps (fun w => w) (crispin_all_uids env).
Proof. unfold keeps. unfold_collaborators. preserves_tac. Qed.

Lemma update_metadata_keeps_cache uids :
  keeps cache (_update_metadata env uids).
Proof. unfold keeps, _update_metadata. unfold_collaborators. preserves_tac. Qed.

(** C6 (what the code does). [_update_g_metadata_cache] writes the updated
    map under the key built with ["_".join] from the e-mail address, which is
    never the key built with [os.path.join] from the account id that
    [initial_sync] writes, [_retrieve_g_metadata_cache] reads and the final
    [rm_cache] removes: the entry under the key that is read is left as it
    was, and the updated map sits under the other key. *)
Theorem update_g_metadata_cache_writes_other_key remote_g_metadata local_uids w :
  let r := _update_g_metadata_cache env remote_g_metadata local_uids w in
  updated_g_metadata_key env ≠ remote_g_metadata_key env
  ∧ cache (world r) !! remote_g_metadata_key env
    = cache w !! remote_g_metadata_key env
  ∧ ∀ updated, result r = inr updated →
      cache (world r) !! updated_g_metadata_key env = Some updated.
Proof.
  intros r. pose proof (cache_keys_differ env) as Hne.
  split_and!; [done| |].
  - subst r.
    assert (Hk : keeps (fun w => cache w !! remote_g_metadata_key env)
                   (_update_g_metadata_cache env remote_g_metadata local_uids)).
    { unfold keeps, _update_g_metadata_cache, _update_metadata.
      unfold_collaborators. preserves_tac.
      mrun. by rewrite lookup_insert_ne. }
    apply Hk.
  - intros updated Hres. subst r. revert Hres.
    unfold _update_g_metadata_cache.
    intros (s & _ & Hres & ->)%bind_inr_inv.
    rewrite (selected_info_keeps_world w) in *.
    apply bind_inr_inv in Hres as (modified & _ & Hres & ->).
    rewrite (crispin_new_and_updated_uids_keeps_world _ w) in *.
    destruct (_new_or_updated modified local_uids) as [new upd].
    apply bind_inr_inv in Hres as (new_metadata & _ & Hres & ->).
    rewrite (crispin_g_metadata_keeps_world _ w) in *.
    apply bind_inr_inv in Hres as (all_uids & _ & Hres & ->).
    rewrite (crispin_all_uids_keeps_world w) in *.
    apply bind_inr_inv in Hres as ([] & _ & Hres & ->).
    apply bind_inr_inv in Hres as ([] & _ & Hres & ->).
    set (w1 := world (set_cache _ _ w)) in *.
    pose proof (preserves_for_each _ (chunk upd (5 * CHUNK_SIZE env)) _
                  update_metadata_keeps_cache w1) as Hc.
    cbv beta in Hc. mrun. rewrite Hc. injection Hres as <-.
    subst w1. unfold set_cache. repeat (rewrite run_bind; mrun).
    by rewrite lookup_insert_eq.
Qed.

End CacheKeys.

(** ** SyncService.stop_sync *)

(** C7 (what the code does). When the first account that the query of
    [stop_sync] yields has no monitor, the [return] inside the loop ends the
    call: the result is the string ["OK sync stopped already"] and not a
    result per account, and no account is stopped, whatever its place in the
    table. *)
Theorem stop_sync_returns_at_idle_account fqdn email sv i account refs :
  query_accounts email (imapaccounts sv) = i :: refs →
  imapaccounts sv !! i = Some account →
  account_id account ∉ dom (monitors sv) →
  stop_sync fqdn email sv = (Str "OK sync stopped already", sv).
Proof.
  intros Hq Hi Hidle. unfold stop_sync. rewrite Hq.
  cbn [stop_sync_loop]. rewrite Hi.
  by rewrite bool_decide_eq_true_2.
Qed.

(** [stop_sync()] on [Scenarios.service]: the idle account comes first, and
    the account that syncs on this host keeps its monitor, its host and its
    lock, and is sent nothing. *)
Lemma stop_sync_returns_at_idle_account_witness :
  stop_sync "host1" None Scenarios.service
  = (Str "OK sync stopped already", Scenarios.service).
Proof.
  apply (stop_sync_returns_at_idle_account "host1" None Scenarios.service
           0%nat Scenarios.idle_account [1%nat]).
  - reflexivity.
  - reflexivity.
  - vm_compute. intros H. inversion H.
Defined.

(** Asked for that account alone, [stop_sync] stops it. *)
Example stop_sync_one_account :
  let out := stop_sync "host1" (Some "b@example.com") Scenarios.service in
  out.1 = Str "OK sync stopped"
  ∧ delivered out.2 = [(2, "shutdown")]
  ∧ sync_host <$> imapaccounts out.2 = [None; None]
  ∧ sync_locks out.2 = []
  ∧ monitors out.2 = ∅.
Proof. vm_compute. done. Qed.

(** ** Runs on the mailboxes of [Scenarios] *)

(** C4 (what the code does). A worker that resumes an interrupted initial
    sync finds the [remote_g_metadata] entry of the interrupted run;
    [_update_g_metadata_cache] asks for the changes since the mod-sequence
    that is selected now, not since the cached one, so UID 4, which arrived
    in between, stays unknown and the run ends in ['poll'].  A second run on
    the unchanged mailbox finds no entry, fetches the metadata of all four
    UIDs, downloads the message (UID 14 of All Mail) and creates one
    [Message] and two [FolderItem] rows. *)
Theorem initial_sync_again_downloads :
  let r1 := initial_sync Scenarios.gmail_inbox_env Scenarios.interrupted_world in
  let r2 := initial_sync Scenarios.gmail_inbox_env (world r1) in
  result r1 = inr "poll"
  ∧ events r1
    = [EvLease; EvSelect "INBOX";
       EvSetCache "a@example.com_INBOX_remote_g_metadata"; EvCommit;
       EvSelect "[Gmail]/All Mail"; EvRelease;
       EvRmCache "1/INBOX/remote_g_metadata"]
  ∧ result r2 = inr "poll"
  ∧ events r2
    = [EvLease; EvSelect "INBOX"; EvSetCache "1/INBOX/remote_g_metadata";
       EvCommit; EvSelect "[Gmail]/All Mail";
       EvFetch "[Gmail]/All Mail" [14]; EvBlobPut 104 true;
       EvEnqueue 0; EvThreadsDetected 0; EvEventSet 0; EvCommit; EvCommit;
       EvStatus 1 "initial" "INBOX" (Percent 1 3); EvRelease;
       EvRmCache "1/INBOX/remote_g_metadata"]
  ∧ g_msgid <$> messages (db (world r1)) = [101; 102; 103]
  ∧ g_msgid <$> messages (db (world r2)) = [101; 102; 103; 104]
  ∧ length (folderitems (db (world r2)))
    = (2 + length (folderitems (db (world r1))))%nat.
Proof. vm_compute. done. Qed.

(** What the server answers in that run, and what it would answer when
    asked for the changes since the cached mod-sequence, as
    [_highestmodseq_update] asks. *)
Example changes_since_cached_modseq :
  result (crispin_new_and_updated_uids Scenarios.gmail_inbox_env 120
            Scenarios.selected_inbox_world) = inr [1]
  ∧ result (crispin_new_and_updated_uids Scenarios.gmail_inbox_env 100
              Scenarios.selected_inbox_world) = inr [1; 4].
Proof. vm_compute. done. Qed.

(** The same mailbox synced from nothing: the first run downloads the four
    messages, the second run on the unchanged mailbox fetches no body,
    removes nothing and leaves the tables as they are, apart from the
    checkpoint it writes again. *)
Example initial_sync_twice_from_nothing :
  let r1 := initial_sync Scenarios.gmail_inbox_env Scenarios.fresh_world in
  let r2 := initial_sync Scenarios.gmail_inbox_env (world r1) in
  result r1 = inr "poll"
  ∧ g_msgid <$> messages (db (world r1)) = [104; 103; 102; 101]
  ∧ result r2 = inr "poll"
  ∧ events r2
    = [EvLease; EvSelect "INBOX"; EvSetCache "1/INBOX/remote_g_metadata";
       EvCommit; EvSelect "[Gmail]/All Mail"; EvRelease;
       EvRmCache "1/INBOX/remote_g_metadata"]
  ∧ db (world r2) = db (world r1)
  ∧ cache (world r2) = ∅.
Proof. vm_compute. done. Qed.

(** A plain IMAP folder with something to download: the first chunk is
    downloaded and committed, then the addition of a list to the message
    count raises. *)
Example initial_sync_plain_folder_raises :
  let r := initial_sync Scenarios.imap_inbox_env Scenarios.empty_world in
  result r
  = inl (TypeError "unsupported operand type(s) for +=: 'int' and 'list'")
  ∧ events r
    = [EvLease; EvSelect "INBOX"; EvSetCache "2/INBOX/remote_g_metadata";
       EvCommit; EvFetch "INBOX" [3; 2]; EvBlobPut 0 true; EvBlobPut 0 true;
       EvEnqueue 0; EvThreadsDetected 0; EvEventSet 0; EvCommit; EvRelease].
Proof. vm_compute. done. Qed.

(** C5 (as stated, refuted). A pass of [poll] on [Scenarios.polling_world]:
    the sleep comes between the lease and its return. *)
Lemma poll_holds_lease_across_sleep :
  events (poll Scenarios.gmail_inbox_env Scenarios.polling_world)
  = [EvLease; EvStatus 1 "poll" "INBOX" (Timestamp 1000); EvSleep 30; EvRelease]
  ∧ sleeps_holding_lease 0
      (events (poll Scenarios.gmail_inbox_env Scenarios.polling_world)) = true.
Proof. vm_compute. done. Qed.

(** A change of UIDVALIDITY met by a polling worker: the round moves the
    row to ['poll uidinvalid'] and commits; the next round raises, and the
    UIDs of the folder items are the old ones. *)
Example uidvalidity_change_stops_worker :
  let r := _run Scenarios.gmail_inbox_env 3 Scenarios.uidinvalid_world in
  result r = inl NotImplementedError
  ∧ events r = [EvLease; EvSelect "INBOX"; EvRelease; EvCommit]
  ∧ foldersyncs (committed (world r)) !! (1, "INBOX") = Some "poll uidinvalid"
  ∧ folderitems (db (world r)) = folderitems (db Scenarios.uidinvalid_world).
Proof. vm_compute. done. Qed.

Lemma resync_uids_not_implemented_witness :
  result (_run Scenarios.gmail_inbox_env 1 Scenarios.resync_world)
  = inl NotImplementedError.
Proof.
  refine (proj1 (resync_uids_not_implemented Scenarios.gmail_inbox_env
                   Scenarios.resync_world "poll" 0 _ _)).
  - by right.
  - reflexivity.
Defined.

Lemma initial_sync_next_state_witness :
  foldersyncs (committed (world (run_iteration Scenarios.gmail_inbox_env
                                   Scenarios.interrupted_world)))
    !! (1, "INBOX") = Some "poll".
Proof.
  refine (proj1 (proj2 (proj2 (initial_sync_next_state
            Scenarios.gmail_inbox_env Scenarios.interrupted_world "poll" 0 _ _)))).
  - reflexivity.
  - vm_compute. reflexivity.
Defined.

(** The detector takes the two batches of [Scenarios.busy_inbox_world]:
    five messages of three threads, one row for each thread. *)
Lemma thread_detector_unique_threads_witness :
  let w := Scenarios.busy_inbox_world in
  let r := detector_run 2 w in
  unique_threads (world r)
  ∧ threads (db (world r))
    = [mkThread 1 1001 [1; 3]; mkThread 1 1002 [2; 4]; mkThread 1 1003 [5]]
  ∧ threads (db (world r))
    = foldl filed (threads (db w)) (take 2 (inbox w) ≫= fst).
Proof.
  intros w r.
  destruct (thread_detector_unique_threads 2 w)
    as (_ & Hu & _ & _ & _ & Hf & _); [apply NoDup_nil_2|].
  split; [exact Hu|]. split; [reflexivity|].
  apply (Hf eq_refl 1).
  intros batch msg Hb Hm. vm_compute in Hb.
  apply elem_of_cons in Hb as [->|Hb];
    [|apply elem_of_cons in Hb as [->|Hb]; [|by apply elem_of_nil in Hb]].
  - vm_compute in Hm.
    repeat (apply elem_of_cons in Hm as [->|Hm]; [reflexivity|]).
    by apply elem_of_nil in Hm.
  - vm_compute in Hm.
    repeat (apply elem_of_cons in Hm as [->|Hm]; [reflexivity|]).
    by apply elem_of_nil in Hm.
Defined.

(** A chunk with a part whose save raises: nothing is committed. *)
Example download_with_failing_save :
  let r := _download_new_messages Scenarios.failing_blob_env [14]
             Scenarios.selected_all_mail_world in
  result r = inl (SyncException "Fatal error encountered")
  ∧ events r = [EvFetch "[Gmail]/All Mail" [14]; EvBlobPut 104 false]
  ∧ committed (world r) = committed Scenarios.selected_all_mail_world.
Proof. vm_compute. done. Qed.

(** ** SyncService: starting and stopping one account *)

Lemma filter_none {A} (P : A → Prop) `{∀ x, Decision (P x)} (l : list A) :
  Forall (fun x => ¬ P x) l → filter P l = [].
Proof.
  induction 1 as [|x l Hx _ IH]; [done|]. by rewrite filter_cons_False.
Qed.

Lemma filter_seq_only (P : nat → Prop) `{∀ i, Decision (P i)} i : ∀ n a,
  (a ≤ i < a + n)%nat → P i →
  (∀ j, (a ≤ j < a + n)%nat → P j → j = i) →
  filter P (seq a n) = [i].
Proof.
  induction n as [|n IH]; intros a Hi HP Honly; [lia|]. cbn [seq].
  destruct (decide (a = i)) as [->|Hne].
  - rewrite filter_cons_True by done. f_equal. apply filter_none.
    apply Forall_forall. intros j Hj%elem_of_seq HPj.
    assert (j = i) by (apply Honly; [lia|done]). lia.
  - rewrite filter_cons_False.
    + apply IH; [lia|done|]. intros j Hj. apply Honly. lia.
    + intros HPa. apply Hne. apply Honly; [lia|done].
Qed.

Lemma query_accounts_none (rows : list IMAPAccount) e :
  Forall (fun a => email_address a ≠ e) rows →
  query_accounts (Some e) rows = [].
Proof.
  intros Hno. unfold query_accounts. apply filter_none.
  apply Forall_forall. intros i _.
  destruct (rows !! i) as [a|] eqn:Hi; simpl; [|done].
  rewrite Forall_forall in Hno.
  rewrite bool_decide_eq_false_2; [done|].
  apply Hno. by eapply list_elem_of_lookup_2.
Qed.

Lemma query_accounts_only (rows : list IMAPAccount) e i a :
  only_account rows e i a → query_accounts (Some e) rows = [i].
Proof.
  intros (Hi & He & Honly). unfold query_accounts.
  apply filter_seq_only.
  - apply lookup_lt_Some in Hi. lia.
  - rewrite Hi. simpl. by rewrite bool_decide_eq_true_2.
  - intros j _. destruct (rows !! j) as [b|] eqn:Hj; simpl; [|done].
    intros Hb%bool_decide_eq_true. by eapply Honly.
Qed.

(** X8. Asked for an address that no account has, [start_sync] and
    [stop_sync] answer ["OK no such user"] and change nothing; for the empty
    address, which is false in [if email_address:], the answer is the empty
    dict of results. *)
Theorem unknown_address_changes_nothing fqdn e sv :
  Forall (fun a => email_address a ≠ e) (imapaccounts sv) →
  let answer := if bool_decide (e ≠ "") then Str "OK no such user" else Dict ∅ in
  start_sync fqdn (Some e) sv = (StartReturns answer, sv)
  ∧ stop_sync fqdn (Some e) sv = (answer, sv).
Proof.
  intros Hno answer. unfold start_sync, stop_sync.
  rewrite (query_accounts_none _ _ Hno). cbn [start_sync_loop stop_sync_loop].
  subst answer. by destruct (bool_decide (e ≠ "")).
Qed.

(** X9. [stop_sync] asked for the address of one account: without a
    monitor the answer is ["OK sync stopped already"]; with a monitor and this
    host as [sync_host] the monitor is sent [shutdown] and leaves the
    registry, [sync_host] becomes [None], the lock is released and the answer
    is ["OK sync stopped"], also when [sync_active] is not set; with a monitor
    and another [sync_host] the answer is ["ERROR error encountered"] and
    nothing changes. *)
Theorem stop_sync_one_account_cases fqdn e sv i a :
  only_account (imapaccounts sv) e i a → e ≠ "" →
  stop_sync fqdn (Some e) sv
  = if bool_decide (account_id a ∉ dom (monitors sv))
    then (Str "OK sync stopped already", sv)
    else if bool_decide (sync_host a = Some fqdn)
    then (Str "OK sync stopped",
          mkService (<[i := set_sync_host None a]> (imapaccounts sv))
            (delete (account_id a) (monitors sv))
            (filter (fun x => x ≠ account_id a) (sync_locks sv))
            (delivered sv ++ [(account_id a, "shutdown")]))
    else (Str "ERROR error encountered", sv).
Proof.
  intros Honly Hne. unfold stop_sync.
  rewrite (query_accounts_only _ _ _ _ Honly).
  destruct Honly as (Hi & He & _). cbn [stop_sync_loop]. rewrite Hi.
  destruct (bool_decide (account_id a ∉ dom (monitors sv))); [done|].
  unfold shutdown_account.
  destruct (bool_decide (sync_host a = Some fqdn)); cbn [stop_sync_loop];
    rewrite (bool_decide_eq_true_2 _ Hne), He, lookup_insert_eq; done.
Qed.

(** X10. [start_sync] asked for the address of one account: an account
    that syncs on another host is reported and left alone; an account without
    a monitor takes its lock, gets a monitor and this host as [sync_host], and
    the exception of a lock that is held ends the call; an account with a
    monitor is answered ["OK sync already started"] and left alone. *)
Theorem start_sync_one_account_cases fqdn e sv i a :
  only_account (imapaccounts sv) e i a → e ≠ "" →
  start_sync fqdn (Some e) sv
  = if bool_decide (owned_elsewhere fqdn a)
    then (StartReturns (Str (syncing_elsewhere e (default "" (sync_host a)))), sv)
    else if bool_decide (account_id a ∉ dom (monitors sv)) then
      if bool_decide (account_id a ∈ sync_locks sv)
      then (StartRaises (account_id a), sv)
      else (StartReturns (Str "OK sync started"),
            mkService (<[i := set_sync_host (Some fqdn) a]> (imapaccounts sv))
              (<[account_id a := []]> (monitors sv))
              (account_id a :: sync_locks sv) (delivered sv))
    else (StartReturns (Str "OK sync already started"), sv).
Proof.
  intros Honly Hne. unfold start_sync.
  rewrite (query_accounts_only _ _ _ _ Honly).
  destruct Honly as (Hi & He & _). cbn [start_sync_loop]. rewrite Hi.
  change (bool_decide (is_Some (sync_host a) ∧ sync_host a ≠ Some fqdn))
    with (bool_decide (owned_elsewhere fqdn a)).
  destruct (bool_decide (owned_elsewhere fqdn a)).
  { rewrite (bool_decide_eq_true_2 _ Hne), He, lookup_insert_eq. done. }
  destruct (bool_decide (account_id a ∉ dom (monitors sv))).
  - unfold sync_lock. destruct (bool_decide (account_id a ∈ sync_locks sv)); [done|].
    cbn [start_sync_loop].
    by rewrite (bool_decide_eq_true_2 _ Hne), He, lookup_insert_eq.
  - by rewrite (bool_decide_eq_true_2 _ Hne), He, lookup_insert_eq.
Qed.

(** X11. An idle account that is started has a monitor, this host and its
    lock; started again, it is left as it is; stopped, the table, the registry
    and the locks are what they were before the start, and the monitor has
    been sent [shutdown]. *)
Theorem start_then_stop_restores fqdn e sv i a :
  only_account (imapaccounts sv) e i a → e ≠ "" →
  sync_host a = None →
  account_id a ∉ dom (monitors sv) →
  account_id a ∉ sync_locks sv →
  let started := start_sync fqdn (Some e) sv in
  started.1 = StartReturns (Str "OK sync started")
  ∧ sync_host <$> imapaccounts started.2 !! i = Some (Some fqdn)
  ∧ monitors started.2 !! account_id a = Some []
  ∧ account_id a ∈ sync_locks started.2
  ∧ start_sync fqdn (Some e) started.2
    = (StartReturns (Str "OK sync already started"), started.2)
  ∧ stop_sync fqdn (Some e) started.2
    = (Str "OK sync stopped",
       mkService (imapaccounts sv) (monitors sv) (sync_locks sv)
         (delivered sv ++ [(account_id a, "shutdown")])).
Proof.
  intros Honly Hne Hhost Hmon Hlock started.
  pose proof (start_sync_one_account_cases fqdn e sv i a Honly Hne) as Hstart.
  rewrite bool_decide_eq_false_2 in Hstart.
  2:{ intros [[h Hh] _]. congruence. }
  rewrite (bool_decide_eq_true_2 _ Hmon) in Hstart.
  rewrite (bool_decide_eq_false_2 _ Hlock) in Hstart.
  subst started. rewrite Hstart. cbn [fst snd imapaccounts monitors sync_locks].
  set (a' := set_sync_host (Some fqdn) a).
  set (sv1 := mkService _ _ _ _).
  destruct Honly as (Hi & He & Hu).
  assert (Hlt : (i < length (imapaccounts sv))%nat) by by eapply lookup_lt_Some.
  assert (Honly1 : only_account (imapaccounts sv1) e i a').
  { split_and!.
    - subst sv1. cbn. by rewrite list_lookup_insert_eq.
    - done.
    - intros j b Hj Hb. subst sv1. cbn in Hj.
      destruct (decide (j = i)) as [->|Hji]; [done|].
      rewrite list_lookup_insert_ne in Hj by done. by eapply Hu. }
  split_and!.
  - done.
  - rewrite list_lookup_insert_eq by done. done.
  - by rewrite lookup_insert_eq.
  - by left.
  - rewrite (start_sync_one_account_cases fqdn e sv1 i a' Honly1 Hne).
    rewrite bool_decide_eq_false_2.
    2:{ intros [_ Hh]. by apply Hh. }
    rewrite bool_decide_eq_false_2; [done|].
    intros Hn. apply Hn. subst sv1. cbn. rewrite dom_insert. set_solver.
  - rewrite (stop_sync_one_account_cases fqdn e sv1 i a' Honly1 Hne).
    rewrite bool_decide_eq_false_2.
    2:{ intros Hn. apply Hn. subst sv1. cbn. rewrite dom_insert. set_solver. }
    rewrite bool_decide_eq_true_2 by done.
    f_equal. subst sv1. cbn. f_equal.
    + rewrite list_insert_insert_eq.
      replace (set_sync_host None a') with a.
      * by apply list_insert_id.
      * subst a'. unfold set_sync_host. destruct a; simpl in *. by subst.
    + rewrite delete_insert_eq. by apply delete_id, not_elem_of_dom.
    + rewrite decide_False by (by intros ?).
      clear -Hlock. induction (sync_locks sv) as [|x l IH]; [done|].
      apply not_elem_of_cons in Hlock as [Hx Hl].
      cbn. rewrite decide_True by congruence. f_equal. by apply IH.
Qed.

(** *** Accounts of other hosts *)

Lemma start_sync_loop_keeps_elsewhere fqdn i a : ∀ refs sv results,
  imapaccounts sv !! i = Some a → owned_elsewhere fqdn a →
  imapaccounts (start_sync_loop fqdn refs sv results).1.2 !! i = Some a.
Proof.
  induction refs as [|j refs IH]; intros sv results Hi Ha; cbn [start_sync_loop];
    [done|].
  destruct (imapaccounts sv !! j) as [b|] eqn:Hj; [|by apply IH].
  change (bool_decide (is_Some (sync_host b) ∧ sync_host b ≠ Some fqdn))
    with (bool_decide (owned_elsewhere fqdn b)).
  destruct (bool_decide (owned_elsewhere fqdn b)) eqn:Hb; [by apply IH|].
  apply bool_decide_eq_false in Hb.
  destruct (bool_decide (account_id b ∉ dom (monitors sv))); [|by apply IH].
  destruct (sync_lock (account_id b) (sync_locks sv)); [|done].
  apply IH; [|done]. cbn.
  rewrite list_lookup_insert_ne; [done|]. intros ->. congruence.
Qed.

Lemma stop_sync_loop_keeps_elsewhere fqdn i a : ∀ refs sv results,
  imapaccounts sv !! i = Some a → owned_elsewhere fqdn a →
  imapaccounts (stop_sync_loop fqdn refs sv results).1.2 !! i = Some a.
Proof.
  induction refs as [|j refs IH]; intros sv results Hi Ha; cbn [stop_sync_loop];
    [done|].
  destruct (imapaccounts sv !! j) as [b|] eqn:Hj; [|by apply IH].
  destruct (bool_decide (account_id b ∉ dom (monitors sv))); [done|].
  unfold shutdown_account.
  destruct (bool_decide (sync_host b = Some fqdn)) eqn:Hb; [|by apply IH].
  apply bool_decide_eq_true in Hb.
  apply IH; [|done]. cbn.
  rewrite list_lookup_insert_ne; [done|]. intros ->.
  destruct Ha as [_ Ha]. congruence.
Qed.

(** X12. Neither [start_sync] nor [stop_sync], for one address or for
    all accounts, changes the row of an account that syncs on another
    host. *)
Theorem other_hosts_accounts_untouched fqdn email sv i a :
  imapaccounts sv !! i = Some a → owned_elsewhere fqdn a →
  imapaccounts (start_sync fqdn email sv).2 !! i = Some a
  ∧ imapaccounts (stop_sync fqdn email sv).2 !! i = Some a.
Proof.
  intros Hi Ha. split.
  - unfold start_sync.
    pose proof (start_sync_loop_keeps_elsewhere fqdn i a
                  (query_accounts email (imapaccounts sv)) sv ∅ Hi Ha) as H.
    destruct (start_sync_loop _ _ _ _) as [[[x|] sv'] results]; [done|].
    destruct email as [e|]; [|done].
    destruct (bool_decide (e ≠ "")); [|done]. by destruct (results !! e).
  - unfold stop_sync.
    pose proof (stop_sync_loop_keeps_elsewhere fqdn i a
                  (query_accounts email (imapaccounts sv)) sv ∅ Hi Ha) as H.
    destruct (stop_sync_loop _ _ _ _) as [[[x|] sv'] results]; [done|].
    destruct email as [e|]; [|done].
    destruct (bool_decide (e ≠ "")); [|done]. by destruct (results !! e).
Qed.

(** *** [SyncService.__init__] *)

Lemma fmap_insert_same {A B} (f : A → B) (l : list A) j x y :
  l !! j = Some x → f y = f x → f <$> <[j := y]> l = f <$> l.
Proof.
  intros Hj Hf. rewrite list_fmap_insert, Hf. apply list_insert_id.
  by rewrite list_lookup_fmap, Hj.
Qed.

Lemma start_sync_loop_spec fqdn : ∀ refs sv results,
  let out := start_sync_loop fqdn refs sv results in
  account_id <$> imapaccounts out.1.2 = account_id <$> imapaccounts sv
  ∧ email_address <$> imapaccounts out.1.2 = email_address <$> imapaccounts sv
  ∧ dom (monitors sv) ⊆ dom (monitors out.1.2)
  ∧ (∀ k, owned_at fqdn (imapaccounts sv) k → owned_at fqdn (imapaccounts out.1.2) k)
  ∧ (out.1.1 = None → ∀ k, k ∈ refs → owned_at fqdn (imapaccounts sv) k →
       ∃ x, (account_id <$> imapaccounts sv) !! k = Some x
            ∧ x ∈ dom (monitors out.1.2)).
Proof.
  induction refs as [|j refs IH]; intros sv results; cbn [start_sync_loop].
  { cbn. split_and!; try done. intros _ k Hk. by apply elem_of_nil in Hk. }
  destruct (imapaccounts sv !! j) as [b|] eqn:Hj.
  2:{ destruct (IH sv results) as (Ha & He & Hm & Ho & Hd).
      split_and!; try done. intros Hnone k [->|Hk]%elem_of_cons Hown.
      - unfold owned_at in Hown. by rewrite Hj in Hown.
      - by apply Hd. }
  change (bool_decide (is_Some (sync_host b) ∧ sync_host b ≠ Some fqdn))
    with (bool_decide (owned_elsewhere fqdn b)).
  destruct (bool_decide (owned_elsewhere fqdn b)) eqn:Hb.
  { apply bool_decide_eq_true in Hb.
    match goal with |- context [start_sync_loop fqdn refs sv ?r] =>
      destruct (IH sv r) as (Ha & He & Hm & Ho & Hd) end.
    split_and!; try done. intros Hnone k [->|Hk]%elem_of_cons Hown.
    - unfold owned_at in Hown. rewrite Hj in Hown. destruct Hb as [_ Hb].
      simpl in Hown. congruence.
    - by apply Hd. }
  destruct (bool_decide (account_id b ∉ dom (monitors sv))) eqn:Hmon.
  - unfold sync_lock.
    destruct (bool_decide (account_id b ∈ sync_locks sv)); [done|].
    match goal with |- context [start_sync_loop fqdn refs ?s ?r] =>
      destruct (IH s r) as (Ha & He & Hm & Ho & Hd) end.
    cbn [imapaccounts monitors] in Ha, He, Hm, Ho, Hd.
    assert (Hids : account_id <$> <[j:=set_sync_host (Some fqdn) b]> (imapaccounts sv)
                   = account_id <$> imapaccounts sv)
      by by eapply fmap_insert_same.
    assert (Hems : email_address <$> <[j:=set_sync_host (Some fqdn) b]> (imapaccounts sv)
                   = email_address <$> imapaccounts sv)
      by by eapply fmap_insert_same.
    assert (Hown1 : ∀ k, owned_at fqdn (imapaccounts sv) k →
              owned_at fqdn (<[j:=set_sync_host (Some fqdn) b]> (imapaccounts sv)) k).
    { intros k Hk. unfold owned_at in *.
      destruct (decide (k = j)) as [->|Hne].
      - rewrite list_lookup_insert_eq; [done|]. by eapply lookup_lt_Some.
      - by rewrite list_lookup_insert_ne. }
    split_and!.
    + by rewrite Ha.
    + by rewrite He.
    + etrans; [|exact Hm]. rewrite dom_insert. apply union_subseteq_r.
    + intros k Hk. by apply Ho, Hown1.
    + intros Hnone k [->|Hk]%elem_of_cons Hown.
      * exists (account_id b). split; [by rewrite list_lookup_fmap, Hj|].
        apply Hm. rewrite dom_insert. apply elem_of_union. left.
        by apply elem_of_singleton.
      * destruct (Hd Hnone k Hk (Hown1 k Hown)) as (x & Hx & Hin).
        exists x. by rewrite <- Hids.
  - apply bool_decide_eq_false in Hmon.
    match goal with |- context [start_sync_loop fqdn refs sv ?r] =>
      destruct (IH sv r) as (Ha & He & Hm & Ho & Hd) end.
    split_and!; try done. intros Hnone k [->|Hk]%elem_of_cons Hown.
    + exists (account_id b). split; [by rewrite list_lookup_fmap, Hj|].
      apply Hm. destruct (decide (account_id b ∈ dom (monitors sv))); [done|].
      by destruct Hmon.
    + by apply Hd.
Qed.

Lemma start_sync_spec fqdn e sv :
  let out := start_sync fqdn (Some e) sv in
  account_id <$> imapaccounts out.2 = account_id <$> imapaccounts sv
  ∧ email_address <$> imapaccounts out.2 = email_address <$> imapaccounts sv
  ∧ dom (monitors sv) ⊆ dom (monitors out.2)
  ∧ (∀ k, owned_at fqdn (imapaccounts sv) k → owned_at fqdn (imapaccounts out.2) k)
  ∧ ((∃ r, out.1 = StartReturns r) → ∀ k,
       (email_address <$> imapaccounts sv) !! k = Some e →
       owned_at fqdn (imapaccounts sv) k →
       ∃ x, (account_id <$> imapaccounts sv) !! k = Some x
            ∧ x ∈ dom (monitors out.2)).
Proof.
  unfold start_sync.
  pose proof (start_sync_loop_spec fqdn
                (query_accounts (Some e) (imapaccounts sv)) sv ∅) as H.
  cbv zeta in H.
  destruct (start_sync_loop _ _ _ _) as [[raised sv'] results].
  cbn [fst snd] in H. destruct H as (Ha & He & Hm & Ho & Hd).
  assert (Hq : ∀ k, (email_address <$> imapaccounts sv) !! k = Some e →
                    k ∈ query_accounts (Some e) (imapaccounts sv)).
  { intros k Hk. rewrite list_lookup_fmap in Hk. unfold query_accounts.
    destruct (imapaccounts sv !! k) as [b|] eqn:Hb; [|done].
    apply list_elem_of_filter. rewrite Hb. simpl. split.
    - apply bool_decide_eq_true_2. simpl in Hk. congruence.
    - apply elem_of_seq. apply lookup_lt_Some in Hb. lia. }
  destruct raised as [x|].
  - cbn. split_and!; try done. by intros [r ?].
  - assert (Hgoal : ∀ r : start_result,
      account_id <$> imapaccounts (r, sv').2 = account_id <$> imapaccounts sv
      ∧ email_address <$> imapaccounts (r, sv').2 = email_address <$> imapaccounts sv
      ∧ dom (monitors sv) ⊆ dom (monitors (r, sv').2)
      ∧ (∀ k, owned_at fqdn (imapaccounts sv) k →
              owned_at fqdn (imapaccounts (r, sv').2) k)
      ∧ ((∃ r0, (r, sv').1 = StartReturns r0) → ∀ k,
           (email_address <$> imapaccounts sv) !! k = Some e →
           owned_at fqdn (imapaccounts sv) k →
           ∃ x, (account_id <$> imapaccounts sv) !! k = Some x
                ∧ x ∈ dom (monitors (r, sv').2))).
    { intros r. cbn. split_and!; try done. intros _ k Hk Hown.
      apply Hd; [done|by apply Hq|done]. }
    destruct (bool_decide (e ≠ "")); [destruct (results !! e)|]; apply Hgoal.
Qed.

Lemma restart_syncs_spec fqdn : ∀ emails sv,
  let out := restart_syncs fqdn emails sv in
  account_id <$> imapaccounts out.2 = account_id <$> imapaccounts sv
  ∧ (out.1 = None → ∀ k e,
       (email_address <$> imapaccounts sv) !! k = Some e → e ∈ emails →
       owned_at fqdn (imapaccounts sv) k →
       ∃ x, (account_id <$> imapaccounts sv) !! k = Some x
            ∧ x ∈ dom (monitors out.2))
  ∧ dom (monitors sv) ⊆ dom (monitors out.2).
Proof.
  induction emails as [|e emails IH]; intros sv; cbn [restart_syncs].
  { cbn. split_and!; try done. intros _ k e _ He. by apply elem_of_nil in He. }
  pose proof (start_sync_spec fqdn e sv) as H. cbv zeta in H.
  destruct (start_sync fqdn (Some e) sv) as [[r|x] sv1]; cbn [fst snd] in H.
  - destruct H as (Ha & He & Hm & Ho & Hd).
    destruct (IH sv1) as (Ha1 & Hd1 & Hm1).
    split_and!.
    + by rewrite Ha1.
    + intros Hnone k e' Hk [->|He']%elem_of_cons Hown.
      * destruct (Hd (ex_intro _ r eq_refl) k Hk Hown) as (x & Hx & Hin).
        exists x. split; [done|]. by apply Hm1.
      * destruct (Hd1 Hnone k e') as (x & Hx & Hin).
        -- by rewrite He.
        -- done.
        -- by apply Ho.
        -- exists x. split; [by rewrite <- Ha|done].
    + by etrans.
  - cbn. destruct H as (Ha & _ & Hm & _). split_and!; done.
Qed.

(** X13. When [SyncService.__init__] returns, every account of the table
    whose [sync_host] is this host has a monitor, and the table holds the same
    accounts. *)
Theorem init_restarts_own_accounts fqdn rows locks sv a :
  SyncService_init fqdn rows locks = (None, sv) →
  a ∈ rows → sync_host a = Some fqdn →
  account_id a ∈ dom (monitors sv)
  ∧ account_id <$> imapaccounts sv = account_id <$> rows.
Proof.
  unfold SyncService_init. intros Hinit Ha Hhost.
  pose proof (restart_syncs_spec fqdn
                (email_address <$> filter (fun a => is_Some (sync_host a)) rows)
                (mkService rows ∅ locks [])) as H.
  cbv zeta in H. rewrite Hinit in H. cbn [fst snd imapaccounts] in H.
  destruct H as (Hids & Hd & _). split; [|done].
  apply list_elem_of_lookup_1 in Ha as [k Hk].
  destruct (Hd eq_refl k (email_address a)) as (x & Hx & Hin).
  - by rewrite list_lookup_fmap, Hk.
  - apply list_elem_of_fmap. exists a. split; [done|].
    apply list_elem_of_filter. split; [by rewrite Hhost|].
    by eapply list_elem_of_lookup_2.
  - unfold owned_at. by rewrite Hk, <- Hhost.
  - rewrite list_lookup_fmap, Hk in Hx. by injection Hx as <-.
Qed.

Lemma only_running_account :
  only_account Scenarios.three_accounts "b@example.com" 1 Scenarios.running_account.
Proof.
  split_and!; [done..|].
  intros [|[|[|j]]] b Hj Hb; cbv in Hj; simplify_eq; try done; by cbv in Hb.
Qed.

Lemma only_idle_account :
  only_account Scenarios.three_accounts "a@example.com" 0 Scenarios.idle_account.
Proof.
  split_and!; [done..|].
  intros [|[|[|j]]] b Hj Hb; cbv in Hj; simplify_eq; try done; by cbv in Hb.
Qed.

Lemma unknown_address_changes_nothing_witness :
  start_sync "host1" (Some "d@example.com") Scenarios.shared_service
  = (StartReturns (Str "OK no such user"), Scenarios.shared_service)
  ∧ stop_sync "host1" (Some "d@example.com") Scenarios.shared_service
    = (Str "OK no such user", Scenarios.shared_service).
Proof.
  apply (unknown_address_changes_nothing "host1" "d@example.com"
           Scenarios.shared_service).
  repeat constructor; done.
Defined.

Lemma stop_sync_one_account_cases_witness :
  (stop_sync "host1" (Some "b@example.com") Scenarios.shared_service).1
  = Str "OK sync stopped".
Proof.
  rewrite (stop_sync_one_account_cases "host1" "b@example.com"
             Scenarios.shared_service 1 Scenarios.running_account
             only_running_account); [|done].
  reflexivity.
Defined.

Lemma start_sync_one_account_cases_witness :
  (start_sync "host1" (Some "a@example.com") Scenarios.shared_service).1
  = StartReturns (Str "OK sync started").
Proof.
  rewrite (start_sync_one_account_cases "host1" "a@example.com"
             Scenarios.shared_service 0 Scenarios.idle_account
             only_idle_account); [|done].
  reflexivity.
Defined.

Lemma start_then_stop_restores_witness :
  stop_sync "host1" (Some "a@example.com")
    (start_sync "host1" (Some "a@example.com") Scenarios.shared_service).2
  = (Str "OK sync stopped",
     mkService Scenarios.three_accounts {[ 2 := [] ]} [2] [(1, "shutdown")]).
Proof.
  refine (proj2 (proj2 (proj2 (proj2 (proj2
            (start_then_stop_restores "host1" "a@example.com"
               Scenarios.shared_service 0 Scenarios.idle_account
               only_idle_account _ _ _ _)))))).
  - done.
  - done.
  - vm_compute. intros H. inversion H.
  - vm_compute. intros H. inversion H as [|? ? ? H']. inversion H'.
Defined.

Lemma other_hosts_accounts_untouched_witness :
  imapaccounts (start_sync "host1" None Scenarios.shared_service).2 !! 2%nat
  = Some Scenarios.remote_account
  ∧ imapaccounts (stop_sync "host1" None Scenarios.shared_service).2 !! 2%nat
    = Some Scenarios.remote_account.
Proof.
  apply (other_hosts_accounts_untouched "host1" None Scenarios.shared_service
           2 Scenarios.remote_account).
  - reflexivity.
  - split; [by eexists|done].
Defined.

Lemma init_restarts_own_accounts_witness :
  2 ∈ dom (monitors (SyncService_init "host1" Scenarios.three_accounts []).2).
Proof.
  refine (proj1 (init_restarts_own_accounts "host1" Scenarios.three_accounts []
                   (SyncService_init "host1" Scenarios.three_accounts []).2
                   Scenarios.running_account _ _ _)).
  - vm_compute. reflexivity.
  - right. left.
  - reflexivity.
Defined.

(** ** Passes of [poll] and the check of UIDVALIDITY *)

Section Passes.

Variable env : Env.

#[local] Abbreviation me := (account_id (account env)).
#[local] Abbreviation folder := (self_folder_name env).

(** The status that a pass of [poll] reports. *)
#[local] Abbreviation polled w :=
  (set_statuses (fun st =>
     <[me := <[folder := ("poll", Timestamp (utcnow env))]> (default ∅ (st !! me))]> st) w).

(** X14. [select_folder] with [uidvalidity_callback] selects the folder
    first and checks then: the folder is selected also when the check raises;
    without a checkpoint nothing is checked, and with a checkpoint
    [UIDInvalid] is raised exactly when [uidvalidity_valid] rejects the
    UIDVALIDITY of the server. *)
Theorem select_folder_checks_uidvalidity name f w :
  folders (remote env) !! name = Some f →
  let r := select_folder env name w in
  world r = set_selected
              (Some (name, mkUIDValidity (UIDVALIDITY f) (HIGHESTMODSEQ f))) w
  ∧ events r = [EvSelect name]
  ∧ result r
    = match uidvalidities (db w) !! (me, name) with
      | Some cv =>
          if uidvalidity_valid (UIDVALIDITY f) name (uid_validity cv)
          then inr tt
          else inl (UIDInvalid name (UIDVALIDITY f) (uid_validity cv))
      | None => inr tt
      end.
Proof.
  intros Hf r. subst r. unfold select_folder. rewrite Hf.
  unfold uidvalidity_callback, get_uidvalidity, assert.
  repeat (rewrite run_bind; mrun).
  rewrite bool_decide_eq_true_2 by (by eexists). mrun.
  repeat (rewrite run_bind; mrun).
  unfold self_account_id.
  destruct (uidvalidities (db w) !! (me, name)) as [cv|]; [|done].
  by destruct (uidvalidity_valid _ _ _).
Qed.

(** X15. A pass of [poll] over a folder whose HIGHESTMODSEQ is not beyond
    the checkpoint probes the status under the lease, reports the time,
    sleeps and returns ['poll']: the folder is not selected, so that a change
    of UIDVALIDITY goes unnoticed, and nothing is fetched, removed or
    committed. *)
Theorem poll_up_to_date w cv f :
  uidvalidities (db w) !! (me, folder) = Some cv →
  folders (remote env) !! folder = Some f →
  (HIGHESTMODSEQ f <= highestmodseq cv)%Z →
  poll env w
  = mkRes (inr "poll") (polled w)
      [EvLease; EvStatus me "poll" folder (Timestamp (utcnow env));
       EvSleep (poll_frequency env); EvRelease].
Proof.
  intros Hcv Hf Hle. unfold poll, get_uidvalidity, self_account_id.
  rewrite run_bind. mrun. rewrite Hcv. rewrite run_bind, with_lease_run.
  unfold crispin_folder_status. rewrite Hf.
  unfold status_callback, self_account_id.
  repeat (rewrite run_bind; mrun). cbn [highestmodseq].
  rewrite bool_decide_eq_false_2 by lia. mrun. done.
Qed.

(** X16. A pass of [poll] over a folder that has no checkpoint, as before
    any initial sync, raises [AttributeError] at [cached_validity.highestmodseq];
    the lease is returned and nothing has changed. *)
Theorem poll_without_checkpoint w f :
  uidvalidities (db w) !! (me, folder) = None →
  folders (remote env) !! folder = Some f →
  poll env w
  = mkRes (inl (AttributeError
                  "'NoneType' object has no attribute 'highestmodseq'"))
      w [EvLease; EvRelease].
Proof.
  intros Hcv Hf. unfold poll, get_uidvalidity, self_account_id.
  rewrite run_bind. mrun. rewrite Hcv. rewrite run_bind, with_lease_run.
  unfold crispin_folder_status. rewrite Hf.
  repeat (rewrite run_bind; mrun). done.
Qed.

(** X17. With a checkpoint whose UIDVALIDITY the server no longer has,
    [initial_sync] raises [UIDInvalid] right after the SELECT, and so does
    [poll] when the HIGHESTMODSEQ has grown: the lease is returned, nothing is
    read from the folder and no table is written. *)
Theorem uidvalidity_mismatch_raises w cv f :
  uidvalidities (db w) !! (me, folder) = Some cv →
  folders (remote env) !! folder = Some f →
  uidvalidity_valid (UIDVALIDITY f) folder (uid_validity cv) = false →
  let raised :=
    mkRes (inl (UIDInvalid folder (UIDVALIDITY f) (uid_validity cv)))
      (set_selected
         (Some (folder, mkUIDValidity (UIDVALIDITY f) (HIGHESTMODSEQ f))) w)
      [EvLease; EvSelect folder; EvRelease] in
  initial_sync env w = raised
  ∧ (highestmodseq cv < HIGHESTMODSEQ f → poll env w = raised).
Proof.
  intros Hcv Hf Hbad raised.
  destruct (select_folder_checks_uidvalidity folder f w Hf) as (Hw & He & Hr).
  rewrite Hcv, Hbad in Hr. split.
  - unfold initial_sync, account_all_uids. rewrite run_bind. mrun.
    rewrite run_bind, with_lease_run. rewrite run_bind, Hr, Hw, He. done.
  - intros Hlt. unfold poll, get_uidvalidity, self_account_id.
    rewrite run_bind. mrun. rewrite Hcv. rewrite run_bind, with_lease_run.
    unfold crispin_folder_status. rewrite Hf.
    repeat (rewrite run_bind; mrun). cbn [highestmodseq].
    rewrite bool_decide_eq_true_2 by lia.
    rewrite run_bind, Hr, Hw, He. done.
Qed.

Lemma selected_info_run w i :
  selected w = Some i → selected_info w = mkRes (inr i) w [].
Proof.
  intros Hsel. unfold selected_info. rewrite run_bind. mrun. by rewrite Hsel.
Qed.

(** [_highestmodseq_update] that returns has written the checkpoint of the
    folder that was selected when it started. *)
Lemma highestmodseq_update_checkpoint last w name sv :
  selected w = Some (name, sv) →
  result (_highestmodseq_update env last w) = inr tt →
  uidvalidities (db (world (_highestmodseq_update env last w))) !! (me, folder)
  = Some (mkUIDValidity (uid_validity sv) (highestmodseq sv)).
Proof.
  intros Hsel. unfold _highestmodseq_update.
  intros (s & Hs & Hres & ->)%bind_inr_inv.
  rewrite (selected_info_run w _ Hsel) in *. injection Hs as <-.
  cbn [fst snd world] in *.
  apply bind_inr_inv in Hres as (local_uids & _ & Hres & ->).
  apply bind_inr_inv in Hres as (g_metadata & _ & Hres & ->).
  apply bind_inr_inv in Hres as (uids & _ & Hres & ->).
  apply bind_inr_inv in Hres as (remote_uids & _ & Hres & ->).
  apply bind_inr_inv in Hres as ([] & _ & Hres & ->).
  unfold _update_validity, commit, self_account_id.
  repeat (rewrite run_bind; mrun). by rewrite lookup_insert_eq.
Qed.

(** After a pass of [poll] that returns, the checkpoint is not behind the
    mailbox. *)
Lemma poll_checkpoint w state :
  result (poll env w) = inr state →
  ∃ cv f,
    uidvalidities (db (world (poll env w))) !! (me, folder) = Some cv
    ∧ folders (remote env) !! folder = Some f
    ∧ (HIGHESTMODSEQ f <= highestmodseq cv)%Z.
Proof.
  destruct (uidvalidities (db w) !! (me, folder)) as [cv|] eqn:Hcv;
    destruct (folders (remote env) !! folder) as [f|] eqn:Hf.
  2,3,4: unfold poll, get_uidvalidity, self_account_id, crispin_folder_status;
    rewrite run_bind; mrun; rewrite Hcv; rewrite run_bind, with_lease_run;
    rewrite Hf; repeat (rewrite run_bind; mrun); done.
  destruct (decide (HIGHESTMODSEQ f <= highestmodseq cv)%Z) as [Hle|Hgt].
  { rewrite (poll_up_to_date w cv f Hcv Hf Hle). intros _.
    exists cv, f. done. }
  unfold poll, get_uidvalidity, self_account_id, crispin_folder_status.
  rewrite run_bind. mrun. rewrite Hcv. rewrite run_bind, with_lease_run.
  rewrite Hf. repeat (rewrite run_bind; mrun). cbn [highestmodseq].
  rewrite bool_decide_eq_true_2 by lia.
  set (A := select_folder env folder ≫= _).
  destruct (result (A w)) as [e|[]] eqn:HA; [by mrun|].
  unfold status_callback. repeat (rewrite run_bind; mrun). intros _.
  exists (mkUIDValidity (UIDVALIDITY f) (HIGHESTMODSEQ f)), f.
  split_and!; [|done|cbn; lia].
  subst A. apply bind_inr_inv in HA as ([] & Hsel & Hupd & ->).
  destruct (select_folder_checks_uidvalidity folder f w Hf) as (Hw & _ & _).
  rewrite Hw in *.
  by apply (highestmodseq_update_checkpoint _ _ folder
              (mkUIDValidity (UIDVALIDITY f) (HIGHESTMODSEQ f))).
Qed.

(** X18. After a pass of [poll] that returns, the checkpoint is not behind
    the mailbox, and a second pass over the unchanged mailbox only reports and
    sleeps: no SELECT, no fetch, no removal, no commit; the tables are
    untouched. *)
Theorem poll_again_changes_nothing w state :
  result (poll env w) = inr state →
  let w1 := world (poll env w) in
  poll env w1
  = mkRes (inr "poll") (polled w1)
      [EvLease; EvStatus me "poll" folder (Timestamp (utcnow env));
       EvSleep (poll_frequency env); EvRelease]
  ∧ db (polled w1) = db w1
  ∧ committed (polled w1) = committed w1.
Proof.
  intros Hres w1.
  destruct (poll_checkpoint w state Hres) as (cv & f & Hcv & Hf & Hle).
  split; [by apply (poll_up_to_date w1 cv f)|done].
Qed.

(** X19. After a pass of [poll] that returns, [sync_status] of the account
    has the entry [('poll', time of the pass)] for the folder. *)
Theorem poll_reports_status w state :
  result (poll env w) = inr state →
  ∃ report,
    result (sync_status me (world (poll env w))) = inr (Some report)
    ∧ report !! folder = Some ("poll", Timestamp (utcnow env)).
Proof.
  unfold poll. intros Hres.
  apply bind_inr_inv in Hres as (cached & _ & Hres & ->).
  apply bind_inr_inv in Hres as ([] & Hres & _ & ->).
  set (w0 := world (get_uidvalidity env folder w)) in *.
  rewrite with_lease_run in *. cbn [result world] in *. mrun.
  apply bind_inr_inv in Hres as (status & _ & Hres & ->).
  apply bind_inr_inv in Hres as (cv & _ & Hres & ->).
  apply bind_inr_inv in Hres as ([] & _ & Hres & ->).
  unfold status_callback, sync_status, self_account_id.
  repeat (rewrite run_bind; mrun). rewrite lookup_insert_eq.
  eexists. split; [done|]. by rewrite lookup_insert_eq.
Qed.

End Passes.

(** ** The states of a worker *)

Lemma preserves_with_lease (R : relation World) {A} (body : M A) :
  preserves R body → preserves R (with_lease body).
Proof. intros H w. apply H. Qed.

Lemma keeps_invariant {X} (f : World → X) (I : X → Prop) {A} (m : M A) :
  keeps f m → invariant (fun w => I (f w)) m.
Proof. intros H w Hw. by rewrite (H w). Qed.

Section WorkerState.

Variable env : Env.

#[local] Abbreviation row := (self_account_id env, self_folder_name env).

(** The row of the worker and [self.state]. *)
#[local] Abbreviation worker_state :=
  (fun w : World => (foldersyncs (db w), self_state w)).

Lemma keeps_state_detector_run rounds : keeps worker_state (detector_run rounds).
Proof.
  unfold keeps.
  induction rounds as [|n IH]; cbn [detector_run]; [apply preserves_ret; apply _|].
  apply preserves_bind; [apply _| |done].
  unfold detector_step. unfold_collaborators. preserves_tac.
Qed.

Lemma keeps_state_select_folder name : keeps worker_state (select_folder env name).
Proof.
  unfold keeps, select_folder, uidvalidity_callback. unfold_collaborators.
  preserves_tac.
Qed.

Lemma keeps_state_download_new_messages uids :
  keeps worker_state (_download_new_messages env uids).
Proof.
  unfold keeps, _download_new_messages, safe_download, save_parts, event_wait.
  unfold_collaborators. preserves_tac. apply keeps_state_detector_run.
Qed.

Lemma keeps_state_deduplicate_message_download md uids :
  keeps worker_state (_deduplicate_message_download env md uids).
Proof.
  unfold keeps, _deduplicate_message_download, _add_new_folderitem.
  unfold_collaborators. preserves_tac.
Qed.

Lemma keeps_state_update_metadata uids :
  keeps worker_state (_update_metadata env uids).
Proof. unfold keeps, _update_metadata. unfold_collaborators. preserves_tac. Qed.

Lemma keeps_state_download_expanded_threads md uids flags :
  keeps worker_state (_download_expanded_threads env md uids flags).
Proof.
  unfold keeps, _download_expanded_threads, group_by_thrid.
  unfold_collaborators.
  preserves_tac;
    first [ apply keeps_state_select_folder
          | apply keeps_state_deduplicate_message_download
          | apply keeps_state_download_new_messages ].
Qed.

Lemma keeps_state_highestmodseq_update last_highestmodseq :
  keeps worker_state (_highestmodseq_update env last_highestmodseq).
Proof.
  unfold keeps, _highestmodseq_update, _remove_deleted_messages, _update_validity.
  unfold_collaborators.
  preserves_tac;
    first [ apply keeps_state_download_expanded_threads
          | apply keeps_state_deduplicate_message_download
          | apply keeps_state_download_new_messages
          | apply keeps_state_update_metadata ].
Qed.

Lemma keeps_state_poll : keeps worker_state (poll env).
Proof.
  unfold keeps, poll. unfold_collaborators.
  apply preserves_bind; [apply _|preserves_tac|intros cv].
  apply preserves_bind; [apply _| |preserves_tac].
  apply preserves_with_lease.
  preserves_tac;
    first [ apply keeps_state_select_folder
          | apply keeps_state_highestmodseq_update ].
Qed.

Lemma keeps_state_initial_sync : keeps worker_state (initial_sync env).
Proof.
  unfold keeps, initial_sync. 
  apply preserves_bind; [apply _|unfold_collaborators; preserves_tac|intros uids].
  apply preserves_bind; [apply _| |unfold_collaborators; preserves_tac].
  apply preserves_with_lease.
  unfold _retrieve_g_metadata_cache, _update_g_metadata_cache,
    _remove_deleted_messages, _update_validity, get_cache.
  unfold_collaborators.
  preserves_tac;
    first [ apply keeps_state_select_folder
          | apply keeps_state_download_expanded_threads
          | apply keeps_state_deduplicate_message_download
          | apply keeps_state_download_new_messages
          | apply keeps_state_update_metadata ].
Qed.

Lemma poll_returns_poll w state :
  result (poll env w) = inr state → state = "poll".
Proof.
  unfold poll, get_uidvalidity. rewrite run_bind. mrun. rewrite run_bind.
  match goal with |- context [result (with_lease ?b ?w0)] =>
    destruct (result (with_lease b w0)) as [e|[]] end; [done|].
  mrun. congruence.
Qed.

Lemma known_states state :
  known_state env state ↔
  state ∈ ["initial"; "initial uidinvalid"; "poll"; "poll uidinvalid"; "finish"].
Proof.
  unfold known_state, state_handlers. split.
  - intros Hk. repeat case_bool_decide; subst;
      by apply (bool_decide_unpack _).
  - intros Hin. repeat (apply elem_of_cons in Hin as [->|Hin]); try done.
    by apply elem_of_nil in Hin.
Qed.

Lemma handler_keeps_state state handler :
  state_handlers env state = Some handler → keeps worker_state handler.
Proof.
  unfold state_handlers. intros Hh. repeat case_bool_decide; simplify_eq.
  - apply keeps_state_initial_sync.
  - by intros w.
  - apply keeps_state_poll.
  - by intros w.
  - by intros w.
Qed.

Lemma handler_returns_known state handler w state' :
  state_handlers env state = Some handler →
  result (handler w) = inr state' → known_state env state'.
Proof.
  unfold state_handlers. intros Hh Hr. apply known_states.
  repeat case_bool_decide; simplify_eq.
  - apply initial_sync_returns in Hr as ->.
    destruct (bool_decide _); by apply (bool_decide_unpack _).
  - rewrite (poll_returns_poll _ _ Hr). by apply (bool_decide_unpack _).
  - injection Hr as <-. by apply (bool_decide_unpack _).
Qed.

Lemma handler_uidinvalid state handler w a b c :
  state_handlers env state = Some handler →
  result (handler w) = inl (UIDInvalid a b c) →
  state = "initial" ∨ state = "poll".
Proof.
  unfold state_handlers. intros Hh Hr.
  repeat case_bool_decide; simplify_eq; auto.
Qed.

(** A round in which the handler raises [UIDInvalid]. *)
Lemma run_handler_uidinvalid handler w state a b c :
  result (handler w) = inl (UIDInvalid a b c) →
  self_state (world (handler w)) = Some state →
  let r := run_handler env handler w in
  result r = inr tt
  ∧ events r = events (handler w)
  ∧ foldersyncs (db (world r)) !! row = Some (state +:+ " uidinvalid")
  ∧ self_state (world r) = Some (state +:+ " uidinvalid").
Proof.
  intros Hh Hs. unfold run_handler, set_foldersync_state. rewrite Hh.
  repeat (rewrite run_bind; mrun). rewrite Hs.
  repeat (rewrite run_bind; mrun). rewrite !app_nil_r, lookup_insert_eq. done.
Qed.

(** X20. A round of the worker whose handler raises [UIDInvalid] is a
    round of ['initial'] or ['poll']; it assigns the state followed by
    [' uidinvalid'] to the row and to [self.state] and commits it, and the
    worker goes on; its next round calls [resync_uids] and the worker stops
    with [NotImplementedError]. *)
Theorem uidinvalid_is_persisted w state handler a b c rounds :
  foldersyncs (db w) !! row = Some state →
  self_state w = Some state →
  state_handlers env state = Some handler →
  result (handler w) = inl (UIDInvalid a b c) →
  let r := run_iteration env w in
  (state = "initial" ∨ state = "poll")
  ∧ result r = inr false
  ∧ events r = events (handler w) ++ [EvCommit]
  ∧ foldersyncs (committed (world r)) !! row = Some (state +:+ " uidinvalid")
  ∧ self_state (world r) = Some (state +:+ " uidinvalid")
  ∧ result (run_loop env (S (S rounds)) w) = inl NotImplementedError.
Proof.
  intros Hrow Hself Hh Hres r.
  pose proof (handler_uidinvalid state handler w a b c Hh Hres) as Hstate.
  pose proof (handler_keeps_state state handler Hh w) as Hkeep.
  cbv beta in Hkeep. injection Hkeep as Hfs Hss. rewrite Hself in Hss.
  destruct (run_handler_uidinvalid handler w state a b c Hres Hss)
    as (Hr & He & Hf & Hs).
  assert (Hiter : run_iteration env w
    = mkRes (inr false)
        (set_committed (db (world (run_handler env handler w)))
           (world (run_handler env handler w)))
        (events (handler w) ++ [EvCommit])).
  { unfold run_iteration.
    rewrite run_bind, (foldersync_state_run env w state Hrow). mrun.
    rewrite Hh. rewrite run_bind. mrun. rewrite run_bind, Hr.
    unfold commit. repeat (rewrite run_bind; mrun).
    rewrite He, Hs, !app_nil_r. f_equal. f_equal.
    apply bool_decide_eq_false_2. intros [= Heq].
    destruct Hstate as [-> | ->]; done. }
  subst r. rewrite Hiter. mrun. split_and!; try done.
  cbn [run_loop]. rewrite run_bind, Hiter. mrun.
  set (w1 := set_committed _ _).
  assert (Hrow1 : foldersyncs (db w1) !! row = Some (state +:+ " uidinvalid"))
    by done.
  assert (Hh1 : state_handlers env (state +:+ " uidinvalid")
               = Some (resync_uids state)).
  { by destruct Hstate as [-> | ->]. }
  rewrite run_bind. unfold run_iteration at 1.
  rewrite run_bind, (foldersync_state_run env w1 _ Hrow1). mrun.
  rewrite Hh1. rewrite run_bind. mrun. rewrite run_bind.
  rewrite (run_handler_raises env _ w1 NotImplementedError); [|done..].
  done.
Qed.

Lemma run_iteration_keeps_table w :
  state_in_table env w → state_in_table env (world (run_iteration env w)).
Proof.
  intros (state & Hrow & Hself & [handler Hh]).
  pose proof (handler_keeps_state state handler Hh w) as Hkeep.
  cbv beta in Hkeep. injection Hkeep as Hfs Hss.
  unfold run_iteration.
  rewrite run_bind, (foldersync_state_run env w state Hrow). mrun.
  rewrite Hh. rewrite run_bind. mrun. rewrite run_bind.
  destruct (result (handler w)) as [e|state'] eqn:Hres.
  - destruct e as [a b c| | | | | | | |];
      try (rewrite (run_handler_raises env handler w _ Hres) by done; mrun;
           exists state; rewrite Hfs, Hss; split_and!; [done..|by exists handler]).
    rewrite Hself in Hss.
    destruct (run_handler_uidinvalid handler w state a b c Hres Hss)
      as (Hr & He & Hf & Hs).
    rewrite Hr. unfold commit. repeat (rewrite run_bind; mrun).
    exists (state +:+ " uidinvalid"). split_and!; [done..|].
    apply known_states.
    destruct (handler_uidinvalid state handler w a b c Hh Hres) as [-> | ->];
      by apply (bool_decide_unpack _).
  - destruct (run_handler_returns env handler w state' Hres)
      as (Hr & He & Hf & Hs & _).
    rewrite Hr. unfold commit. repeat (rewrite run_bind; mrun).
    exists state'. split_and!; [done..|].
    by eapply handler_returns_known.
Qed.

Lemma run_loop_keeps_table : ∀ rounds w,
  state_in_table env w → state_in_table env (world (run_loop env rounds w)).
Proof.
  induction rounds as [|n IH]; intros w Hw; cbn [run_loop]; [done|].
  rewrite run_bind. pose proof (run_iteration_keeps_table w Hw) as H1.
  destruct (result (run_iteration env w)) as [e|[]]; mrun; [done..|].
  by apply IH.
Qed.

(** X21. Whatever the handlers do, return or raise, the row of a worker
    that had no row or a state of the handler table holds a state of the
    handler table after any number of rounds, and [self.state] is that state:
    the look-up [self.state_handlers[foldersync.state]] never misses. *)
Theorem folder_state_stays_known w rounds :
  (∀ state, foldersyncs (db w) !! row = Some state → known_state env state) →
  state_in_table env (world (_run env rounds w)).
Proof.
  intros Hw. unfold _run, load_foldersync.
  rewrite run_bind.
  assert (Hload : ∃ w1, state_in_table env w1 ∧
    ∀ k : unit → M (option unit),
      world ((load_foldersync env ≫= k) w) = world (k tt w1)).
  { unfold load_foldersync, set_foldersync_state, commit, foldersync_state.
    destruct (foldersyncs (db w) !! row) as [state|] eqn:Hrow.
    - eexists. split; last first.
      + intros k. repeat (rewrite run_bind; mrun). rewrite Hrow. mrun.
        repeat (rewrite run_bind; mrun). rewrite Hrow. mrun. reflexivity.
      + exists state. split_and!; [done..|]. by apply Hw.
    - eexists. split; last first.
      + intros k. repeat (rewrite run_bind; mrun). rewrite Hrow. mrun.
        repeat (rewrite run_bind; mrun). rewrite lookup_insert_eq. mrun.
        reflexivity.
      + exists "initial". split_and!; [|done|by eexists].
        mrun. unfold self_account_id. by rewrite lookup_insert_eq. }
  destruct Hload as (w1 & Hw1 & Hk).
  specialize (Hk (fun _ => run_loop env rounds)). unfold load_foldersync in Hk.
  rewrite run_bind in Hk. rewrite Hk. by apply run_loop_keeps_table.
Qed.

End WorkerState.

(** ** What [initial_sync] fetches and what it leaves in the cache *)

Section IfReturns.
Context (Q : Event → Prop).

Lemma emits_if_returns_emits {A} (m : M A) : emits Q m → emits_if_returns Q m.
Proof. intros H w x _. apply H. Qed.

Lemma emits_if_returns_bind {A B} (P : A → Prop) (m : M A) (k : A → M B) :
  emits_if_returns Q m →
  (∀ w x, result (m w) = inr x → P x) →
  (∀ x, P x → emits_if_returns Q (k x)) →
  emits_if_returns Q (m ≫= k).
Proof.
  intros Hm HP Hk w y Hres.
  apply bind_inr_inv in Hres as (x & Hx & Hy & _).
  rewrite run_bind, Hx. mrun. apply Forall_app. split.
  - by eapply Hm.
  - eapply Hk; [by eapply HP|done].
Qed.

Lemma emits_if_returns_with_lease {A} (body : M A) :
  Q EvLease → Q EvRelease →
  emits_if_returns Q body → emits_if_returns Q (with_lease body).
Proof.
  intros Hl Hr Hb w x Hres. rewrite with_lease_run in *. mrun.
  constructor; [done|]. apply Forall_app. split; [by eapply Hb|by constructor].
Qed.

(** A loop whose body always raises returns only when it has no round. *)
Lemma emits_if_returns_for_each_raising {A} (l : list A) (body : A → M unit) :
  (∀ x w, ∃ e, result (body x w) = inl e) →
  emits_if_returns Q (for_each l body).
Proof.
  intros Hb w x. destruct l as [|a l]; [by constructor|].
  cbn [for_each]. rewrite run_bind. destruct (Hb a w) as [e ->]. done.
Qed.

End IfReturns.

Section InitialSync.

Variable env : Env.

Lemma no_fetch_select_folder name : emits no_fetch (select_folder env name).
Proof.
  unfold select_folder, uidvalidity_callback. unfold_collaborators.
  emits_tac. by intros (? & ? & ?).
Qed.

Lemma no_fetch_update_metadata uids : emits no_fetch (_update_metadata env uids).
Proof.
  unfold _update_metadata. unfold_collaborators. emits_tac.
  by intros (? & ? & ?).
Qed.

Lemma no_fetch_deduplicate_message_download md uids :
  emits no_fetch (_deduplicate_message_download env md uids).
Proof.
  unfold _deduplicate_message_download, _add_new_folderitem.
  unfold_collaborators. emits_tac. all: by intros (? & ? & ?).
Qed.

Lemma no_fetch_retrieve_g_metadata_cache local_uids cv :
  emits no_fetch (_retrieve_g_metadata_cache env local_uids cv).
Proof.
  unfold _retrieve_g_metadata_cache, _update_g_metadata_cache, get_cache.
  unfold_collaborators. emits_tac;
    first [apply no_fetch_update_metadata | by intros (? & ? & ?)].
Qed.

Lemma not_expanding_threads w :
  provider (account env) ≠ "Gmail"
  ∨ folder_names (remote env) !! "All" = Some (self_folder_name env) →
  gmail_and_not_all_mail env w = mkRes (inr false) w [].
Proof.
  intros Hplain. unfold gmail_and_not_all_mail.
  destruct (decide (provider (account env) = "Gmail")) as [Hg|Hg].
  - destruct Hplain as [?|Hall]; [done|].
    rewrite (bool_decide_eq_true_2 _ Hg), Hall. rewrite run_bind. mrun.
    by rewrite bool_decide_eq_false_2 by (by intros ?).
  - by rewrite (bool_decide_eq_false_2 _ Hg).
Qed.

(** X22. For a folder whose threads are not expanded, which is every
    folder of an account that is not Gmail and the All Mail folder of Gmail, an
    [initial_sync] that returns has fetched no message: once a chunk has been
    downloaded, the addition of the list of its items to the message count
    raises. *)
Theorem initial_sync_returns_without_download w state :
  provider (account env) ≠ "Gmail"
  ∨ folder_names (remote env) !! "All" = Some (self_folder_name env) →
  result (initial_sync env w) = inr state →
  Forall no_fetch (events (initial_sync env w)).
Proof.
  intros Hplain. revert w state.
  change (emits_if_returns no_fetch (initial_sync env)).
  assert (Hnf : ∀ e, (∀ f u, e ≠ EvFetch f u) → no_fetch e).
  { intros e He (f & u & ->). by eapply He. }
  unfold initial_sync.
  apply (emits_if_returns_bind _ (fun _ => True)); [|done|intros local_uids _].
  { apply emits_if_returns_emits. unfold_collaborators. emits_tac. }
  apply (emits_if_returns_bind _ (fun _ => True)); [|done|intros _ _].
  2:{ apply emits_if_returns_emits. unfold_collaborators. emits_tac. }
  apply emits_if_returns_with_lease; [by apply Hnf..|].
  apply (emits_if_returns_bind _ (fun _ => True)); [|done|intros _ _].
  { apply emits_if_returns_emits, no_fetch_select_folder. }
  apply (emits_if_returns_bind _ (fun _ => True)); [|done|intros cached _].
  { apply emits_if_returns_emits. unfold_collaborators. emits_tac. }
  apply (emits_if_returns_bind _ (fun _ => True)); [|done|intros md0 _].
  { apply emits_if_returns_emits.
    destruct cached; [apply no_fetch_retrieve_g_metadata_cache|apply emits_ret]. }
  apply (emits_if_returns_bind _ (fun _ => True)); [|done|intros md _].
  { apply emits_if_returns_emits. unfold _update_validity.
    unfold_collaborators. emits_tac. }
  apply (emits_if_returns_bind _ (fun _ => True)); [|done|intros deleted _].
  { apply emits_if_returns_emits. unfold _remove_deleted_messages.
    unfold_collaborators. emits_tac. }
  apply (emits_if_returns_bind _ (fun gmail => gmail = false)).
  { apply emits_if_returns_emits. unfold_collaborators. emits_tac. }
  { intros w gmail. rewrite (not_expanding_threads w Hplain). by intros [= <-]. }
  intros gmail ->.
  apply (emits_if_returns_bind _ (fun _ => True)); [|done|intros full_download _].
  { apply emits_if_returns_emits, no_fetch_deduplicate_message_download. }
  destruct (bool_decide (full_download ≠ [])).
  - apply emits_if_returns_for_each_raising. intros uids w.
    rewrite run_bind. destruct (result (_download_new_messages env uids w));
      by eexists.
  - apply emits_if_returns_emits, emits_ret.
Qed.

Lemma keeps_cache_detector_run rounds : keeps cache (detector_run rounds).
Proof.
  unfold keeps.
  induction rounds as [|n IH]; cbn [detector_run]; [apply preserves_ret; apply _|].
  apply preserves_bind; [apply _| |done].
  unfold detector_step. unfold_collaborators. preserves_tac.
Qed.

Lemma keeps_cache_select_folder name : keeps cache (select_folder env name).
Proof.
  unfold keeps, select_folder, uidvalidity_callback. unfold_collaborators.
  preserves_tac.
Qed.

Lemma keeps_cache_download_new_messages uids :
  keeps cache (_download_new_messages env uids).
Proof.
  unfold keeps, _download_new_messages, safe_download, save_parts, event_wait.
  unfold_collaborators. preserves_tac. apply keeps_cache_detector_run.
Qed.

Lemma keeps_cache_deduplicate_message_download md uids :
  keeps cache (_deduplicate_message_download env md uids).
Proof.
  unfold keeps, _deduplicate_message_download, _add_new_folderitem.
  unfold_collaborators. preserves_tac.
Qed.

Lemma keeps_cache_download_expanded_threads md uids flags :
  keeps cache (_download_expanded_threads env md uids flags).
Proof.
  unfold keeps, _download_expanded_threads, group_by_thrid.
  unfold_collaborators.
  preserves_tac;
    first [ apply keeps_cache_select_folder
          | apply keeps_cache_deduplicate_message_download
          | apply keeps_cache_download_new_messages ].
Qed.

(** An entry under the key that [_update_g_metadata_cache] writes. *)
#[local] Abbreviation written w :=
  (is_Some (cache w !! updated_g_metadata_key env)).

Lemma written_initial_sync : invariant (fun w => written w) (initial_sync env).
Proof.
  pose proof (cache_keys_differ env) as Hne.
  unfold invariant, initial_sync.
  apply preserves_bind; [apply _|unfold_collaborators; preserves_tac|intros uids].
  apply preserves_bind; [apply _| |intros _].
  2:{ unfold rm_cache. preserves_tac. mrun. by rewrite lookup_delete_ne. }
  apply preserves_with_lease.
  unfold _retrieve_g_metadata_cache, _update_g_metadata_cache,
    _remove_deleted_messages, _update_validity, get_cache, set_cache,
    _update_metadata.
  unfold status_callback, metadata_of, gmail_and_not_all_mail,
    crispin_all_uids, crispin_g_metadata, crispin_flags,
    crispin_new_and_updated_uids, selected_info, selected_remote_folder,
    account_all_uids, get_uidvalidity, account_remove_messages,
    account_update_metadata, commit.
  preserves_tac;
    first [ apply (keeps_invariant cache (fun c => is_Some (c !! _)));
            first [ apply keeps_cache_select_folder
                  | apply keeps_cache_download_expanded_threads
                  | apply keeps_cache_deduplicate_message_download
                  | apply keeps_cache_download_new_messages ]
          | idtac ].
  all: mrun; apply lookup_insert_is_Some.
  - by left.
  - right. split; [congruence|done].
Qed.

(** X23. When [initial_sync] returns, there is no [remote_g_metadata] entry
    under the key it reads; an entry under the key that
    [_update_g_metadata_cache] writes is never removed, whether the run
    returns or raises. *)
Theorem initial_sync_cache_entries w :
  let r := initial_sync env w in
  (∀ state, result r = inr state →
     cache (world r) !! remote_g_metadata_key env = None)
  ∧ (is_Some (cache w !! updated_g_metadata_key env) →
     is_Some (cache (world r) !! updated_g_metadata_key env)).
Proof.
  intros r. split; [|apply written_initial_sync].
  subst r. unfold initial_sync. intros state.
  intros (local_uids & _ & Hres & ->)%bind_inr_inv.
  apply bind_inr_inv in Hres as ([] & _ & Hres & ->).
  apply bind_inr_inv in Hres as ([] & _ & Hres & ->).
  unfold rm_cache. repeat (rewrite run_bind; mrun).
  destruct (bool_decide _); mrun; by rewrite lookup_delete_eq.
Qed.

End InitialSync.

(** ** A worker of a polled folder *)

Section Unfinished.

Variable env : Env.

#[local] Abbreviation row := (self_account_id env, self_folder_name env).

(** The row holds a state of the table other than ['finish'], and
    [self.state] is that state. *)
#[local] Abbreviation unfinished w :=
  (∃ state, foldersyncs (db w) !! row = Some state
            ∧ self_state w = Some state
            ∧ known_state env state ∧ state ≠ "finish").

Lemma run_iteration_unfinished w :
  self_folder_name env ∈ poll_folders (remote env) →
  unfinished w →
  unfinished (world (run_iteration env w))
  ∧ result (run_iteration env w) ≠ inr true.
Proof.
  intros Hpoll (state & Hrow & Hself & [handler Hh] & Hnf).
  pose proof (handler_keeps_state env state handler Hh w) as Hkeep.
  cbv beta in Hkeep. injection Hkeep as Hfs Hss.
  unfold run_iteration.
  rewrite run_bind, (foldersync_state_run env w state Hrow). mrun.
  rewrite Hh. rewrite run_bind. mrun. rewrite run_bind.
  destruct (result (handler w)) as [e|state'] eqn:Hres.
  - destruct e as [a b c| | | | | | | |];
      try (rewrite (run_handler_raises env handler w _ Hres) by done; mrun;
           split; [|done];
           exists state; rewrite Hfs, Hss; split_and!; [done..|by exists handler|done]).
    rewrite Hself in Hss.
    destruct (run_handler_uidinvalid env handler w state a b c Hres Hss)
      as (Hr & He & Hf & Hs).
    rewrite Hr. unfold commit. repeat (rewrite run_bind; mrun). rewrite Hs.
    destruct (handler_uidinvalid env state handler w a b c Hh Hres) as [-> | ->].
    + split; [|by rewrite bool_decide_eq_false_2].
      exists "initial uidinvalid". split_and!; [done..|by eexists|done].
    + split; [|by rewrite bool_decide_eq_false_2].
      exists "poll uidinvalid". split_and!; [done..|by eexists|done].
  - destruct (run_handler_returns env handler w state' Hres)
      as (Hr & He & Hf & Hs & _).
    rewrite Hr. unfold commit. repeat (rewrite run_bind; mrun). rewrite Hs.
    assert (Hstate' : state' = "poll").
    { revert Hh Hres. unfold state_handlers.
      repeat case_bool_decide; intros; simplify_eq.
      - apply initial_sync_returns in Hres as ->.
        by rewrite bool_decide_eq_true_2.
      - by apply (poll_returns_poll env w). }
    subst state'. split; [|by rewrite bool_decide_eq_false_2].
    exists "poll". split_and!; [done..|by eexists|done].
Qed.

Lemma run_loop_unfinished : ∀ rounds w,
  self_folder_name env ∈ poll_folders (remote env) →
  unfinished w →
  match result (run_loop env rounds w) with
  | inr (Some _) => False
  | _ => True
  end.
Proof.
  induction rounds as [|n IH]; intros w Hpoll Hw; cbn [run_loop]; [done|].
  rewrite run_bind. destruct (run_iteration_unfinished w Hpoll Hw) as [Hw1 Hr].
  destruct (result (run_iteration env w)) as [e|[]]; mrun; [done..|].
  by apply IH.
Qed.

(** X25. The worker of a folder that the server lists in [poll_folders],
    started on no row or on a row whose state is in the handler table and is
    not ['finish'], never returns from [_run]: after any number of rounds of
    [while True] it is still running or it has stopped with an exception. *)
Theorem polling_worker_never_returns w rounds :
  self_folder_name env ∈ poll_folders (remote env) →
  (∀ state, foldersyncs (db w) !! row = Some state →
            known_state env state ∧ state ≠ "finish") →
  match result (_run env rounds w) with
  | inr (Some _) => False
  | _ => True
  end.
Proof.
  intros Hpoll Hw. unfold _run.
  rewrite run_bind.
  assert (Hload : ∃ w1,
    (∃ state, foldersyncs (db w1) !! row = Some state
              ∧ self_state w1 = Some state
              ∧ known_state env state ∧ state ≠ "finish")
    ∧ result (load_foldersync env w) = inr tt
    ∧ world (load_foldersync env w) = w1).
  { unfold load_foldersync, set_foldersync_state, commit, foldersync_state.
    destruct (foldersyncs (db w) !! row) as [state|] eqn:Hrow.
    - eexists. split; last first.
      + repeat (rewrite run_bind; mrun). rewrite Hrow. mrun.
        repeat (rewrite run_bind; mrun). rewrite Hrow. mrun. done.
      + exists state. destruct (Hw state eq_refl). split_and!; done.
    - eexists. split; last first.
      + repeat (rewrite run_bind; mrun). rewrite Hrow. mrun.
        repeat (rewrite run_bind; mrun). rewrite lookup_insert_eq. mrun.
        done.
      + exists "initial". split_and!; [|done|by eexists|done].
        mrun. by rewrite lookup_insert_eq. }
  destruct Hload as (w1 & Hw1 & -> & ->). mrun.
  pose proof (run_loop_unfinished rounds w1 Hpoll Hw1) as H.
  by destruct (result (run_loop env rounds w1)) as [e|[[]|]].
Qed.

End Unfinished.

(** ** Deduplication of the download *)

(** The world after a bind, by cases on its first part. *)
Lemma bind_world {A B} (m : M A) (k : A → M B) (w : World) (P : World → Prop) :
  P (world (m w)) →
  (∀ x, result (m w) = inr x → P (world (k x (world (m w))))) →
  P (world ((m ≫= k) w)).
Proof.
  intros Hm Hk. rewrite run_bind.
  destruct (result (m w)) as [e|x]; mrun; [done|by apply Hk].
Qed.

Lemma for_list_inr {A B} (f : A → M B) (Q : B → Prop) : ∀ (l : list A) w ys,
  (∀ x w' y, x ∈ l → result (f x w') = inr y → Q y) →
  result (for_list l f w) = inr ys → Forall Q ys.
Proof.
  induction l as [|x l IH]; intros w ys Hf; cbn [for_list].
  - intros [= <-]. constructor.
  - intros (y & Hy & Hres & _)%bind_inr_inv.
    apply bind_inr_inv in Hres as (ys' & Hys & Hres & _).
    injection Hres as <-. constructor.
    + eapply Hf; [by left|done].
    + eapply IH; [|done]. intros x' w' y' Hx'. apply Hf. by right.
Qed.

Lemma for_list_keeps_world {A B} (f : A → M B) (l : list A) :
  (∀ x, keeps (fun w => w) (f x)) → keeps (fun w => w) (for_list l f).
Proof. intros Hf. unfold keeps. preserves_tac. Qed.

Lemma foldl_add_message_known (ms new : list Message) :
  Forall (fun m => m ∈ ms) new → foldl add_message ms new = ms.
Proof.
  induction 1 as [|m new Hm _ IH]; [done|]. simpl.
  unfold add_message at 2. rewrite bool_decide_eq_true_2; [done|].
  apply list_elem_of_fmap. by exists m.
Qed.

Section Dedup.

Variable env : Env.

Lemma crispin_flags_keeps_world uids :
  keeps (fun w => w) (crispin_flags env uids).
Proof. unfold keeps. unfold_collaborators. preserves_tac. Qed.

Lemma add_new_folderitem_keeps_messages md uids :
  keeps (fun w => messages (db w)) (_add_new_folderitem env md uids).
Proof.
  intros w. unfold _add_new_folderitem.
  apply bind_world; [by rewrite (crispin_flags_keeps_world uids w)|].
  intros flags _. rewrite (crispin_flags_keeps_world uids w).
  apply bind_world; [by rewrite (selected_info_keeps_world w)|].
  intros s _. rewrite (selected_info_keeps_world w).
  apply bind_world; [done|]. intros local_folder_uids _. mrun.
  destruct (bool_decide _); [|done].
  set (uids' := filter _ uids).
  match goal with |- context [for_list uids' ?f ≫= _] => set (F1 := f) end.
  assert (HF1 : ∀ x, keeps (fun w => w) (F1 x)).
  { intros x. unfold keeps, F1, metadata_of. preserves_tac. }
  apply bind_world; [by rewrite (for_list_keeps_world F1 uids' HF1 w)|].
  intros g_msgids _. rewrite (for_list_keeps_world F1 uids' HF1 w).
  apply bind_world; [done|]. intros found Hfound. mrun.
  injection Hfound as <-.
  set (found := filter _ (messages (db w))).
  match goal with |- context [for_list found ?f ≫= _] => set (F2 := f) end.
  assert (HF2 : ∀ x, keeps (fun w => w) (F2 x)).
  { intros x. unfold keeps, F2. preserves_tac. }
  apply bind_world; [by rewrite (for_list_keeps_world F2 found HF2 w)|].
  intros keyed Hkeyed. rewrite (for_list_keeps_world F2 found HF2 w).
  assert (Hk : Forall (fun p : Z * Message => p.2 ∈ messages (db w)) keyed).
  { eapply (for_list_inr F2); [|exact Hkeyed].
    intros mm w' [uid mm'] Hmm. unfold F2.
    intros (uid' & _ & Hret & _)%bind_inr_inv. injection Hret as <- <-.
    simpl. unfold found in Hmm. by apply list_elem_of_filter in Hmm as [_ ?]. }
  set (message_for := list_to_map (reverse keyed) : gmap Z Message).
  match goal with |- context [for_list uids' ?f ≫= _] => set (F3 := f) end.
  assert (HF3 : ∀ x, keeps (fun w => w) (F3 x)).
  { intros x. unfold keeps, F3. preserves_tac. }
  apply bind_world; [by rewrite (for_list_keeps_world F3 uids' HF3 w)|].
  intros items Hitems. rewrite (for_list_keeps_world F3 uids' HF3 w).
  assert (Hi : Forall (fun item => message item ∈ messages (db w)) items).
  { eapply (for_list_inr F3); [|exact Hitems].
    intros uid w' item _. unfold F3.
    intros (mm & Hget & Hret & _)%bind_inr_inv. injection Hret as <-.
    simpl. destruct (message_for !! uid) as [mm0|] eqn:Hl; [|done].
    injection Hget as <-.
    apply elem_of_list_to_map_2 in Hl. rewrite elem_of_reverse in Hl.
    rewrite Forall_forall in Hk. by apply (Hk _ Hl). }
  match goal with |- context [for_list items ?f ≫= _] => set (F4 := f) end.
  assert (HF4 : ∀ x, keeps (fun w => w) (F4 x)).
  { intros x. unfold keeps, F4. preserves_tac. }
  apply bind_world; [by rewrite (for_list_keeps_world F4 items HF4 w)|].
  intros items' Hitems'. rewrite (for_list_keeps_world F4 items HF4 w).
  assert (Hi' : Forall (fun item => message item ∈ messages (db w)) items').
  { eapply (for_list_inr F4); [|exact Hitems'].
    intros item w' item' Hin. unfold F4.
    intros (f & _ & Hret & _)%bind_inr_inv. injection Hret as <-.
    simpl. rewrite Forall_forall in Hi. by apply Hi. }
  unfold add_all, commit. repeat (rewrite run_bind; mrun).
  apply foldl_add_message_known. by apply Forall_fmap.
Qed.

Lemma for_list_Forall2 {A B} (f : A → M B) : ∀ (l : list A) w ys,
  result (for_list l f w) = inr ys →
  Forall2 (fun x y => ∃ w', result (f x w') = inr y) l ys.
Proof.
  induction l as [|x l IH]; intros w ys; cbn [for_list].
  - intros [= <-]. constructor.
  - intros (y & Hy & Hres & _)%bind_inr_inv.
    apply bind_inr_inv in Hres as (ys' & Hys & Hres & _).
    injection Hres as <-. constructor; [by eexists|by eapply IH].
Qed.

Lemma StronglySorted_List_filter {A} (R : relation A) (p : A → bool) l :
  StronglySorted R l → StronglySorted R (List.filter p l).
Proof.
  induction 1 as [|x l Hl IH Hx]; simpl; [constructor|].
  destruct (p x); [|done]. constructor; [done|].
  apply Forall_forall. intros y [Hy _]%list_elem_of_In%filter_In.
  rewrite Forall_forall in Hx. by apply Hx, list_elem_of_In.
Qed.

(** What a filter keeps of [sorted(l)] is in ascending order. *)
Lemma sorted_filter_ascending (p : Z → bool) l :
  StronglySorted Z.le (List.filter p (sorted l)).
Proof.
  apply StronglySorted_List_filter. unfold sorted.
  apply StronglySorted_merge_sort; apply _.
Qed.

Lemma elem_of_sorted (l : list Z) x : x ∈ sorted l ↔ x ∈ l.
Proof. unfold sorted. by rewrite merge_sort_Permutation. Qed.

(** X26. [_deduplicate_message_download] leaves the Message rows as they
    are and fetches no message, whether it returns or raises; the uids it
    returns for download are, in ascending order, those of the given uids
    whose X-GM-MSGID no Message of the account carries. *)
Theorem deduplicate_download_spec md uids w :
  let r := _deduplicate_message_download env md uids w in
  messages (db (world r)) = messages (db w)
  ∧ Forall no_fetch (events r)
  ∧ ∀ full_download, result r = inr full_download →
      StronglySorted Z.le full_download
      ∧ ∀ uid, uid ∈ full_download ↔
          uid ∈ uids
          ∧ ∃ m, md !! uid = Some m
                 ∧ Forall (fun msg => message_account msg = self_account_id env →
                                      g_msgid msg ≠ msgid m)
                     (messages (db w)).
Proof.
  intros r. split_and!.
  - subst r. unfold _deduplicate_message_download.
    match goal with |- context [for_list uids ?f ≫= _] => set (F := f) end.
    assert (HF : ∀ x, keeps (fun w => w) (F x)).
    { intros x. unfold keeps, F, metadata_of. preserves_tac. }
    apply bind_world; [by rewrite (for_list_keeps_world F uids HF w)|].
    intros in_ _. rewrite (for_list_keeps_world F uids HF w).
    unfold account_g_msgids.
    apply bind_world; [done|]. intros local_g_msgids _. mrun.
    destruct (partition _ _) as [full_download folderitem_only].
    assert (Hbody : ∀ body : M unit,
      body = (if bool_decide (0 < length folderitem_only)%nat
              then _add_new_folderitem env md folderitem_only
              else mret tt) →
      messages (db (world (body w))) = messages (db w)).
    { intros body ->. destruct (bool_decide _); [|done].
      apply add_new_folderitem_keeps_messages. }
    apply bind_world; [by apply Hbody|].
    intros [] _. mrun. by apply Hbody.
  - apply no_fetch_deduplicate_message_download.
  - intros full_download. subst r. unfold _deduplicate_message_download.
    intros (in_ & Hin & Hres & _)%bind_inr_inv.
    match type of Hin with result (for_list uids ?f w) = _ => set (F := f) in * end.
    assert (HF : ∀ x, keeps (fun w => w) (F x)).
    { intros x. unfold keeps, F, metadata_of. preserves_tac. }
    rewrite (for_list_keeps_world F uids HF w) in Hres.
    apply for_list_Forall2 in Hin.
    assert (Hmd : ∀ uid, uid ∈ uids → ∃ m, md !! uid = Some m ∧ msgid m ∈ in_).
    { intros uid Huid.
      apply list_elem_of_lookup_1 in Huid as [i Hi].
      destruct (Forall2_lookup_l _ _ _ _ _ Hin Hi) as (y & Hy & w' & Hr).
      unfold F, metadata_of in Hr.
      apply bind_inr_inv in Hr as (m & Hm & Hr & _). injection Hr as <-.
      destruct (md !! uid) as [m0|]; [|done]. injection Hm as <-.
      exists m0. split; [done|]. by eapply list_elem_of_lookup_2. }
    apply bind_inr_inv in Hres as (local_g_msgids & Hl & Hres & _).
    unfold account_g_msgids in Hl. injection Hl as <-. revert Hres. mrun.
    set (local := g_msgid <$> filter _ (messages (db w))).
    unfold partition.
    intros (? & _ & Hres & _)%bind_inr_inv. injection Hres as <-.
    split; [apply sorted_filter_ascending|].
    intros uid. rewrite list_elem_of_In, filter_In, <- list_elem_of_In.
    rewrite elem_of_sorted. split.
    + intros [Huid Hpred]. split; [done|].
      destruct (Hmd uid Huid) as (m & Hm & Hmin). exists m. split; [done|].
      rewrite Hm in Hpred. apply negb_true_iff, bool_decide_eq_false in Hpred.
      apply Forall_forall. intros msg Hmsg Hacc Heq. apply Hpred.
      unfold local. apply list_elem_of_fmap. exists msg. split; [done|].
      apply list_elem_of_filter. split; [|done]. split; [done|]. by rewrite Heq.
    + intros [Huid (m & Hm & Hall)]. split; [done|].
      rewrite Hm. apply negb_true_iff, bool_decide_eq_false.
      intros (msg & Heq & Hmsg)%list_elem_of_fmap.
      apply list_elem_of_filter in Hmsg as [[Hacc _] Hmsg].
      rewrite Forall_forall in Hall. by apply (Hall msg Hmsg Hacc).
Qed.

End Dedup.

(** ** Removal of the messages the server no longer has *)


Section Deleted.

Variable env : Env.

End Deleted.

(** A worker of INBOX that polls, on the server of
    [Scenarios.gmail_remote]. *)
Lemma inbox_of_gmail_remote :
  folders (remote Scenarios.gmail_inbox_env) !! "INBOX" = Some Scenarios.inbox_folder.
Proof. vm_compute. reflexivity. Qed.

Lemma select_folder_checks_uidvalidity_witness :
  result (select_folder Scenarios.gmail_inbox_env "INBOX" Scenarios.uidinvalid_world)
  = inl (UIDInvalid "INBOX" 7 6).
Proof.
  refine (eq_trans (proj2 (proj2 (select_folder_checks_uidvalidity
            Scenarios.gmail_inbox_env "INBOX" Scenarios.inbox_folder
            Scenarios.uidinvalid_world inbox_of_gmail_remote))) _).
  vm_compute. reflexivity.
Defined.

Lemma poll_up_to_date_witness :
  events (poll Scenarios.gmail_inbox_env Scenarios.polling_world)
  = [EvLease; EvStatus 1 "poll" "INBOX" (Timestamp 1000); EvSleep 30; EvRelease].
Proof.
  rewrite (poll_up_to_date Scenarios.gmail_inbox_env Scenarios.polling_world
             (mkUIDValidity 7 120) Scenarios.inbox_folder).
  - reflexivity.
  - vm_compute. reflexivity.
  - exact inbox_of_gmail_remote.
  - vm_compute. discriminate.
Defined.

Lemma poll_without_checkpoint_witness :
  result (poll Scenarios.gmail_inbox_env Scenarios.fresh_world)
  = inl (AttributeError "'NoneType' object has no attribute 'highestmodseq'").
Proof.
  rewrite (poll_without_checkpoint Scenarios.gmail_inbox_env
             Scenarios.fresh_world Scenarios.inbox_folder).
  - reflexivity.
  - vm_compute. reflexivity.
  - exact inbox_of_gmail_remote.
Defined.

Lemma uidvalidity_mismatch_raises_witness :
  result (initial_sync Scenarios.gmail_inbox_env Scenarios.uidinvalid_world)
  = inl (UIDInvalid "INBOX" 7 6).
Proof.
  destruct (uidvalidity_mismatch_raises Scenarios.gmail_inbox_env
              Scenarios.uidinvalid_world (mkUIDValidity 6 100)
              Scenarios.inbox_folder) as [Hraised _].
  - vm_compute. reflexivity.
  - exact inbox_of_gmail_remote.
  - vm_compute. reflexivity.
  - rewrite Hraised. reflexivity.
Defined.

(** A pass of [poll] that finds the mailbox ahead of the checkpoint, and
    the pass after it. *)
Lemma poll_again_changes_nothing_witness :
  events (poll Scenarios.gmail_inbox_env
            (world (poll Scenarios.gmail_inbox_env Scenarios.interrupted_world)))
  = [EvLease; EvStatus 1 "poll" "INBOX" (Timestamp 1000); EvSleep 30; EvRelease].
Proof.
  destruct (poll_again_changes_nothing Scenarios.gmail_inbox_env
              Scenarios.interrupted_world "poll") as [Hagain _].
  - vm_compute. reflexivity.
  - rewrite Hagain. reflexivity.
Defined.

Lemma poll_reports_status_witness :
  ∃ report,
    result (sync_status 1 (world (poll Scenarios.gmail_inbox_env
                                    Scenarios.interrupted_world)))
    = inr (Some report)
    ∧ report !! "INBOX" = Some ("poll", Timestamp 1000).
Proof.
  apply (poll_reports_status Scenarios.gmail_inbox_env
           Scenarios.interrupted_world "poll").
  vm_compute. reflexivity.
Defined.

Lemma uidinvalid_is_persisted_witness :
  foldersyncs (committed (world (run_iteration Scenarios.gmail_inbox_env
                                   Scenarios.running_uidinvalid_world)))
    !! (1, "INBOX") = Some "poll uidinvalid".
Proof.
  refine (proj1 (proj2 (proj2 (proj2 (uidinvalid_is_persisted
            Scenarios.gmail_inbox_env Scenarios.running_uidinvalid_world
            "poll" (poll Scenarios.gmail_inbox_env) "INBOX" 7 6 0 _ _ _ _))))).
  - vm_compute. reflexivity.
  - reflexivity.
  - reflexivity.
  - vm_compute. reflexivity.
Defined.

Lemma folder_state_stays_known_witness :
  state_in_table Scenarios.gmail_inbox_env
    (world (_run Scenarios.gmail_inbox_env 2 Scenarios.fresh_world)).
Proof.
  apply (folder_state_stays_known Scenarios.gmail_inbox_env
           Scenarios.fresh_world 2).
  intros state Hstate. vm_compute in Hstate. injection Hstate as <-.
  by eexists.
Defined.

(** A plain IMAP folder with nothing in it. *)
Lemma initial_sync_returns_without_download_witness :
  Forall no_fetch
    (events (initial_sync Scenarios.empty_imap_env Scenarios.empty_world)).
Proof.
  apply (initial_sync_returns_without_download Scenarios.empty_imap_env
           Scenarios.empty_world "poll").
  - left. vm_compute. discriminate.
  - vm_compute. reflexivity.
Defined.

Lemma polling_worker_never_returns_witness :
  match result (_run Scenarios.gmail_inbox_env 2 Scenarios.fresh_world) with
  | inr (Some _) => False
  | _ => True
  end.
Proof.
  apply (polling_worker_never_returns Scenarios.gmail_inbox_env
           Scenarios.fresh_world 2).
  - vm_compute. repeat constructor.
  - intros state Hstate. vm_compute in Hstate. injection Hstate as <-.
    split; [by eexists|discriminate].
Defined.

End SyncFacts.
